(** * SSA POAP pipeline: consolidation, validation and builder verification

    A shallow embedding of the data-reconciliation core of the repository
    (scripts/consolidate-data.js, src/validation.js, src/verify.js and the
    address check of src/utils.js) together with the properties its
    specification states about it, and of the minting stage that consumes
    its output (src/mint.js and the checks of scripts/0-validate-data.js,
    scripts/4-mint-participation.js and scripts/5-mint-builders.js) with
    further properties read off the code.

    Modelling conventions.
    - A JavaScript string is a list of code units.  The model covers the
      code units U+0000..U+00FF, one [ascii] each; [length] is the JS
      [.length].  On this range [String.prototype.trim], the regex class
      [\s] and [toLowerCase] are closed and are written out below.
    - An object used as a dictionary (a parsed CSV row) is a [gmap] of its
      own properties, with the members of [Object.prototype] behind it:
      reading a name the row does not own gives the inherited member, and
      assigning a string under [__proto__] stores nothing.  A JS [Map],
      whose iteration order is its insertion order, is an association
      list; a [Set] is a [gset].
    - A score [1 - distance / maxLen] is kept as an exact rational.  The
      source computes it in binary floating point, with an error below
      2^-52.  On names shorter than ten million characters two values that
      differ (two scores, or a score and a threshold) are more than 2^-50
      apart, and equal ones round alike, so the rounded comparisons decide
      as the exact ones.
    - Dates are valid [Date]s, given by their [getTime()] in milliseconds.
    - The ledger is an oracle that answers a query from the trace of what
      happened before; the classifier threads that trace and extends it
      with every effect it performs.  The chain that answers a mint and
      the clock are oracles of the same kind.  The key constructors of the
      libraries ([new PublicKey], umi's [publicKey]) are part of these
      oracles: they can throw for an address the pattern accepts, and then
      nothing is sent and nothing is recorded. *)

From Stdlib Require Import Ascii String List ZArith QArith Lia Bool.
From stdpp Require Import base list gmap strings pretty.

Local Open Scope Z_scope.
Local Open Scope list_scope.

Set Warnings "-clear-no-such-hyp".

(* ================================================================== *)
(** * Part I: the embedding                                            *)
(* ================================================================== *)

(** ** JavaScript strings *)

Module JS.

Abbreviation jsstring := (list ascii).

(** String literals of the source are written as Rocq string literals. *)
Definition lit (s : string) : jsstring := list_ascii_of_string s.
Coercion lit : string >-> list.

Definition code (c : ascii) : N := N_of_ascii c.

Definition in_range (lo hi : N) (c : ascii) : bool :=
  ((lo <=? code c) && (code c <=? hi))%N.

(** WhiteSpace and LineTerminator code units below U+0100: TAB, LF, VT, FF,
    CR, SPACE and NO-BREAK SPACE.  This is both what [trim] strips and what
    the regex class [\s] matches. *)
Definition is_ws (c : ascii) : bool :=
  in_range 9 13 c || (code c =? 32)%N || (code c =? 160)%N.

Definition is_lower_az (c : ascii) : bool := in_range 97 122 c.

Fixpoint trimStart (s : jsstring) : jsstring :=
  match s with
  | c :: rest => if is_ws c then trimStart rest else s
  | [] => []
  end.

Definition trimEnd (s : jsstring) : jsstring := rev (trimStart (rev s)).

Definition trim (s : jsstring) : jsstring := trimEnd (trimStart s).

(** [toLowerCase] on U+0000..U+00FF: A-Z and the Latin-1 capitals
    U+00C0..U+00DE (the multiplication sign U+00D7 apart) move up by 32. *)
Definition lower_char (c : ascii) : ascii :=
  if in_range 65 90 c || (in_range 192 222 c && negb (code c =? 215)%N)
  then ascii_of_N (code c + 32)
  else c.

Definition toLowerCase (s : jsstring) : jsstring := map lower_char s.

Definition str_eqb (a b : jsstring) : bool := bool_decide (a = b).

(** [s.includes(c)] for a one-character needle. *)
Definition includes_char (c : ascii) (s : jsstring) : bool :=
  existsb (Ascii.eqb c) s.

(** [parts.join(sep)]. *)
Fixpoint join (sep : jsstring) (parts : list jsstring) : jsstring :=
  match parts with
  | [] => []
  | [p] => p
  | p :: rest => p ++ sep ++ join sep rest
  end.

(** [s.split(c)] for a one-character separator: always at least one piece. *)
Fixpoint split_acc (c : ascii) (cur : jsstring) (s : jsstring) : list jsstring :=
  match s with
  | [] => [rev cur]
  | x :: rest =>
      if Ascii.eqb x c then rev cur :: split_acc c [] rest
      else split_acc c (x :: cur) rest
  end.

Definition split (c : ascii) (s : jsstring) : list jsstring := split_acc c [] s.

(** A value that is either absent ([undefined] or [null]) or a string. *)
Definition truthy (v : option jsstring) : bool :=
  match v with
  | Some (_ :: _) => true
  | _ => false
  end.

(** [v || ''] and [v ?? ''] on such a value. *)
Definition or_empty (v : option jsstring) : jsstring :=
  match v with
  | Some s => s
  | None => []
  end.

(** A [Map] keyed by strings, in insertion order. *)
Fixpoint map_get {V : Type} (m : list (jsstring * V)) (k : jsstring) : option V :=
  match m with
  | [] => None
  | (k', v) :: rest => if str_eqb k' k then Some v else map_get rest k
  end.

Definition map_has {V : Type} (m : list (jsstring * V)) (k : jsstring) : bool :=
  match map_get m k with Some _ => true | None => false end.

(** [m.set(k, v)]: an existing key keeps its place. *)
Fixpoint map_set {V : Type} (m : list (jsstring * V)) (k : jsstring) (v : V)
  : list (jsstring * V) :=
  match m with
  | [] => [(k, v)]
  | (k', v') :: rest =>
      if str_eqb k' k then (k', v) :: rest else (k', v') :: map_set rest k v
  end.

(** A number in a template literal. *)
Definition show_nat (n : nat) : jsstring := lit (pretty n).

(** Arbitrary JS values, for the functions that test [typeof]. *)
Inductive jsval : Type :=
| VUndefined
| VNull
| VBool (b : bool)
| VNum (n : Z)
| VStr (s : jsstring)
| VObject.

Definition falsy (v : jsval) : bool :=
  match v with
  | VUndefined | VNull => true
  | VBool b => negb b
  | VNum n => (n =? 0)%Z
  | VStr s => match s with [] => true | _ => false end
  | VObject => false
  end.

Definition is_string (v : jsval) : bool :=
  match v with VStr _ => true | _ => false end.

(** The code units of a value known to be a string. *)
Definition string_of (v : jsval) : jsstring :=
  match v with VStr s => s | _ => [] end.

(** A property that is absent or holds a string, as a value. *)
Definition to_val (v : option jsstring) : jsval :=
  match v with Some s => VStr s | None => VUndefined end.

End JS.

Import JS.

(** ** Regular expressions

    The patterns of the source are written as terms of [regex] and run by
    Brzozowski derivatives.  [test] is [RegExp.prototype.test] for a
    pattern anchored by [^] and [$] without flags. *)

Module Regex.

Inductive regex : Type :=
| Void                       (* matches nothing *)
| Eps                        (* the empty string *)
| Class (p : ascii -> bool)  (* one code unit of a class *)
| Seq (r1 r2 : regex)
| Alt (r1 r2 : regex)
| Star (r : regex).

Definition Plus (r : regex) : regex := Seq r (Star r).

Fixpoint nullable (r : regex) : bool :=
  match r with
  | Void => false
  | Eps => true
  | Class _ => false
  | Seq r1 r2 => nullable r1 && nullable r2
  | Alt r1 r2 => nullable r1 || nullable r2
  | Star _ => true
  end.

Fixpoint deriv (c : ascii) (r : regex) : regex :=
  match r with
  | Void => Void
  | Eps => Void
  | Class p => if p c then Eps else Void
  | Seq r1 r2 =>
      if nullable r1
      then Alt (Seq (deriv c r1) r2) (deriv c r2)
      else Seq (deriv c r1) r2
  | Alt r1 r2 => Alt (deriv c r1) (deriv c r2)
  | Star r1 => Seq (deriv c r1) (Star r1)
  end.

Fixpoint test (r : regex) (s : jsstring) : bool :=
  match s with
  | [] => nullable r
  | c :: rest => test (deriv c r) rest
  end.

(** [r{lo,lo+extra}]. *)
Fixpoint Upto (r : regex) (extra : nat) : regex :=
  match extra with
  | O => Eps
  | S k => Alt Eps (Seq r (Upto r k))
  end.

Fixpoint Repeat (r : regex) (lo extra : nat) : regex :=
  match lo with
  | O => Upto r extra
  | S k => Seq r (Repeat r k extra)
  end.

(** The language of a pattern, used to state what [test] decides. *)
Inductive lang : regex -> jsstring -> Prop :=
| lang_eps : lang Eps []
| lang_class p c : p c = true -> lang (Class p) [c]
| lang_seq r1 r2 s1 s2 : lang r1 s1 -> lang r2 s2 -> lang (Seq r1 r2) (s1 ++ s2)
| lang_alt_l r1 r2 s : lang r1 s -> lang (Alt r1 r2) s
| lang_alt_r r1 r2 s : lang r2 s -> lang (Alt r1 r2) s
| lang_star_nil r : lang (Star r) []
| lang_star_cons r s1 s2 :
    lang r s1 -> lang (Star r) s2 -> lang (Star r) (s1 ++ s2).

End Regex.

Import Regex.

(** ** scripts/consolidate-data.js *)

Module Consolidate.

Abbreviation row := (gmap (list ascii) (list ascii)).

Definition quote : ascii := "034"%char.
Definition comma : ascii := ","%char.
Definition newline : ascii := "010"%char.

(** *** parseCSVLine *)

Record scan : Type := mkScan {
  result : list jsstring;
  current : jsstring;
  inQuotes : bool
}.

(** One iteration of the [for] loop of parseCSVLine. *)
Definition scan_char (st : scan) (char : ascii) : scan :=
  if Ascii.eqb char quote then
    mkScan (result st) (current st) (negb (inQuotes st))
  else if Ascii.eqb char comma && negb (inQuotes st) then
    mkScan (result st ++ [current st]) [] (inQuotes st)
  else
    mkScan (result st) (current st ++ [char]) (inQuotes st).

Definition strip_trailing_quote (s : jsstring) : jsstring :=
  match rev s with
  | c :: r => if Ascii.eqb c quote then rev r else s
  | [] => s
  end.

(** The [replace] at the end of parseCSVLine, whose pattern is a quote
    at the start or a quote at the end, with the global flag: a leading
    quote goes, and a trailing one, unless it is the very character the
    first alternative consumed. *)
Definition strip_quotes (s : jsstring) : jsstring :=
  match s with
  | c :: rest =>
      if Ascii.eqb c quote then strip_trailing_quote rest
      else strip_trailing_quote s
  | [] => []
  end.

Definition parseCSVLine (line : jsstring) : list jsstring :=
  let st := fold_left scan_char line (mkScan [] [] false) in
  map (fun s => trim (strip_quotes s)) (result st ++ [current st]).

(** *** parseCSV *)

(** A [row] holds the own properties of a plain object; what the object
    inherits comes from [Object.prototype].  These are the members every
    plain object inherits under Node, each with what [String] gives for
    it: a native function prints as its name in the frame below, and
    [__proto__] reads as [Object.prototype] itself. *)
Definition proto_key : jsstring := "__proto__".

Definition native_text (name : jsstring) : jsstring :=
  "function " ++ name ++ "() { [native code] }".

Definition object_prototype : list (jsstring * jsstring) :=
  [ ("constructor" : jsstring, native_text "Object");
    ("__defineGetter__" : jsstring, native_text "__defineGetter__");
    ("__defineSetter__" : jsstring, native_text "__defineSetter__");
    ("hasOwnProperty" : jsstring, native_text "hasOwnProperty");
    ("__lookupGetter__" : jsstring, native_text "__lookupGetter__");
    ("__lookupSetter__" : jsstring, native_text "__lookupSetter__");
    ("isPrototypeOf" : jsstring, native_text "isPrototypeOf");
    ("propertyIsEnumerable" : jsstring, native_text "propertyIsEnumerable");
    ("toString" : jsstring, native_text "toString");
    ("valueOf" : jsstring, native_text "valueOf");
    (proto_key, "[object Object]" : jsstring);
    ("toLocaleString" : jsstring, native_text "toLocaleString") ].

(** [String(row[col] ?? '')]: the own value, else the inherited member as
    a string, else the empty string. *)
Definition cell_text (r : row) (col : jsstring) : jsstring :=
  match r !! col with
  | Some v => v
  | None => or_empty (map_get object_prototype col)
  end.

(** [row[key] = value] on a plain object, for a string [value]: an own
    property is created or overwritten, except under [__proto__], where
    the inherited setter runs and ignores a string. *)
Definition assign (r : row) (key value : jsstring) : row :=
  if str_eqb key proto_key then r else <[ key := value ]> r.

(** [header.forEach((key, index) => row[key.trim()] = values[index]?.trim() || '')] *)
Definition build_row (header values : list jsstring) : row :=
  fold_left
    (fun (r : row) (ik : nat * jsstring) =>
       assign r (trim (snd ik)) (or_empty (trim <$> (values !! fst ik))))
    (imap (fun index key => (index, key)) header)
    ∅.

Definition parseCSV (content : jsstring) : list row :=
  let lines := split newline (trim content) in
  if (length lines <? 2)%nat then []
  else
    let header := parseCSVLine (hd [] lines) in
    flat_map
      (fun line =>
         let values := parseCSVLine line in
         match values with
         | [] => []
         | _ => [build_row header values]
         end)
      (tl lines).

(** *** toCSV *)

(** The [replace] of toCSV: every quote character is doubled. *)
Definition double_quotes (val : jsstring) : jsstring :=
  flat_map (fun c => if Ascii.eqb c quote then [quote; quote] else [c]) val.

Definition csv_field (val : jsstring) : jsstring :=
  if includes_char comma val || includes_char quote val
  then quote :: double_quotes val ++ [quote]
  else val.

Definition csv_line (columns : list jsstring) (r : row) : jsstring :=
  join [comma] (map (fun col => csv_field (cell_text r col)) columns).

Definition toCSV (data : list row) (columns : list jsstring) : jsstring :=
  match data with
  | [] => []
  | _ =>
      let header := join [comma] columns in
      let rows := map (csv_line columns) data in
      join [newline] (header :: rows)
  end.

(** *** normalizeName *)

(** [s.replace(/\s+/g, ' ')]: every maximal run of whitespace becomes one
    space.  [in_run] tells that the previous character was whitespace. *)
Fixpoint collapse_ws (in_run : bool) (s : jsstring) : jsstring :=
  match s with
  | [] => []
  | c :: rest =>
      if is_ws c then
        if in_run then collapse_ws true rest
        else " "%char :: collapse_ws true rest
      else c :: collapse_ws false rest
  end.

(** [s.replace(/[^a-z\s]/g, '')] *)
Definition remove_non_alpha (s : jsstring) : jsstring :=
  filter (fun c => is_lower_az c || is_ws c) s.

Definition normalizeName (name : option jsstring) : jsstring :=
  if negb (truthy name) then []
  else remove_non_alpha (collapse_ws false (trim (toLowerCase (or_empty name)))).

(** *** similarity *)

(** Row [i] of the Levenshtein matrix from row [i-1].  [prev] is
    [matrix[i-1][j-1..]] and [left] is [matrix[i][j-1]]; the result is
    [matrix[i][j..]]. *)
Fixpoint fill_row (c : ascii) (s2 : jsstring) (prev : list nat) (left : nat)
  : list nat :=
  match s2, prev with
  | d :: s2', diag :: (up :: _) as prev' =>
      let cost := if Ascii.eqb c d then 0%nat else 1%nat in
      let v := Nat.min (Nat.min (up + 1) (left + 1)) (diag + cost) in
      v :: fill_row c s2' prev' v
  | _, _ => []
  end.

(** The last row of the matrix once every character of [s1] is consumed;
    [i] is the index of the row [prev]. *)
Fixpoint fill_matrix (s1 s2 : jsstring) (i : nat) (prev : list nat) : list nat :=
  match s1 with
  | [] => prev
  | c :: s1' => fill_matrix s1' s2 (S i) (S i :: fill_row c s2 prev (S i))
  end.

Definition levenshtein (s1 s2 : jsstring) : nat :=
  List.last (fill_matrix s1 s2 0 (seq 0 (S (length s2)))) 0%nat.

Definition similarity (str1 str2 : jsstring) : Q :=
  let s1 := trim (toLowerCase str1) in
  let s2 := trim (toLowerCase str2) in
  if str_eqb s1 s2 then 1%Q
  else if (length s1 =? 0)%nat || (length s2 =? 0)%nat then 0%Q
  else
    let distance := levenshtein s1 s2 in
    let maxLen := Nat.max (length s1) (length s2) in
    (1 - (Z.of_nat distance # Pos.of_nat maxLen))%Q.

(** *** main, step 1: the wallet table *)

Record WalletEntry : Type := mkWalletEntry {
  w_name : jsstring;
  w_normalizedName : jsstring;
  w_wallet : jsstring;
  w_programId : jsstring;
  w_github : jsstring
}.

(** [row[k1] || row[k2] || ... || ''] *)
Fixpoint first_truthy (r : row) (keys : list jsstring) : jsstring :=
  match keys with
  | [] => []
  | k :: ks => if truthy (r !! k) then or_empty (r !! k) else first_truthy r ks
  end.

Record WalletTable : Type := mkWalletTable {
  walletData : list WalletEntry;
  walletsByName : list (jsstring * WalletEntry)
}.

Definition load_wallet_row (t : WalletTable) (r : row) : WalletTable :=
  let name := first_truthy r ["Full Name" : jsstring; "name" : jsstring; "Name" : jsstring] in
  let wallet :=
    first_truthy r ["Devnet Wallet Address" : jsstring; "Devnet wallet address" : jsstring;
                    "wallet" : jsstring; "Wallet" : jsstring] in
  let programId := first_truthy r ["Program ID" : jsstring; "program_id" : jsstring] in
  let github :=
    first_truthy r ["Github profile" : jsstring; "github" : jsstring; "GitHub" : jsstring] in
  if negb (truthy (Some name)) || negb (truthy (Some wallet))
     || str_eqb (toLowerCase wallet) "nil"
  then t
  else
    let normalizedName := normalizeName (Some name) in
    let entry :=
      mkWalletEntry (trim name) normalizedName (trim wallet)
                    (trim programId) (trim github) in
    mkWalletTable
      (walletData t ++ [entry])
      (if map_has (walletsByName t) normalizedName then walletsByName t
       else map_set (walletsByName t) normalizedName entry).

Definition loadWallets (walletRows : list row) : WalletTable :=
  fold_left load_wallet_row walletRows (mkWalletTable [] []).

(** *** main, step 2: the registrations *)

Record Registration : Type := mkRegistration {
  r_name : jsstring;
  r_normalizedName : jsstring;
  r_email : jsstring;
  r_campuses : list jsstring;
  r_daysAttended : nat;
  r_attended : bool
}.

Definition load_luma_row (campus : jsstring)
    (regs : list (jsstring * Registration)) (r : row)
  : list (jsstring * Registration) :=
  let email := toLowerCase (trim (first_truthy r ["email" : jsstring; "Email" : jsstring])) in
  let firstName := first_truthy r ["first_name" : jsstring; "First Name" : jsstring] in
  let lastName := first_truthy r ["last_name" : jsstring; "Last Name" : jsstring] in
  let given := first_truthy r ["name" : jsstring; "Name" : jsstring] in
  let fullName :=
    if truthy (Some given) then given
    else trim (firstName ++ " "%char :: lastName) in
  let checkedIn := first_truthy r ["checked_in_at" : jsstring; "Checked In" : jsstring] in
  let status := first_truthy r ["approval_status" : jsstring; "Status" : jsstring] in
  if negb (truthy (Some email)) then regs
  else
    let attended := negb (str_eqb checkedIn []) || str_eqb status "approved" in
    match map_get regs email with
    | Some existing =>
        let campuses :=
          if existsb (str_eqb campus) (r_campuses existing)
          then r_campuses existing
          else r_campuses existing ++ [campus] in
        map_set regs email
          (mkRegistration (r_name existing) (r_normalizedName existing)
             (r_email existing) campuses (S (r_daysAttended existing))
             (r_attended existing))
    | None =>
        map_set regs email
          (mkRegistration (trim fullName) (normalizeName (Some fullName))
             email [campus] 1 attended)
    end.

(** Every Luma file comes with the campus read off its name. *)
Definition loadRegistrations (lumaFiles : list (jsstring * list row))
  : list (jsstring * Registration) :=
  fold_left
    (fun regs file => fold_left (load_luma_row (fst file)) (snd file) regs)
    lumaFiles [].

(** *** main, step 3: matching *)

Inductive MatchMethod : Type := exact | fuzzy.

(** The source renders a confidence with [toFixed(1)] and a percent sign;
    the records below keep the score itself. *)
Record Matched : Type := mkMatched {
  m_name : jsstring;
  m_wallet : jsstring;
  m_email : jsstring;
  m_campus : option jsstring;
  m_campuses : jsstring;
  m_daysAttended : nat;
  m_github : jsstring;
  m_matchMethod : MatchMethod;
  m_confidence : Q
}.

Record ReviewCandidate : Type := mkReview {
  rv_lumaName : jsstring;
  rv_lumaEmail : jsstring;
  rv_suggestedMatch : jsstring;
  rv_suggestedWallet : jsstring;
  rv_confidence : Q;
  rv_campuses : jsstring
}.

Record MissingWallet : Type := mkMissing {
  mw_name : jsstring;
  mw_email : jsstring;
  mw_campuses : jsstring;
  mw_daysAttended : nat
}.

Record MatchState : Type := mkMatchState {
  matched : list Matched;
  reviewNeeded : list ReviewCandidate;
  missingWallets : list MissingWallet;
  usedWallets : gset (list ascii)
}.

Definition FUZZY_THRESHOLD : Q := 85 # 100.
Definition REVIEW_THRESHOLD : Q := 7 # 10.

Definition Qgt_bool (a b : Q) : bool := negb (Qle_bool a b).
Definition Qge_bool (a b : Q) : bool := Qle_bool b a.

(** One iteration of the inner loop over [walletsByName]. *)
Definition scan_wallet (used : gset (list ascii)) (target : jsstring)
    (best : option WalletEntry * Q) (ne : jsstring * WalletEntry)
  : option WalletEntry * Q :=
  if bool_decide (w_wallet (snd ne) ∈ used) then best
  else
    let score := similarity target (fst ne) in
    if Qgt_bool score (snd best) then (Some (snd ne), score) else best.

Definition best_match (byName : list (jsstring * WalletEntry))
    (used : gset (list ascii)) (target : jsstring) : option WalletEntry * Q :=
  fold_left (scan_wallet used target) byName (None, 0%Q).

Definition join_campuses (cs : list jsstring) : jsstring :=
  join ("," %char :: " "%char :: nil) cs.

Definition push_matched (st : MatchState) (email : jsstring) (reg : Registration)
    (walletEntry : WalletEntry) (method : MatchMethod) (confidence : Q)
  : MatchState :=
  mkMatchState
    (matched st ++
       [mkMatched
          (if truthy (Some (r_name reg)) then r_name reg else w_name walletEntry)
          (w_wallet walletEntry) email (head (r_campuses reg))
          (join_campuses (r_campuses reg)) (r_daysAttended reg)
          (w_github walletEntry) method confidence])
    (reviewNeeded st) (missingWallets st)
    ({[ w_wallet walletEntry ]} ∪ usedWallets st).

Definition push_review (st : MatchState) (email : jsstring) (reg : Registration)
    (bestMatch : WalletEntry) (bestScore : Q) : MatchState :=
  mkMatchState
    (matched st)
    (reviewNeeded st ++
       [mkReview (r_name reg) email (w_name bestMatch) (w_wallet bestMatch)
          bestScore (join_campuses (r_campuses reg))])
    (missingWallets st) (usedWallets st).

Definition push_missing (st : MatchState) (email : jsstring) (reg : Registration)
  : MatchState :=
  mkMatchState
    (matched st) (reviewNeeded st)
    (missingWallets st ++
       [mkMissing (r_name reg) email (join_campuses (r_campuses reg))
          (r_daysAttended reg)])
    (usedWallets st).

(** The body of the loop over [registrationsByEmail]. *)
Definition match_registration (byName : list (jsstring * WalletEntry))
    (st : MatchState) (er : jsstring * Registration) : MatchState :=
  let email := fst er in
  let reg := snd er in
  match map_get byName (r_normalizedName reg) with
  | Some walletEntry => push_matched st email reg walletEntry exact 1%Q
  | None =>
      let (bestMatch, bestScore) :=
        best_match byName (usedWallets st) (r_normalizedName reg) in
      match bestMatch with
      | Some entry =>
          if Qge_bool bestScore FUZZY_THRESHOLD then
            push_matched st email reg entry fuzzy bestScore
          else if Qge_bool bestScore REVIEW_THRESHOLD then
            push_review st email reg entry bestScore
          else push_missing st email reg
      | None => push_missing st email reg
      end
  end.

Definition matchRegistrations (byName : list (jsstring * WalletEntry))
    (registrationsByEmail : list (jsstring * Registration)) : MatchState :=
  fold_left (match_registration byName) registrationsByEmail
    (mkMatchState [] [] [] ∅).

Record NoEmail : Type := mkNoEmail {
  ne_name : jsstring;
  ne_wallet : jsstring;
  ne_github : jsstring;
  ne_programId : jsstring
}.

Definition findNoEmail (data : list WalletEntry) (used : gset (list ascii))
  : list NoEmail :=
  map (fun e => mkNoEmail (w_name e) (w_wallet e) (w_github e) (w_programId e))
    (filter (fun e => w_wallet e ∉ used) data).

(** *** main, step 5: participants.json *)

Record Participant : Type := mkParticipant {
  name : option jsstring;
  wallet : option jsstring;
  email : option jsstring;
  campus : option jsstring
}.

Definition allParticipants (ms : list Matched) (ns : list NoEmail)
  : list Participant :=
  map (fun m => mkParticipant (Some (m_name m)) (Some (m_wallet m))
                  (Some (m_email m)) (m_campus m)) ms
  ++ map (fun n => mkParticipant (Some (ne_name n)) (Some (ne_wallet n))
                     (Some []) (Some ("WALK-IN" : jsstring))) ns.

(** The Identity Matcher as a whole: steps 3 and 5 of [main] on the loaded
    wallet table and registrations. *)
Definition consolidate (t : WalletTable)
    (registrationsByEmail : list (jsstring * Registration)) : list Participant :=
  let st := matchRegistrations (walletsByName t) registrationsByEmail in
  allParticipants (matched st) (findNoEmail (walletData t) (usedWallets st)).

End Consolidate.

Import Consolidate.

(** ** src/validation.js *)

Module Validation.

Record Check : Type := mkCheck {
  valid : bool;
  missing : bool;
  error : option jsstring
}.

Definition ok : Check := mkCheck true false None.
Definition fail (msg : jsstring) : Check := mkCheck false false (Some msg).

(** The class [1-9A-HJ-NP-Za-km-z]. *)
Definition base58_char (c : ascii) : bool :=
  in_range 49 57 c || in_range 65 72 c || in_range 74 78 c
  || in_range 80 90 c || in_range 97 107 c || in_range 109 122 c.

Definition base58Regex : regex := Plus (Class base58_char).

Definition validateWalletAddress (address : jsval) : Check :=
  if falsy address || negb (is_string address) then
    fail "Missing or invalid wallet address"
  else
    let s := string_of address in
    if negb (str_eqb (trim s) s) then
      fail "Wallet address has leading/trailing whitespace"
    else if (length s <? 32)%nat || (44 <? length s)%nat then
      fail ("Invalid length: " ++ show_nat (length s) ++ " chars (expected 32-44)")
    else if negb (test base58Regex s) then
      fail "Contains invalid characters (not valid base58)"
    else ok.

(** The class [^\s@]. *)
Definition not_space_at (c : ascii) : bool :=
  negb (is_ws c || Ascii.eqb c "@").

Definition emailRegex : regex :=
  Seq (Plus (Class not_space_at))
    (Seq (Class (Ascii.eqb "@"))
       (Seq (Plus (Class not_space_at))
          (Seq (Class (Ascii.eqb "."))
             (Plus (Class not_space_at))))).

Definition validateEmail (email : option jsstring) : Check :=
  if negb (truthy email) || str_eqb (trim (or_empty email)) [] then
    mkCheck true true None
  else if negb (test emailRegex (trim (or_empty email))) then
    fail "Invalid email format"
  else ok.

Record Verdict : Type := mkVerdict {
  v_valid : bool;
  errors : list jsstring;
  warnings : list jsstring
}.

Definition row_prefix (rowNum : nat) : jsstring := "Row " ++ show_nat rowNum ++ ": ".

Definition validateParticipant (participant : Participant) (index : nat) : Verdict :=
  let rowNum := (index + 1)%nat in
  let errors1 :=
    if negb (truthy (wallet participant)) then
      [row_prefix rowNum ++ "Missing wallet address"]
    else
      let walletCheck := validateWalletAddress (VStr (or_empty (wallet participant))) in
      if negb (valid walletCheck) then
        [row_prefix rowNum ++ or_empty (error walletCheck) ++ " (wallet: "
           ++ quote :: or_empty (wallet participant) ++ quote :: ")"]
      else [] in
  let warnings1 :=
    if truthy (email participant) then
      let emailCheck := validateEmail (email participant) in
      if negb (valid emailCheck) then
        [row_prefix rowNum ++ or_empty (error emailCheck) ++ " (email: "
           ++ quote :: or_empty (email participant) ++ quote
           :: ") - will skip email notification"]
      else []
    else [row_prefix rowNum ++ "No email address - will not receive notification"] in
  let warnings2 :=
    if negb (truthy (name participant))
       || str_eqb (trim (or_empty (name participant))) []
    then
      [row_prefix rowNum ++ "No name provided (wallet: "
         ++ match wallet participant with
            | Some w => take 8 w
            | None => "undefined"
            end ++ "...)"]
    else [] in
  mkVerdict (length errors1 =? 0)%nat errors1 (warnings1 ++ warnings2).

(** *** findDuplicates *)

Record Group : Type := mkGroup {
  originalWallet : jsstring;
  indices : list nat;
  names : list jsstring
}.

Definition wallet_key (w : jsstring) : jsstring := toLowerCase (trim w).

Definition group_step (walletMap : list (jsstring * Group))
    (ip : nat * Participant) : list (jsstring * Group) :=
  let index := fst ip in
  let p := snd ip in
  if negb (truthy (wallet p)) then walletMap
  else
    let w := or_empty (wallet p) in
    let key := wallet_key w in
    let g :=
      match map_get walletMap key with
      | Some g => g
      | None => mkGroup w [] []
      end in
    map_set walletMap key
      (mkGroup (originalWallet g) (indices g ++ [(index + 1)%nat])
         (names g ++ [if truthy (name p) then or_empty (name p) else "Unknown"])).

Definition findDuplicates (participants : list Participant) : list Group :=
  let walletMap :=
    fold_left group_step (imap (fun index p => (index, p)) participants) [] in
  filter (fun g => (1 < length (indices g))%nat) (map snd walletMap).

(** *** validateAllParticipants *)

Record Summary : Type := mkSummary {
  totalEntries : nat;
  validEntries : nat;
  invalidEntries : nat;
  duplicateWallets : nat;
  s_withEmail : nat;
  s_withoutEmail : nat;
  errorCount : nat;
  warningCount : nat
}.

Record Report : Type := mkReport {
  total : nat;
  rep_valid : nat;
  rep_invalid : nat;
  rep_errors : list jsstring;
  rep_warnings : list jsstring;
  duplicates : list Group;
  withEmail : nat;
  withoutEmail : nat;
  summary : option Summary
}.

(** The callback of the [forEach] of validateAllParticipants. *)
Definition report_step (report : Report) (ip : nat * Participant) : Report :=
  let result := validateParticipant (snd ip) (fst ip) in
  let has_email :=
    truthy (email (snd ip)) && negb (str_eqb (trim (or_empty (email (snd ip)))) []) in
  mkReport
    (total report)
    (if v_valid result then S (rep_valid report) else rep_valid report)
    (if v_valid result then rep_invalid report else S (rep_invalid report))
    (rep_errors report ++ errors result)
    (rep_warnings report ++ warnings result)
    (duplicates report)
    (if has_email then S (withEmail report) else withEmail report)
    (if has_email then withoutEmail report else S (withoutEmail report))
    (summary report).

Definition validateAllParticipants (participants : list Participant) : Report :=
  let report0 := mkReport (length participants) 0 0 [] [] [] 0 0 None in
  match participants with
  | [] =>
      mkReport (total report0) 0 0
        ["No participants found or invalid data format" : jsstring]
        [] [] 0 0 None
  | _ =>
      let r :=
        fold_left report_step (imap (fun index p => (index, p)) participants)
          report0 in
      let dups := findDuplicates participants in
      mkReport (total r) (rep_valid r) (rep_invalid r) (rep_errors r)
        (rep_warnings r) dups (withEmail r) (withoutEmail r)
        (Some (mkSummary (total r) (rep_valid r) (rep_invalid r) (length dups)
                 (withEmail r) (withoutEmail r) (length (rep_errors r))
                 (length (rep_warnings r))))
  end.

(** *** removeDuplicates *)

(** The [filter] callback with the [seen] set it closes over. *)
Fixpoint remove_dups (seen : gset (list ascii)) (participants : list Participant)
  : list Participant :=
  match participants with
  | [] => []
  | p :: rest =>
      if negb (truthy (wallet p)) then remove_dups seen rest
      else
        let w := wallet_key (or_empty (wallet p)) in
        if bool_decide (w ∈ seen) then remove_dups seen rest
        else p :: remove_dups ({[ w ]} ∪ seen) rest
  end.

Definition removeDuplicates (participants : list Participant) : list Participant :=
  remove_dups ∅ participants.

(** *** cleanParticipantData *)

Definition clean_field (v : option jsstring) : option jsstring :=
  Some (or_empty (trim <$> v)).

Definition cleanParticipantData (participants : list Participant)
  : list Participant :=
  map (fun p => mkParticipant (clean_field (name p)) (clean_field (wallet p))
                  (clean_field (email p)) (clean_field (campus p)))
    participants.

(** *** separateValidInvalid *)

Record Separated : Type := mkSeparated {
  sep_valid : list Participant;
  sep_invalid : list (Participant * list jsstring)
}.

(** The callback of the [forEach] of separateValidInvalid; an invalid
    record is kept with its errors. *)
Definition separate_step (acc : Separated) (ip : nat * Participant) : Separated :=
  let result := validateParticipant (snd ip) (fst ip) in
  if v_valid result then mkSeparated (sep_valid acc ++ [snd ip]) (sep_invalid acc)
  else mkSeparated (sep_valid acc) (sep_invalid acc ++ [(snd ip, errors result)]).

Definition separateValidInvalid (participants : list Participant) : Separated :=
  fold_left separate_step (imap (fun index p => (index, p)) participants)
    (mkSeparated [] []).

End Validation.

Import Validation.

(** ** src/verify.js and the address check of src/utils.js *)

Module Verify.

(** [/^[1-9A-HJ-NP-Za-km-z]{32,44}$/] *)
Definition solanaRegex : regex := Repeat (Class base58_char) 32 12.

Definition isValidSolanaAddress (address : jsval) : bool :=
  if falsy address || negb (is_string address) then false
  else test solanaRegex (string_of address).

(** One entry of [getSignaturesForAddress]; [blockTime] is a number of
    seconds or [null]. *)
Record SigInfo : Type := mkSig {
  signature : jsstring;
  blockTime : option Z
}.

(** What the [try] block meets: [new PublicKey(walletAddress)] throws, so
    that nothing is sent; or the RPC call throws; or the call resolves to
    nothing or to a list, newest first. *)
Inductive Reply : Type :=
| KeyThrows (message : jsstring)
| Throws (message : jsstring)
| Nothing
| Signatures (sigs : list SigInfo).

Record Builder : Type := mkBuilder {
  b_participant : Participant;
  b_transactionCount : nat;
  b_firstTx : option jsstring
}.

Record NonBuilder : Type := mkNonBuilder {
  nb_participant : Participant;
  nb_error : option jsstring
}.

Record Verified : Type := mkVerified {
  builders : list Builder;
  nonBuilders : list NonBuilder
}.

(** The effects of the module, in the order they happen. *)
Inductive Event : Type :=
| EvQuery (address : jsstring) (limit : nat)
| EvDelay (ms : nat)
| EvProgress (current total : nat) (isBuilder : bool)
| EvSaveBuilders (saved : list Builder).

(** The connection, with the key constructor in front of it, answers for
    an address knowing everything that happened before. *)
Definition Connection : Type := list Event -> jsstring -> Reply.

(** Computations that extend the trace. *)
Definition M (A : Type) : Type := list Event -> A * list Event.

Definition ret {A : Type} (a : A) : M A := fun tr => (a, tr).

Definition bind {A B : Type} (m : M A) (k : A -> M B) : M B :=
  fun tr => let (a, tr') := m tr in k a tr'.

Definition emit (e : Event) : M unit := fun tr => (tt, tr ++ [e]).

Notation "'await' x := m 'in' k" := (bind m (fun x => k))
  (at level 10, x name, m at level 100, k at level 200).
Notation "'run' m 'in' k" := (bind m (fun _ => k))
  (at level 10, m at level 100, k at level 200).

(** [new PublicKey(walletAddress)] and then
    [connection.getSignaturesForAddress(pubkey, { limit })]: the query is
    sent, and recorded, only once the key is built. *)
Definition getSignaturesForAddress (connection : Connection)
    (address : jsstring) (limit : nat) : M Reply :=
  fun tr =>
    match connection tr address with
    | KeyThrows message => (KeyThrows message, tr)
    | reply => (reply, tr ++ [EvQuery address limit])
    end.

Record Activity : Type := mkActivity {
  isBuilder : bool;
  transactionCount : nat;
  firstTx : option jsstring;
  act_error : option jsstring
}.

(** Dates are valid [Date]s, given by [getTime()] in milliseconds.  The
    source compares [blockTime] with [getTime() / 1000]; multiplying
    through by 1000 decides the same on integers. *)
Definition in_window (startMs endMs : Z) (sig : SigInfo) : bool :=
  match blockTime sig with
  | None => false
  | Some t =>
      if (t =? 0)%Z then false
      else (startMs <=? t * 1000)%Z && (t * 1000 <=? endMs)%Z
  end.

Definition checkWalletActivity (connection : Connection)
    (walletAddress : jsval) (startDate endDate : Z) : M Activity :=
  if negb (isValidSolanaAddress walletAddress) then
    ret (mkActivity false 0 None (Some ("Invalid address" : jsstring)))
  else
    await reply := getSignaturesForAddress connection (string_of walletAddress) 100 in
    match reply with
    | KeyThrows message | Throws message =>
        ret (mkActivity false 0 None (Some message))
    | Nothing => ret (mkActivity false 0 None None)
    | Signatures [] => ret (mkActivity false 0 None None)
    | Signatures signatures =>
        let relevantTxs := List.filter (in_window startDate endDate) signatures in
        let transactionCount := length relevantTxs in
        let firstTx := signature <$> last relevantTxs in
        ret (mkActivity (0 <? transactionCount)%nat transactionCount firstTx None)
    end.

(** [result.error || null] *)
Definition error_or_null (e : option jsstring) : option jsstring :=
  if truthy e then e else None.

(** The [for] loop of verifyAllParticipants from index [i] on; [rest] holds
    [participants[i..]]. *)
Fixpoint verify_loop (connection : Connection) (startDate endDate : Z)
    (onProgress : bool) (total i : nat) (rest : list Participant)
    (acc : Verified) : M Verified :=
  match rest with
  | [] => ret acc
  | participant :: rest' =>
      let current := (i + 1)%nat in
      await result := checkWalletActivity connection (to_val (wallet participant))
                        startDate endDate in
      let acc' :=
        if isBuilder result then
          mkVerified
            (builders acc ++
               [mkBuilder participant (transactionCount result) (firstTx result)])
            (nonBuilders acc)
        else
          mkVerified (builders acc)
            (nonBuilders acc ++
               [mkNonBuilder participant (error_or_null (act_error result))]) in
      run (if onProgress then emit (EvProgress current total (isBuilder result))
           else ret tt) in
      run (if (i <? total - 1)%nat then emit (EvDelay 200) else ret tt) in
      verify_loop connection startDate endDate onProgress total (S i) rest' acc'
  end.

Definition verifyAllParticipants (connection : Connection)
    (participants : list Participant) (startDate endDate : Z)
    (onProgress : bool) : M Verified :=
  await out := verify_loop connection startDate endDate onProgress
                 (length participants) 0 participants (mkVerified [] []) in
  run emit (EvSaveBuilders (builders out)) in
  ret out.

End Verify.

Import Verify.

(** ** src/mint.js *)

Module Mint.

(** What minting one token meets once the address is accepted: building
    the transaction throws ([publicKey(recipient)] or
    [publicKey(treeAddress)] inside the call of [mintV1]), so that nothing
    is sent; or sending and confirming it throws; or it is confirmed with
    a signature. *)
Inductive MintReply : Type :=
| BuildThrows (message : jsstring)
| MintThrows (message : jsstring)
| Minted (signature : jsstring).

(** The [wallet] of a recipient read from parsed JSON: absent, [null] or
    a string. *)
Inductive property : Type :=
| PUndefined
| PNull
| PString (s : jsstring).

Definition prop_val (w : property) : jsval :=
  match w with
  | PUndefined => VUndefined
  | PNull => VNull
  | PString s => VStr s
  end.

Global Instance property_eq_dec : EqDecision property.
Proof. solve_decision. Defined.

Global Instance property_countable : Countable property.
Proof.
  refine (inj_countable'
            (fun w => match w with
                      | PUndefined => None
                      | PNull => Some None
                      | PString s => Some (Some s)
                      end)
            (fun o => match o with
                      | None => PUndefined
                      | Some None => PNull
                      | Some (Some s) => PString s
                      end) _).
  by intros [].
Defined.

Inductive MintEvent : Type :=
| MvMint (recipient : jsstring)
| MvDelay (ms : nat)
| MvProgress (current total : nat) (success : bool)
| MvLog (alreadyMinted remaining : nat).

(** The chain answers a mint, and the clock gives [new Date().toISOString()],
    knowing everything that happened before. *)
Definition Minter : Type := list MintEvent -> jsstring -> MintReply.
Definition Clock : Type := list MintEvent -> jsstring.

(** A value inside a template literal. *)
Definition template_of (v : jsval) : jsstring :=
  match v with
  | VUndefined => "undefined"
  | VNull => "null"
  | VBool true => "true"
  | VBool false => "false"
  | VNum n => lit (pretty n)
  | VStr s => s
  | VObject => "[object Object]"
  end.

(** mintCompressedNFT: the thrown message on the left, the signature on
    the right.  [MvMint] records that the transaction went to the chain. *)
Definition mintCompressedNFT (minter : Minter) (recipient : jsval)
    (tr : list MintEvent) : (jsstring + jsstring) * list MintEvent :=
  if negb (isValidSolanaAddress recipient) then
    (inl ("Invalid wallet address: " ++ template_of recipient), tr)
  else
    match minter tr (string_of recipient) with
    | BuildThrows message => (inl message, tr)
    | MintThrows message => (inl message, tr ++ [MvMint (string_of recipient)])
    | Minted signature => (inr signature, tr ++ [MvMint (string_of recipient)])
    end.

Section Recipients.

(** A recipient is a participant or a builder record; the code reads its
    [wallet] only. *)
Variable R : Type.
Variable walletOf : R -> property.

Record Success : Type := mkSuccess {
  ok_recipient : R;
  ok_signature : jsstring;
  mintedAt : jsstring
}.

Record Failure : Type := mkFailure {
  ko_recipient : R;
  ko_error : jsstring;
  failedAt : jsstring
}.

Record MintResult : Type := mkMintResult {
  successful : list Success;
  failed : list Failure
}.

(** The [for] loop of mintToMany from index [i] on.  [onProgress] tells
    whether a callback is given; the callback is taken to return normally
    (one that throws inside the [try] would be caught there). *)
Fixpoint mint_loop (minter : Minter) (clock : Clock) (onProgress : bool)
    (total i : nat) (rest : list R) (acc : MintResult) (tr : list MintEvent)
  : MintResult * list MintEvent :=
  match rest with
  | [] => (acc, tr)
  | recipient :: rest' =>
      let current := (i + 1)%nat in
      let (result, tr1) :=
        mintCompressedNFT minter (prop_val (walletOf recipient)) tr in
      let acc' :=
        match result with
        | inr signature =>
            mkMintResult
              (successful acc ++ [mkSuccess recipient signature (clock tr1)])
              (failed acc)
        | inl message =>
            mkMintResult (successful acc)
              (failed acc ++ [mkFailure recipient message (clock tr1)])
        end in
      let tr2 :=
        if onProgress
        then tr1 ++ [MvProgress current total
                       (match result with inr _ => true | inl _ => false end)]
        else tr1 in
      let tr3 := if (i <? total - 1)%nat then tr2 ++ [MvDelay 500] else tr2 in
      mint_loop minter clock onProgress total (S i) rest' acc' tr3
  end.

Definition mintToMany (minter : Minter) (clock : Clock) (recipients : list R)
    (onProgress : bool) (tr : list MintEvent) : MintResult * list MintEvent :=
  mint_loop minter clock onProgress (length recipients) 0 recipients
    (mkMintResult [] []) tr.

Definition resumeMinting (minter : Minter) (clock : Clock) (recipients : list R)
    (previousSuccessful : list Success) (onProgress : bool)
    (tr : list MintEvent) : MintResult * list MintEvent :=
  let mintedWallets : gset property :=
    list_to_set (map (fun p => walletOf (ok_recipient p)) previousSuccessful) in
  let remaining := filter (fun r => walletOf r ∉ mintedWallets) recipients in
  let tr0 := tr ++ [MvLog (length previousSuccessful) (length remaining)] in
  let (out, tr1) := mintToMany minter clock remaining onProgress tr0 in
  (mkMintResult (previousSuccessful ++ successful out) (failed out), tr1).

End Recipients.

Arguments mkSuccess {R}.
Arguments ok_recipient {R}.
Arguments ok_signature {R}.
Arguments mintedAt {R}.
Arguments mkFailure {R}.
Arguments ko_recipient {R}.
Arguments ko_error {R}.
Arguments failedAt {R}.
Arguments mkMintResult {R}.
Arguments successful {R}.
Arguments failed {R}.
Arguments mint_loop {R}.
Arguments mintToMany {R}.
Arguments resumeMinting {R}.

End Mint.

Import Mint.

(** ** The gates of the scripts *)

Module Scripts.

(** scripts/0-validate-data.js after the file is read: with [--fix] the
    data is cleaned and deduplicated and saved; then the report is
    printed and decides the exit code.  Printing reads
    [summary.totalEntries.toString()]: on the empty report, whose summary
    is the empty object, this throws, and the handler of [main] exits with
    code 1 before the verdict is computed. *)
Inductive RunOutcome : Type :=
| ValidationPassed
| ValidationFailed
| UnexpectedError.

Record ValidateRun : Type := mkValidateRun {
  saved : option (list Participant);
  run_report : Report;
  outcome : RunOutcome;
  exitCode : nat
}.

Definition validateData (shouldFix : bool) (participants : list Participant)
  : ValidateRun :=
  let fixed :=
    if shouldFix then removeDuplicates (cleanParticipantData participants)
    else participants in
  let saved := if shouldFix then Some fixed else None in
  let report := validateAllParticipants fixed in
  match summary report with
  | None => mkValidateRun saved report UnexpectedError 1
  | Some _ =>
      let isValid :=
        (length (rep_errors report) =? 0)%nat
        && (length (duplicates report) =? 0)%nat in
      if isValid then mkValidateRun saved report ValidationPassed 0
      else mkValidateRun saved report ValidationFailed 1
  end.

(** The checks of scripts/4-mint-participation.js and
    scripts/5-mint-builders.js between loading the records and minting. *)
Inductive Gate : Type :=
| NoRecords
| ValidationErrors (shown : list jsstring) (more : nat)
| DuplicateWallets (count : nat)
| Proceed (validEntries : nat).

Definition mintGate (participants : list Participant) : Gate :=
  if (length participants =? 0)%nat then NoRecords
  else
    let validation := validateAllParticipants participants in
    if (0 <? length (rep_errors validation))%nat then
      ValidationErrors (take 10 (rep_errors validation))
        (length (rep_errors validation) - 10)
    else if (0 <? length (duplicates validation))%nat then
      DuplicateWallets (length (duplicates validation))
    else
      Proceed (match summary validation with
               | Some sm => validEntries sm
               | None => 0%nat
               end).

End Scripts.

Import Scripts.

(** ** The vocabulary of the statements

    The predicates the properties of Part II are stated with, and the
    sample data of their scenarios. *)

Definition has_wallet (p : Participant) : Prop := truthy (wallet p) = true.

(** The address a record is compared by: trimmed, then lower-cased. *)
Definition key_of (p : Participant) : jsstring := wallet_key (or_empty (wallet p)).

(** [p] carries a wallet and no record of [pre] carries the same address. *)
Definition first_with_key (pre : list Participant) (p : Participant) : Prop :=
  has_wallet p /\ forall q, q ∈ pre -> has_wallet q -> key_of q <> key_of p.

Definition keys_seen (l : list Participant) : gset (list ascii) :=
  list_to_set (key_of <$> filter has_wallet l).

(** An entry counts when its block time is there, is not zero, and lies
    in the closed window; the window is in milliseconds and the block time
    in seconds. *)
Definition counts (startDate endDate : Z) (sig : SigInfo) : Prop :=
  match blockTime sig with
  | Some t => t <> 0 /\ startDate <= t * 1000 <= endDate
  | None => False
  end.

Global Instance counts_dec startDate endDate sig :
  Decision (counts startDate endDate sig).
Proof. unfold counts. destruct (blockTime sig); apply _. Defined.

(** A result the classifier can give for [p]: its verdict on some trace. *)
Definition outcome_of (connection : Connection) (startDate endDate : Z)
    (pr : Participant * Activity) : Prop :=
  exists tr,
    snd pr = fst (checkWalletActivity connection (to_val (wallet (fst pr)))
                    startDate endDate tr).

Definition builders_of (prs : list (Participant * Activity)) : list Builder :=
  (fun pr => mkBuilder (fst pr) (transactionCount (snd pr)) (firstTx (snd pr)))
    <$> filter (fun pr => isBuilder (snd pr) = true) prs.

Definition nonBuilders_of (prs : list (Participant * Activity)) : list NonBuilder :=
  (fun pr => mkNonBuilder (fst pr) (error_or_null (act_error (snd pr))))
    <$> filter (fun pr => isBuilder (snd pr) <> true) prs.

(** The records of [ps] at the positions labelled [b]. *)
Definition labelled (b : bool) (labels : list bool) (ps : list Participant)
  : list Participant :=
  snd <$> filter (fun lp => fst lp = b) (zip labels ps).

(** The lookup of [p]'s wallet fails when it is made after [tr], and
    [tag] is the error verifyAllParticipants then records: the wallet
    fails the format check, or building the key or the query throws a
    message, which is kept unless it is empty. *)
Definition fails_with (connection : Connection) (p : Participant)
    (tr : list Event) (tag : option jsstring) : Prop :=
  (isValidSolanaAddress (to_val (wallet p)) = false
   /\ tag = Some ("Invalid address" : jsstring))
  \/ (isValidSolanaAddress (to_val (wallet p)) = true
      /\ exists message,
           (connection tr (string_of (to_val (wallet p))) = KeyThrows message
            \/ connection tr (string_of (to_val (wallet p))) = Throws message)
           /\ tag = error_or_null (Some message)).

Definition sample_address : jsstring := "7xKXtg2CW87d97TXJSDpbD5jBkheTqA83TZRuJosgAsU".

Definition sample_signature : jsstring := "5VERv8NMvzbJMEkV8xnrLkEaWRtSz9CosKDYjCJjBRnb".

(** 2025-01-01, 2025-12-31 and 2025-06-15, midnight UTC. *)
Definition tour_start : Z := 1735689600000.

Definition tour_end : Z := 1767139200000.

Definition mid_june : Z := 1749945600.

Definition one_transaction (t : Z) : Connection :=
  fun _ _ => Signatures [mkSig sample_signature (Some t)].

(** The window alone: a block time in the closed window, whatever its
    value. *)
Definition in_closed_window (startDate endDate : Z) (sig : SigInfo) : Prop :=
  match blockTime sig with
  | Some t => startDate <= t * 1000 <= endDate
  | None => False
  end.

Definition always_throws : Connection := fun _ _ => Throws "429 Too Many Requests".

(** A connection whose first query throws and which answers from then
    on; and a key constructor that refuses an address the pattern accepts. *)
Definition throws_once : Connection :=
  fun tr _ =>
    if existsb (fun e => match e with EvQuery _ _ => true | _ => false end) tr
    then Signatures [mkSig sample_signature (Some mid_june)]
    else Throws "429 Too Many Requests".

Definition unbuildable_address : jsstring := repeat "z"%char 44.

Definition refuses_key : Connection :=
  fun _ address =>
    if str_eqb address unbuildable_address
    then KeyThrows "Invalid public key input"
    else Signatures [mkSig sample_signature (Some mid_june)].

Definition alice : Participant :=
  mkParticipant (Some ("Alice" : jsstring)) (Some ("not-an-address" : jsstring))
    (Some ("alice@example.com" : jsstring)) (Some ("UNILAG" : jsstring)).

Definition bob : Participant :=
  mkParticipant (Some ("Bob" : jsstring)) (Some sample_address)
    (Some ("bob@example.com" : jsstring)) (Some ("UNILAG" : jsstring)).

(** A record without a wallet, and one whose wallet field is blank but
    not empty. *)
Definition walk_in : Participant :=
  mkParticipant (Some ("Dayo" : jsstring)) None None None.

Definition blank_wallet : Participant :=
  mkParticipant (Some ("Eze" : jsstring)) (Some ("  " : jsstring)) None None.

Definition zed : Participant :=
  mkParticipant (Some ("Zed" : jsstring)) (Some unbuildable_address)
    (Some ("zed@example.com" : jsstring)) (Some ("UNILAG" : jsstring)).

Definition without_email (p : Participant) : Participant :=
  mkParticipant (name p) (wallet p) None (campus p).

(** The message validateParticipant writes for an ill-formed email. *)
Definition email_warning (rowNum : nat) (e : jsstring) : jsstring :=
  row_prefix rowNum ++ ("Invalid email format" : jsstring) ++ " (email: "
    ++ quote :: e ++ quote :: ") - will skip email notification".

(** Two reports that agree on everything the wallet checks decide. *)
Definition same_errors (r r' : Report) : Prop :=
  rep_errors r = rep_errors r' /\ rep_valid r = rep_valid r'
  /\ rep_invalid r = rep_invalid r'.

Definition carol : Participant :=
  mkParticipant (Some ("Carol" : jsstring)) (Some sample_address)
    (Some ("carol-at-example" : jsstring)) (Some ("UNILAG" : jsstring)).

(** A wallet the inner loop looks at: one that no match has consumed. *)
Definition unconsumed (used : gset (list ascii)) (ne : jsstring * WalletEntry)
  : Prop :=
  w_wallet (snd ne) ∉ used.

Definition john_smith : WalletEntry :=
  mkWalletEntry "John Smith" (normalizeName (Some ("John Smith" : jsstring)))
    sample_address [] [].

Definition jon_smyth : Registration :=
  mkRegistration "Jon Smyth" (normalizeName (Some ("Jon Smyth" : jsstring)))
    "jon@example.com" ["UNILAG" : jsstring] 1 true.

Definition smith_table : list (jsstring * WalletEntry) :=
  [(w_normalizedName john_smith, john_smith)].

Definition fresh_state : MatchState := mkMatchState [] [] [] ∅.

(** Two registrations under different emails and the same name. *)
Definition jane_wallets : WalletTable :=
  loadWallets
    [ <[ ("Full Name" : jsstring) := ("Jane Doe" : jsstring) ]>
        (<[ ("Devnet Wallet Address" : jsstring) := sample_address ]> ∅) ].

Definition jane_registrations : list (jsstring * Registration) :=
  loadRegistrations
    [ ("UNILAG" : jsstring,
       [ <[ ("name" : jsstring) := ("Jane Doe" : jsstring) ]>
           (<[ ("email" : jsstring) := ("jane@example.com" : jsstring) ]> ∅);
         <[ ("name" : jsstring) := ("Jane Doe" : jsstring) ]>
           (<[ ("email" : jsstring) := ("jdoe@example.org" : jsstring) ]> ∅) ]) ].

(** A wallet sheet with two rows of one name and different addresses, and
    two registrations: one of that name and one a near miss of it. *)
Definition second_address : jsstring := "9xQeWvG816bUx9EPjHmaT23yvVM2ZWbrrpZb9PusVFin".

Definition smith_wallets : WalletTable :=
  loadWallets
    [ <[ ("Full Name" : jsstring) := ("John Smith" : jsstring) ]>
        (<[ ("Devnet Wallet Address" : jsstring) := sample_address ]> ∅);
      <[ ("Full Name" : jsstring) := ("John Smith" : jsstring) ]>
        (<[ ("Devnet Wallet Address" : jsstring) := second_address ]> ∅) ].

Definition smith_registrations : list (jsstring * Registration) :=
  loadRegistrations
    [ ("UNILAG" : jsstring,
       [ <[ ("name" : jsstring) := ("John Smith" : jsstring) ]>
           (<[ ("email" : jsstring) := ("john@example.com" : jsstring) ]> ∅);
         <[ ("name" : jsstring) := ("Jon Smyth" : jsstring) ]>
           (<[ ("email" : jsstring) := ("jon@example.com" : jsstring) ]> ∅) ]) ].

(** No whitespace at the front, respectively at the back. *)
Definition starts_clean (s : jsstring) : Prop :=
  match s with
  | c :: _ => is_ws c = false
  | [] => True
  end.

Definition ends_clean (s : jsstring) : Prop := starts_clean (rev s).

(** A value without quote characters and line breaks that equals its own
    trim. *)
Definition clean_value (v : jsstring) : Prop :=
  (quote ∉ v) /\ (newline ∉ v) /\ trim v = v.

(** A column name: a clean value without commas. *)
Definition clean_column (c : jsstring) : Prop := (comma ∉ c) /\ clean_value c.

(** The value toCSV writes for a column: the record's own value, the
    empty string when it has none, or the text of the Object.prototype
    member the column names. *)
Definition field (r : row) (col : jsstring) : jsstring := cell_text r col.

Definition row_values (columns : list jsstring) (r : row) : list jsstring :=
  field r <$> columns.

(** Every value the record has under the columns is clean. *)
Definition clean_row (columns : list jsstring) (r : row) : Prop :=
  Forall (fun col => clean_value (field r col)) columns.

Global Instance clean_value_dec v : Decision (clean_value v).
Proof. unfold clean_value. apply _. Defined.

Global Instance clean_column_dec c : Decision (clean_column c).
Proof. unfold clean_column. apply _. Defined.

Global Instance clean_row_dec columns r : Decision (clean_row columns r).
Proof. unfold clean_row. apply _. Defined.

Definition name_col : jsstring := "name".

Definition wallet_col : jsstring := "wallet".

Definition record (n w : jsstring) : row :=
  <[ name_col := n ]> (<[ wallet_col := w ]> ∅).

Definition two_records : list row :=
  [record "Doe, Jane" sample_address; record "Bob" []].

Definition quoted_name : jsstring :=
  "Jane " ++ quote :: "JD" ++ quote :: " Doe".

Definition names_of (rows : list row) : list (option jsstring) :=
  (fun r : row => r !! name_col) <$> rows.

(** A record that owns a property named __proto__, as JSON.parse builds
    it. *)
Definition proto_record (v : jsstring) : row := <[ proto_key := v ]> ∅.

(** ** Further vocabulary

    The edit distance by its recurrence on the first characters: nothing
    to pay between equal heads, one insertion, deletion or substitution
    otherwise. *)
Fixpoint edit_distance (a : jsstring) : jsstring -> nat :=
  fix inner (b : jsstring) : nat :=
    match a, b with
    | [], _ => length b
    | _, [] => length a
    | x :: a', y :: b' =>
        Nat.min (Nat.min (edit_distance a' b + 1) (inner b' + 1))
          (edit_distance a' b' + (if Ascii.eqb x y then 0 else 1))
    end.

(** The prefixes of [q ++ rest] from [q] on, shortest first. *)
Fixpoint prefixes_from (q rest : jsstring) : list jsstring :=
  match rest with
  | [] => [q]
  | d :: rest' => q :: prefixes_from (q ++ [d]) rest'
  end.

(** The two strings similarity compares. *)
Definition canonical (s : jsstring) : jsstring := trim (toLowerCase s).

(** A value with its quote characters taken out. *)
Definition unquote (v : jsstring) : jsstring :=
  filter (fun c => c <> quote) v.

(** No two spaces in a row. *)
Definition single_spaced (s : jsstring) : Prop :=
  forall i, s !! i = Some " "%char -> s !! S i <> Some " "%char.

(** The letters A-Z and a-z. *)
Definition is_ascii_letter (c : ascii) : bool :=
  in_range 65 90 c || in_range 97 122 c.

(** [spaced prev s]: no whitespace follows whitespace in [s], the
    character before [s] being whitespace when [prev] holds. *)
Fixpoint spaced (prev : bool) (s : jsstring) : Prop :=
  match s with
  | [] => True
  | c :: rest => (prev = true -> is_ws c = false) /\ spaced (is_ws c) rest
  end.

(** Neither the fields collected so far nor the current one hold a quote. *)
Definition scan_quote_free (st : scan) : Prop :=
  Forall (fun f : jsstring => quote ∉ f) (result st) /\ (quote ∉ current st).

(** The lines parseCSV works on. *)
Definition csv_lines (content : jsstring) : list jsstring :=
  split newline (trim content).

(** A file whose last line is one field short. *)
Definition roster_csv : jsstring :=
  "name,wallet" ++ newline :: "Jane,W1" ++ newline :: "Bob".

(** One insertion of the loop that fills a row of parseCSV. *)
Definition set_cell (values : list jsstring) (r : row) (ik : nat * jsstring) : row :=
  assign r (trim (snd ik)) (or_empty (trim <$> (values !! fst ik))).

(** The wallet of the record passes validateWalletAddress. *)
Definition wallet_ok (p : Participant) : Prop :=
  valid (validateWalletAddress (to_val (wallet p))) = true.

(** The email test of validateAllParticipants: present and not blank. *)
Definition has_email (p : Participant) : Prop :=
  truthy (email p) = true /\ trim (or_empty (email p)) <> [].

(** [p.name || 'Unknown'] *)
Definition display_name (p : Participant) : jsstring :=
  if truthy (name p) then or_empty (name p) else "Unknown".

(** The records that carry the address [k], with their positions. *)
Definition members (k : jsstring) (ps : list Participant) : list (nat * Participant) :=
  filter (fun ip => has_wallet (snd ip) /\ key_of (snd ip) = k)
    (imap (fun index p => (index, p)) ps).

(** The group findDuplicates builds for the address of [q]: the wallet as
    [q] writes it, the one-based rows and the names of the records that
    carry the address. *)
Definition group_of (ps : list Participant) (q : Participant) : Group :=
  mkGroup (or_empty (wallet q))
    ((fun ip => (fst ip + 1)%nat) <$> members (key_of q) ps)
    ((fun ip => display_name (snd ip)) <$> members (key_of q) ps).

(** The walletMap of findDuplicates after the [forEach]. *)
Definition wallet_groups (ps : list Participant) : list (jsstring * Group) :=
  fold_left group_step (imap (fun index p => (index, p)) ps) [].

(** What the pattern of validateEmail accepts: a local part, an at sign, a
    domain, a dot and an ending, the three parts non-empty and free of
    whitespace and at signs. *)
Definition well_formed_email (e : jsstring) : Prop :=
  exists a b c : jsstring,
    e = a ++ "@"%char :: b ++ "."%char :: c
    /\ a <> [] /\ b <> [] /\ c <> []
    /\ Forall (fun x => not_space_at x = true) (a ++ b ++ c).

(** One record after cleanParticipantData. *)
Definition clean_record (p : Participant) : Participant :=
  mkParticipant (clean_field (name p)) (clean_field (wallet p))
    (clean_field (email p)) (clean_field (campus p)).

Definition whitespace_error : jsstring :=
  "Wallet address has leading/trailing whitespace".

(** The data a run of the validation script works on and, with [--fix],
    saves. *)
Definition fixed_data (shouldFix : bool) (participants : list Participant)
  : list Participant :=
  if shouldFix then removeDuplicates (cleanParticipantData participants)
  else participants.

(** Data the scripts let through: some records, every wallet well formed,
    no address twice. *)
Definition mintable (ps : list Participant) : Prop :=
  ps <> [] /\ Forall wallet_ok ps /\ NoDup (key_of <$> ps).

(** The wallet passes isValidSolanaAddress. *)
Definition accepted (w : option jsstring) : Prop :=
  isValidSolanaAddress (to_val w) = true.

(** The events of one kind in a trace. *)
Definition query_of (e : Event) : option (jsstring * nat) :=
  match e with EvQuery address limit => Some (address, limit) | _ => None end.

(** The query verifyAllParticipants sends for a participant. *)
Definition query_for (p : Participant) : jsstring * nat :=
  (string_of (to_val (wallet p)), 100%nat).





Definition mint_of (e : MintEvent) : option jsstring :=
  match e with MvMint recipient => Some recipient | _ => None end.

Definition mint_delay_of (e : MintEvent) : option nat :=
  match e with MvDelay ms => Some ms | _ => None end.

Definition mint_progress_of (e : MintEvent) : option (nat * nat) :=
  match e with MvProgress current total _ => Some (current, total) | _ => None end.

(** The wallet of a recipient passes isValidSolanaAddress. *)
Definition accepted_value (w : property) : Prop :=
  isValidSolanaAddress (prop_val w) = true.

(** The message mintCompressedNFT throws for a wallet it does not accept. *)
Definition invalid_wallet_message (w : property) : jsstring :=
  "Invalid wallet address: " ++ template_of (prop_val w).

(** The address a wallet is minted to. *)
Definition address_of (w : property) : jsstring := string_of (prop_val w).

(** Building a transaction never throws. *)
Definition builds_every_transaction (minter : Minter) : Prop :=
  forall tr address message, minter tr address <> BuildThrows message.

(** A chain that confirms every mint, and a clock that stands still. *)
Definition always_mints : Minter := fun _ _ => Minted sample_signature.

Definition still_clock : Clock := fun _ => "2025-06-15T00:00:00.000Z".

(** A chain that confirms every mint, behind a key constructor that
    refuses one address the pattern accepts. *)
Definition refuses_recipient : Minter :=
  fun _ address =>
    if str_eqb address unbuildable_address
    then BuildThrows "Invalid public key"
    else Minted sample_signature.

(** The wallet of [r] is among the wallets of the earlier successes. *)
Definition already_minted {R : Type} (walletOf : R -> property)
    (previousSuccessful : list (Success R)) (r : R) : Prop :=
  walletOf r ∈ (fun s => walletOf (ok_recipient s)) <$> previousSuccessful.

Global Instance already_minted_dec {R : Type} (walletOf : R -> property)
    (previousSuccessful : list (Success R)) (r : R) :
  Decision (already_minted walletOf previousSuccessful r).
Proof. unfold already_minted. apply _. Defined.

(** What mintToMany may report for a success and for a failure. *)
Definition success_ok {R : Type} (walletOf : R -> property) (minter : Minter)
    (s : Success R) : Prop :=
  accepted_value (walletOf (ok_recipient s))
  /\ exists tr, minter tr (address_of (walletOf (ok_recipient s)))
                = Minted (ok_signature s).

Definition failure_ok {R : Type} (walletOf : R -> property) (minter : Minter)
    (f : Failure R) : Prop :=
  (accepted_value (walletOf (ko_recipient f))
   /\ exists tr,
        minter tr (address_of (walletOf (ko_recipient f)))
        = BuildThrows (ko_error f)
        \/ minter tr (address_of (walletOf (ko_recipient f)))
           = MintThrows (ko_error f))
  \/ (~ accepted_value (walletOf (ko_recipient f))
      /\ ko_error f = invalid_wallet_message (walletOf (ko_recipient f))).

(** The wallet a recipient carries is the one of the validated record; a
    record without a wallet stands for an absent or a null one. *)
Definition wallet_reads (w : property) (o : option jsstring) : Prop :=
  match o with
  | Some s => w = PString s
  | None => w = PUndefined \/ w = PNull
  end.

(** The confidence a match may carry: 1 for an exact match, between the
    fuzzy threshold and 1 for a fuzzy one. *)
Definition confidence_ok (m : Matched) : Prop :=
  match m_matchMethod m with
  | exact => m_confidence m = 1%Q
  | fuzzy => (FUZZY_THRESHOLD <= m_confidence m)%Q /\ (m_confidence m <= 1)%Q
  end.

(** The confidence of a review candidate: in the review band. *)
Definition review_band (rv : ReviewCandidate) : Prop :=
  (REVIEW_THRESHOLD <= rv_confidence rv)%Q /\ (rv_confidence rv < FUZZY_THRESHOLD)%Q.

(** The email a Luma row is filed under. *)
Definition luma_email (r : row) : jsstring :=
  toLowerCase (trim (first_truthy r ["email" : jsstring; "Email" : jsstring])).

(** What holds of every registration in the table. *)
Definition registration_ok (er : jsstring * Registration) : Prop :=
  r_email (snd er) = fst er /\ fst er <> []
  /\ (1 <= r_daysAttended (snd er))%nat
  /\ r_campuses (snd er) <> [] /\ NoDup (r_campuses (snd er)).

(** The registrations table with the number of rows it was built from. *)
Definition registrations_inv (regs : list (jsstring * Registration)) (n : nat)
  : Prop :=
  NoDup (fst <$> regs) /\ Forall registration_ok regs
  /\ sum_list_with (fun er => r_daysAttended (snd er)) regs = n.

(** The wallet table: names are filed once, under their first entry. *)
Definition wallets_inv (t : WalletTable) : Prop :=
  NoDup (fst <$> walletsByName t)
  /\ (forall k, map_get (walletsByName t) k
                = head (filter (fun e => w_normalizedName e = k) (walletData t)))
  /\ Forall (fun ne => w_normalizedName (snd ne) = fst ne
                       /\ snd ne ∈ walletData t) (walletsByName t).

(* ================================================================== *)
(** * Part II: properties                                              *)
(* ================================================================== *)

(** ** Patterns decide their language *)

Section RegexFacts.

Local Hint Constructors lang : core.

Lemma lang_void_inv s : lang Void s -> False.
Proof. inversion 1. Qed.

Lemma lang_eps_inv s : lang Eps s -> s = [].
Proof. by inversion 1. Qed.

Lemma lang_class_inv p s : lang (Class p) s -> exists c, s = [c] /\ p c = true.
Proof. inversion 1; subst; eauto. Qed.

Lemma lang_seq_inv r1 r2 s :
  lang (Seq r1 r2) s -> exists s1 s2, s = s1 ++ s2 /\ lang r1 s1 /\ lang r2 s2.
Proof. inversion 1; subst; eauto. Qed.

Lemma lang_alt_inv r1 r2 s : lang (Alt r1 r2) s -> lang r1 s \/ lang r2 s.
Proof. inversion 1; subst; auto. Qed.

Lemma lang_cons c s1 s2 r1 r2 :
  lang r1 (c :: s1) -> lang r2 s2 -> lang (Seq r1 r2) (c :: s1 ++ s2).
Proof. intros H1 H2. change (c :: s1 ++ s2) with ((c :: s1) ++ s2). auto. Qed.

Lemma lang_star_step c s1 s2 r :
  lang r (c :: s1) -> lang (Star r) s2 -> lang (Star r) (c :: s1 ++ s2).
Proof. intros H1 H2. change (c :: s1 ++ s2) with ((c :: s1) ++ s2). auto. Qed.

Lemma nullable_lang r : nullable r = true <-> lang r [].
Proof.
  induction r as [| |p|r1 IH1 r2 IH2|r1 IH1 r2 IH2|r IH]; simpl.
  - split; [discriminate | intros H; destruct (lang_void_inv _ H)].
  - split; auto.
  - split; [discriminate |].
    intros H. apply lang_class_inv in H as (c & E & _). discriminate.
  - rewrite andb_true_iff, IH1, IH2. split.
    + intros [H1 H2]. change (@nil ascii) with (@nil ascii ++ []). auto.
    + intros H. apply lang_seq_inv in H as (s1 & s2 & E & H1 & H2).
      symmetry in E. apply app_eq_nil in E as [-> ->]. auto.
  - rewrite orb_true_iff, IH1, IH2. split.
    + intros [H|H]; auto.
    + apply lang_alt_inv.
  - split; auto.
Qed.

Lemma lang_star_uncons r c s :
  lang (Star r) (c :: s) ->
  exists s1 s2, s = s1 ++ s2 /\ lang r (c :: s1) /\ lang (Star r) s2.
Proof.
  intros H. remember (Star r) as q eqn:Eq. remember (c :: s) as w eqn:Ew.
  revert s Ew.
  induction H as [| | | | | |q' s1 s2 H1 _ H2 IH2]; intros t Ew;
    try discriminate.
  injection Eq as ->.
  destruct s1 as [|d s1'].
  - simpl in Ew. apply IH2; auto.
  - simpl in Ew. injection Ew as -> <-. eauto.
Qed.

Lemma deriv_lang c r : forall s, lang (deriv c r) s <-> lang r (c :: s).
Proof.
  induction r as [| |p|r1 IH1 r2 IH2|r1 IH1 r2 IH2|r IH]; intros s; simpl.
  - split; intros H; destruct (lang_void_inv _ H).
  - split; intros H; [destruct (lang_void_inv _ H) |].
    apply lang_eps_inv in H. discriminate.
  - destruct (p c) eqn:Hp; split; intros H.
    + apply lang_eps_inv in H as ->. auto.
    + apply lang_class_inv in H as (d & E & _). injection E as -> ->. auto.
    + destruct (lang_void_inv _ H).
    + apply lang_class_inv in H as (d & E & Hd). injection E as -> ->. congruence.
  - assert (Hinv : lang (Seq r1 r2) (c :: s) ->
                   (exists s1 s2, s = s1 ++ s2 /\ lang (deriv c r1) s1 /\ lang r2 s2)
                   \/ (lang r1 [] /\ lang (deriv c r2) s)).
    { intros H. apply lang_seq_inv in H as (s1 & s2 & E & H1 & H2).
      destruct s1 as [|d s1'].
      - right. simpl in E. subst s2. split; [auto | by apply IH2].
      - left. simpl in E. injection E as -> ->.
        exists s1', s2. split; [auto | split; [by apply IH1 | auto]]. }
    destruct (nullable r1) eqn:Hn; split; intros H.
    + apply lang_alt_inv in H as [H|H].
      * apply lang_seq_inv in H as (s1 & s2 & -> & H1 & H2).
        apply lang_cons; [by apply IH1 | auto].
      * apply IH2 in H. apply nullable_lang in Hn.
        change (c :: s) with ([] ++ c :: s). auto.
    + destruct (Hinv H) as [(s1 & s2 & -> & H1 & H2)|[_ H2]]; auto.
    + apply lang_seq_inv in H as (s1 & s2 & -> & H1 & H2).
      apply lang_cons; [by apply IH1 | auto].
    + destruct (Hinv H) as [(s1 & s2 & -> & H1 & H2)|[H1 _]]; auto.
      apply nullable_lang in H1. congruence.
  - split; intros H; apply lang_alt_inv in H as [H|H].
    + apply lang_alt_l. by apply IH1.
    + apply lang_alt_r. by apply IH2.
    + apply lang_alt_l. by apply IH1.
    + apply lang_alt_r. by apply IH2.
  - split; intros H.
    + apply lang_seq_inv in H as (s1 & s2 & -> & H1 & H2).
      apply lang_star_step; [by apply IH | auto].
    + apply lang_star_uncons in H as (s1 & s2 & -> & H1 & H2).
      apply IH in H1. auto.
Qed.

Lemma test_lang r s : test r s = true <-> lang r s.
Proof.
  revert r. induction s as [|c s IH]; intros r; simpl.
  - apply nullable_lang.
  - rewrite IH. apply deriv_lang.
Qed.

Lemma lang_star_class p s :
  lang (Star (Class p)) s <-> Forall (fun c => p c = true) s.
Proof.
  split.
  - intros H. remember (Star (Class p)) as q eqn:Eq.
    induction H as [| | | | | |q' s1 s2 H1 _ H2 IH2]; try discriminate.
    + constructor.
    + injection Eq as ->. apply lang_class_inv in H1 as (c & -> & Hc).
      constructor; auto.
  - induction 1 as [|c s Hc _ IH]; [auto |].
    change (c :: s) with ([c] ++ s). auto.
Qed.

Lemma lang_class_cons p c s r :
  p c = true -> lang r s -> lang (Seq (Class p) r) (c :: s).
Proof. intros Hc H. change (c :: s) with ([c] ++ s). auto. Qed.

Lemma lang_class_cons_inv p r w :
  lang (Seq (Class p) r) w -> exists c s, w = c :: s /\ p c = true /\ lang r s.
Proof.
  intros H. apply lang_seq_inv in H as (s1 & s2 & -> & H1 & H2).
  apply lang_class_inv in H1 as (c & -> & Hc). eauto.
Qed.

Lemma lang_plus_class p s :
  lang (Plus (Class p)) s <-> s <> [] /\ Forall (fun c => p c = true) s.
Proof.
  unfold Plus. split.
  - intros H. apply lang_class_cons_inv in H as (c & s' & -> & Hc & H).
    apply lang_star_class in H. split; [discriminate | constructor; auto].
  - intros [Hne Hall]. destruct s as [|c s]; [congruence |].
    inversion Hall; subst. apply lang_class_cons; [auto |].
    by apply lang_star_class.
Qed.

Lemma lang_upto_class p extra s :
  lang (Upto (Class p) extra) s <->
  (length s <= extra)%nat /\ Forall (fun c => p c = true) s.
Proof.
  revert s. induction extra as [|k IH]; intros s; simpl.
  - split.
    + intros H. apply lang_eps_inv in H as ->. split; [simpl; lia | constructor].
    + intros [Hlen _]. destruct s; [auto | simpl in Hlen; lia].
  - split.
    + intros H. apply lang_alt_inv in H as [H|H].
      * apply lang_eps_inv in H as ->. split; [simpl; lia | constructor].
      * apply lang_class_cons_inv in H as (c & s' & -> & Hc & H).
        apply IH in H as [Hlen Hall].
        split; [simpl; lia | constructor; auto].
    + intros [Hlen Hall]. destruct s as [|c s]; [auto |].
      inversion Hall; subst. apply lang_alt_r.
      apply lang_class_cons; [auto |].
      apply IH. simpl in Hlen. split; [lia | auto].
Qed.

Lemma lang_repeat_class p lo extra s :
  lang (Repeat (Class p) lo extra) s <->
  (lo <= length s <= lo + extra)%nat /\ Forall (fun c => p c = true) s.
Proof.
  revert s. induction lo as [|k IH]; intros s; simpl.
  - rewrite lang_upto_class. split; intros [H1 H2]; split; auto; lia.
  - split.
    + intros H. apply lang_class_cons_inv in H as (c & s' & -> & Hc & H).
      apply IH in H as [Hlen Hall].
      split; [simpl; lia | constructor; auto].
    + intros [Hlen Hall]. destruct s as [|c s]; [simpl in Hlen; lia |].
      inversion Hall; subst. apply lang_class_cons; [auto |].
      apply IH. simpl in Hlen. split; [lia | auto].
Qed.

End RegexFacts.

(** ** Strings *)

Section StringFacts.

Lemma str_eqb_eq (a b : jsstring) : str_eqb a b = true <-> a = b.
Proof. unfold str_eqb. by rewrite bool_decide_eq_true. Qed.

Lemma str_eqb_neq (a b : jsstring) : str_eqb a b = false <-> a <> b.
Proof. unfold str_eqb. by rewrite bool_decide_eq_false. Qed.

Lemma str_eqb_refl (a : jsstring) : str_eqb a a = true.
Proof. by apply str_eqb_eq. Qed.

Lemma trimStart_id c (s : jsstring) : is_ws c = false -> trimStart (c :: s) = c :: s.
Proof. intros H. simpl. by rewrite H. Qed.

Lemma trimStart_no_ws (s : jsstring) :
  Forall (fun c => is_ws c = false) s -> trimStart s = s.
Proof. destruct 1 as [|c s Hc _]; [done | by apply trimStart_id]. Qed.

Lemma trim_no_ws (s : jsstring) :
  Forall (fun c => is_ws c = false) s -> trim s = s.
Proof.
  intros H. unfold trim, trimEnd. rewrite (trimStart_no_ws s H).
  rewrite trimStart_no_ws; [apply rev_involutive |].
  by apply List.Forall_rev.
Qed.

Lemma base58_not_ws c : base58_char c = true -> is_ws c = false.
Proof.
  destruct c as [[] [] [] [] [] [] [] []]; vm_compute; congruence.
Qed.

End StringFacts.

(** ** The address check (src/validation.js) *)

Section AddressFacts.

Lemma base58Regex_test (s : jsstring) :
  test base58Regex s = true <->
  s <> [] /\ Forall (fun c => base58_char c = true) s.
Proof. unfold base58Regex. rewrite test_lang. apply lang_plus_class. Qed.

Lemma solanaRegex_test (s : jsstring) :
  test solanaRegex s = true <->
  (32 <= length s <= 44)%nat /\ Forall (fun c => base58_char c = true) s.
Proof.
  unfold solanaRegex. rewrite test_lang, lang_repeat_class.
  split; intros [H1 H2]; split; auto; lia.
Qed.

Lemma base58_trim (s : jsstring) :
  Forall (fun c => base58_char c = true) s -> trim s = s.
Proof.
  intros H. apply trim_no_ws. eapply Forall_impl; [exact H |].
  intros c. apply base58_not_ws.
Qed.

Lemma validateWalletAddress_non_string (p : jsval) :
  is_string p = false -> valid (validateWalletAddress p) = false.
Proof.
  intros H. unfold validateWalletAddress. by rewrite H, orb_true_r.
Qed.

Lemma validateWalletAddress_str (s : jsstring) :
  s <> [] ->
  validateWalletAddress (VStr s) =
    if negb (str_eqb (trim s) s) then
      fail "Wallet address has leading/trailing whitespace"
    else if (length s <? 32)%nat || (44 <? length s)%nat then
      fail ("Invalid length: " ++ show_nat (length s) ++ " chars (expected 32-44)")
    else if negb (test base58Regex s) then
      fail "Contains invalid characters (not valid base58)"
    else ok.
Proof. destruct s; [congruence | reflexivity]. Qed.

Lemma validateWalletAddress_spec (p : jsval) :
  valid (validateWalletAddress p) = true <->
  exists s : jsstring,
    p = VStr s /\ (32 <= length s <= 44)%nat
    /\ Forall (fun c => base58_char c = true) s /\ trim s = s.
Proof.
  destruct p as [| |b|n|s|];
    try (rewrite validateWalletAddress_non_string by done;
         split; [discriminate | by intros (s & E & _)]).
  destruct (decide (s = [])) as [->|Hne].
  { split; [discriminate |].
    intros (s0 & E & Hlen & _). injection E as <-. simpl in Hlen. lia. }
  rewrite validateWalletAddress_str by done.
  destruct (str_eqb (trim s) s) eqn:Htrim; cbn [negb].
  2:{ split; [discriminate |].
      intros (s0 & E & _ & _ & Ht). injection E as <-.
      apply str_eqb_neq in Htrim. contradiction. }
  apply str_eqb_eq in Htrim.
  destruct ((length s <? 32)%nat || (44 <? length s)%nat) eqn:Hlen.
  { split; [discriminate |].
    intros (s0 & E & Hl & _). injection E as <-.
    apply orb_true_iff in Hlen as [H|H]; apply Nat.ltb_lt in H; lia. }
  apply orb_false_iff in Hlen as [H32 H44].
  apply Nat.ltb_ge in H32, H44.
  destruct (test base58Regex s) eqn:Hre; cbn [negb].
  - apply base58Regex_test in Hre as [_ Hall].
    split; [| by intros _]. intros _. exists s. auto.
  - split; [discriminate |].
    intros (s0 & E & _ & Hall & _). injection E as <-.
    assert (test base58Regex s = true) as Habs; [| congruence].
    by apply base58Regex_test.
Qed.

(** C5: [validateWalletAddress(p).valid] holds exactly when [p] is a string
    of 32 to 44 characters, all of the base-58 alphabet, that equals its own
    trim; every value that is not a string, [null] and [undefined] included,
    is invalid. *)
Theorem validateWalletAddress_valid_iff (p : jsval) :
  valid (validateWalletAddress p) = true <->
  exists s : jsstring,
    p = VStr s /\ (32 <= length s <= 44)%nat
    /\ Forall (fun c => base58_char c = true) s /\ trim s = s.
Proof. apply validateWalletAddress_spec. Qed.

(** The classifier's check of src/utils.js accepts the same strings. *)
Lemma isValidSolanaAddress_iff (p : jsval) :
  isValidSolanaAddress p = true <->
  exists s : jsstring,
    p = VStr s /\ (32 <= length s <= 44)%nat
    /\ Forall (fun c => base58_char c = true) s.
Proof.
  unfold isValidSolanaAddress.
  destruct p as [| |b|n|s|];
    try (simpl is_string; rewrite orb_true_r;
         split; [discriminate | by intros (s & E & _)]).
  destruct (decide (s = [])) as [->|Hne].
  { split; [discriminate |].
    intros (s0 & E & Hlen & _). injection E as <-. simpl in Hlen. lia. }
  replace (falsy (VStr s) || negb (is_string (VStr s))) with false
    by (by destruct s).
  cbn [string_of]. rewrite solanaRegex_test.
  split.
  - intros [H1 H2]. exists s. auto.
  - intros (s0 & E & H1 & H2). by injection E as <-.
Qed.

Lemma address_checks_agree (p : jsval) :
  isValidSolanaAddress p = valid (validateWalletAddress p).
Proof.
  apply eq_true_iff_eq.
  rewrite isValidSolanaAddress_iff, validateWalletAddress_spec.
  split.
  - intros (s & E & H1 & H2). exists s. auto using base58_trim.
  - intros (s & E & H1 & H2 & _). eauto.
Qed.

End AddressFacts.

(** ** The name normalizer *)

Section NormalizeFacts.

Lemma collapse_ws_spaces in_run (s : jsstring) c :
  c ∈ collapse_ws in_run s -> is_ws c = true -> c = " "%char.
Proof.
  revert in_run. induction s as [|d s IH]; intros in_run; simpl.
  - by intros ?%elem_of_nil.
  - destruct (is_ws d) eqn:Hd.
    + destruct in_run.
      * apply IH.
      * intros [->|H]%elem_of_cons Hc; [done | by eapply IH].
    + intros [->|H]%elem_of_cons Hc; [congruence | by eapply IH].
Qed.

(** What does hold of every result: lower-case Latin letters and spaces
    only, and the empty string for an absent or empty name. *)
Lemma normalizeName_alphabet (name : option jsstring) c :
  c ∈ normalizeName name -> is_lower_az c = true \/ c = " "%char.
Proof.
  unfold normalizeName. destruct (truthy name); simpl.
  - unfold remove_non_alpha. rewrite list_elem_of_filter.
    intros [Hc Hin]. apply Is_true_true, orb_true_iff in Hc as [Hc|Hc]; [by left |].
    right. by eapply collapse_ws_spaces.
  - by intros ?%elem_of_nil.
Qed.

Lemma normalizeName_absent : normalizeName None = [] /\ normalizeName (Some []) = [].
Proof. done. Qed.

(** C4: the normalizer collapses whitespace before it removes the other
    characters, so a digit between two spaces leaves two consecutive
    spaces, and a digit in front of a space leaves a leading space. *)
Theorem normalizeName_keeps_uncollapsed_space :
  normalizeName (Some ("a 1 b" : jsstring)) = ("a  b" : jsstring)
  /\ normalizeName (Some ("1 a" : jsstring)) = (" a" : jsstring).
Proof. split; vm_compute; reflexivity. Qed.

End NormalizeFacts.

(** ** removeDuplicates *)

Section DuplicateFacts.

Lemma elem_of_keys_seen k l :
  k ∈ keys_seen l <-> exists q, q ∈ l /\ has_wallet q /\ key_of q = k.
Proof.
  unfold keys_seen. rewrite elem_of_list_to_set, list_elem_of_fmap.
  setoid_rewrite list_elem_of_filter. split.
  - intros (q & -> & Hw & Hin). eauto.
  - intros (q & Hin & Hw & <-). eauto.
Qed.

Lemma remove_dups_cons seen p rest :
  remove_dups seen (p :: rest) =
    if decide (has_wallet p /\ key_of p ∉ seen)
    then p :: remove_dups ({[ key_of p ]} ∪ seen) rest
    else remove_dups seen rest.
Proof.
  cbn [remove_dups].
  destruct (decide (has_wallet p /\ key_of p ∉ seen)) as [[Hp Hk]|Hn].
  - unfold has_wallet in Hp. rewrite Hp. cbn [negb].
    by rewrite bool_decide_eq_false_2 by exact Hk.
  - destruct (truthy (wallet p)) eqn:Ht; cbn [negb]; [| done].
    rewrite bool_decide_eq_true_2; [done |].
    destruct (decide (key_of p ∈ seen)); [done |].
    exfalso. apply Hn. by split.
Qed.

Lemma remove_dups_app seen l1 l2 :
  remove_dups seen (l1 ++ l2) =
    remove_dups seen l1 ++ remove_dups (keys_seen l1 ∪ seen) l2.
Proof.
  revert seen. induction l1 as [|p l1 IH]; intros seen.
  - simpl. f_equal. unfold keys_seen. simpl. set_solver.
  - rewrite <- app_comm_cons, !remove_dups_cons.
    assert (Hk : forall S : gset (list ascii),
               has_wallet p -> keys_seen (p :: l1) ∪ S = keys_seen l1 ∪ ({[ key_of p ]} ∪ S)).
    { intros S Hp. unfold keys_seen. rewrite filter_cons_True by done.
      simpl. set_solver. }
    case_decide as Hd.
    + rewrite IH. cbn [app]. by rewrite (Hk seen) by tauto.
    + rewrite IH. destruct (decide (has_wallet p)) as [Hp|Hp].
      * rewrite (Hk seen) by done.
        assert (key_of p ∈ seen) by (destruct (decide (key_of p ∈ seen)); tauto).
        by replace ({[ key_of p ]} ∪ seen) with seen by set_solver.
      * unfold keys_seen. by rewrite filter_cons_False.
Qed.

Lemma remove_dups_sublist seen l : remove_dups seen l `sublist_of` l.
Proof.
  revert seen. induction l as [|p l IH]; intros seen.
  - constructor.
  - rewrite remove_dups_cons. case_decide.
    + apply sublist_skip, IH.
    + apply sublist_cons, IH.
Qed.

Lemma remove_dups_has_wallet seen l p : p ∈ remove_dups seen l -> has_wallet p.
Proof.
  revert seen. induction l as [|q l IH]; intros seen.
  - by intros ?%elem_of_nil.
  - rewrite remove_dups_cons. case_decide as Hd.
    + intros [->|H]%elem_of_cons; [tauto | by eapply IH].
    + apply IH.
Qed.

Lemma remove_dups_fresh seen l p : p ∈ remove_dups seen l -> key_of p ∉ seen.
Proof.
  revert seen. induction l as [|q l IH]; intros seen.
  - by intros ?%elem_of_nil.
  - rewrite remove_dups_cons. case_decide as Hd.
    + intros [->|H]%elem_of_cons; [tauto |]. apply IH in H. set_solver.
    + apply IH.
Qed.

Lemma remove_dups_NoDup seen l : NoDup (key_of <$> remove_dups seen l).
Proof.
  revert seen. induction l as [|q l IH]; intros seen.
  - constructor.
  - rewrite remove_dups_cons. case_decide as Hd; [| apply IH].
    rewrite fmap_cons. apply NoDup_cons. split; [| apply IH].
    intros (r & Hr & Hin)%list_elem_of_fmap.
    apply remove_dups_fresh in Hin. set_solver.
Qed.

Lemma remove_dups_covers seen l p :
  p ∈ l -> has_wallet p ->
  key_of p ∈ seen \/ key_of p ∈ key_of <$> remove_dups seen l.
Proof.
  revert seen. induction l as [|q l IH]; intros seen.
  - by intros ?%elem_of_nil.
  - rewrite remove_dups_cons. intros [->|Hin]%elem_of_cons Hp.
    + case_decide as Hd.
      * right. rewrite fmap_cons. apply elem_of_cons. by left.
      * left. destruct (decide (key_of q ∈ seen)); tauto.
    + case_decide as Hd.
      * destruct (IH ({[ key_of q ]} ∪ seen) Hin Hp) as [H|H].
        -- apply elem_of_union in H as [H|H]; [| by left].
           right. rewrite fmap_cons. apply elem_of_cons. left.
           by apply elem_of_singleton in H.
        -- right. rewrite fmap_cons. apply elem_of_cons. by right.
      * by apply IH.
Qed.

(** C9: removeDuplicates only deletes records and keeps the order; every
    record it keeps has a non-empty wallet field, so records without one are
    dropped; no two kept records agree on the trimmed, lower-cased address,
    and every such address of the input is still there; and at each
    position of the input the record is kept exactly when it has a wallet
    that no earlier record has, up to trimming and case. *)
Theorem removeDuplicates_first_occurrences (ps : list Participant) :
  removeDuplicates ps `sublist_of` ps
  /\ (forall p, p ∈ removeDuplicates ps -> has_wallet p)
  /\ NoDup (key_of <$> removeDuplicates ps)
  /\ (forall p, p ∈ ps -> has_wallet p ->
        key_of p ∈ key_of <$> removeDuplicates ps)
  /\ (forall pre p post, ps = pre ++ p :: post ->
        exists post',
          post' `sublist_of` post
          /\ (first_with_key pre p ->
                removeDuplicates ps = removeDuplicates pre ++ p :: post')
          /\ (~ first_with_key pre p ->
                removeDuplicates ps = removeDuplicates pre ++ post')).
Proof.
  unfold removeDuplicates. repeat split.
  - apply remove_dups_sublist.
  - apply remove_dups_has_wallet.
  - apply remove_dups_NoDup.
  - intros p Hin Hp.
    destruct (remove_dups_covers ∅ ps p Hin Hp) as [H|H]; [set_solver | done].
  - intros pre p post ->. rewrite remove_dups_app, remove_dups_cons.
    assert (Hfirst : first_with_key pre p <->
                     has_wallet p /\ key_of p ∉ keys_seen pre ∪ ∅).
    { unfold first_with_key. rewrite elem_of_union, elem_of_keys_seen.
      split.
      - intros [Hp Hq]. split; [done |].
        intros [(q & Hin & Hw & Hk)|H]; [by apply (Hq q) | set_solver].
      - intros [Hp Hn]. split; [done |].
        intros q Hin Hw Hk. apply Hn. left. eauto. }
    case_decide as Hd.
    + eexists. split; [apply remove_dups_sublist |].
      split; [done | intros Hn; by apply Hfirst in Hd].
    + eexists. split; [apply remove_dups_sublist |].
      split; [intros Hf; by apply Hfirst in Hf | done].
Qed.

(** A later copy and a record without a wallet go; a wallet field of
    blanks is not empty and stays, under the empty key. *)
Lemma removeDuplicates_scenario :
  removeDuplicates [bob; walk_in; blank_wallet; bob] = [bob; blank_wallet].
Proof. vm_compute. reflexivity. Qed.

End DuplicateFacts.

(** ** The activity classifier *)

Section VerifyFacts.

Variable connection : Connection.
Variables startDate endDate : Z.

Lemma list_filter_bool {A : Type} (f : A -> bool) (l : list A) :
  List.filter f l = filter (fun x => f x = true) l.
Proof.
  induction l as [|x l IH]; [done |]. simpl.
  destruct (f x) eqn:Hx.
  - rewrite filter_cons_True by done. by f_equal.
  - rewrite filter_cons_False by congruence. done.
Qed.

Lemma in_window_counts sig : in_window startDate endDate sig = true <-> counts startDate endDate sig.
Proof.
  unfold in_window, counts. destruct (blockTime sig) as [t|]; [| done].
  destruct (Z.eqb_spec t 0) as [->|Hne].
  - split; [done | by intros [? _]].
  - rewrite andb_true_iff, !Z.leb_le. tauto.
Qed.

Lemma relevant_counts sigs :
  List.filter (in_window startDate endDate) sigs = filter (counts startDate endDate) sigs.
Proof.
  rewrite list_filter_bool. induction sigs as [|sig sigs IH]; [done |].
  destruct (decide (counts startDate endDate sig)) as [H|H].
  - rewrite !filter_cons_True; [by f_equal | done | by apply in_window_counts].
  - rewrite !filter_cons_False; [done | done | by rewrite in_window_counts].
Qed.

Lemma checkWalletActivity_invalid v tr :
  isValidSolanaAddress v = false ->
  checkWalletActivity connection v startDate endDate tr =
    (mkActivity false 0 None (Some ("Invalid address" : jsstring)), tr).
Proof. intros H. unfold checkWalletActivity. by rewrite H. Qed.

Lemma checkWalletActivity_query v tr :
  isValidSolanaAddress v = true ->
  checkWalletActivity connection v startDate endDate tr =
    (match connection tr (string_of v) with
     | KeyThrows message | Throws message =>
         mkActivity false 0 None (Some message)
     | Nothing | Signatures [] => mkActivity false 0 None None
     | Signatures signatures =>
         let relevantTxs := filter (counts startDate endDate) signatures in
         mkActivity (0 <? length relevantTxs)%nat (length relevantTxs)
           (signature <$> last relevantTxs) None
     end,
     match connection tr (string_of v) with
     | KeyThrows _ => tr
     | _ => tr ++ [EvQuery (string_of v) 100]
     end).
Proof.
  intros H. unfold checkWalletActivity. rewrite H. cbn [negb].
  unfold bind, getSignaturesForAddress, ret.
  destruct (connection tr (string_of v)) as [msg|msg| |[|sig sigs]]; try done.
  cbv zeta. by rewrite relevant_counts.
Qed.

(** The loop classifies every participant it is given, in order, each by
    the verdict of checkWalletActivity at the moment it is reached. *)
Lemma verify_loop_spec onProgress total rest :
  forall i acc tr,
  exists prs : list (Participant * Activity),
    fst <$> prs = rest
    /\ Forall (outcome_of connection startDate endDate) prs
    /\ fst (verify_loop connection startDate endDate onProgress total i rest acc tr)
       = mkVerified (builders acc ++ builders_of prs)
                    (nonBuilders acc ++ nonBuilders_of prs).
Proof.
  induction rest as [|p rest IH]; intros i acc tr.
  - exists []. repeat split; [constructor |].
    cbn. rewrite !app_nil_r. by destruct acc.
  - cbn [verify_loop]. unfold bind at 1. cbv beta.
    destruct (checkWalletActivity connection (to_val (wallet p)) startDate endDate tr)
      as [result tr1] eqn:Hres.
    unfold bind at 1. cbv beta.
    destruct ((if onProgress
               then emit (EvProgress (i + 1) total (isBuilder result))
               else ret tt) tr1) as [u1 tr2].
    unfold bind at 1. cbv beta.
    destruct ((if (i <? total - 1)%nat then emit (EvDelay 200) else ret tt) tr2)
      as [u2 tr3].
    match goal with
    | |- context [verify_loop _ _ _ _ _ _ _ ?a tr3] =>
        destruct (IH (S i) a tr3) as (prs & Hfst & Hall & Hout)
    end.
    exists ((p, result) :: prs). split; [by rewrite fmap_cons, Hfst |].
    split.
    { constructor; [| done]. exists tr. cbn [fst snd]. by rewrite Hres. }
    rewrite Hout. unfold builders_of, nonBuilders_of.
    destruct (isBuilder result) eqn:Hb; cbn [builders nonBuilders].
    + rewrite (filter_cons_True _ (p, result)) by done.
      rewrite (filter_cons_False _ (p, result)) by (cbn; congruence).
      by rewrite fmap_cons, <- app_assoc.
    + rewrite (filter_cons_False _ (p, result)) by (cbn; congruence).
      rewrite (filter_cons_True _ (p, result)) by (cbn; congruence).
      by rewrite fmap_cons, <- app_assoc.
Qed.

Lemma verifyAllParticipants_spec onProgress participants tr :
  exists prs : list (Participant * Activity),
    fst <$> prs = participants
    /\ Forall (outcome_of connection startDate endDate) prs
    /\ fst (verifyAllParticipants connection participants startDate endDate
              onProgress tr)
       = mkVerified (builders_of prs) (nonBuilders_of prs).
Proof.
  unfold verifyAllParticipants, bind.
  destruct (verify_loop_spec onProgress (length participants) participants
              0%nat (mkVerified [] []) tr) as (prs & Hfst & Hall & Hout).
  exists prs. repeat split; [done | done |].
  destruct (verify_loop _ _ _ _ _ _ _ _ tr) as [out tr1]. cbn in *.
  by rewrite Hout.
Qed.

Lemma builders_of_participants prs :
  b_participant <$> builders_of prs
  = fst <$> filter (fun pr => isBuilder (snd pr) = true) prs.
Proof. unfold builders_of. rewrite <- list_fmap_compose. done. Qed.

Lemma nonBuilders_of_participants prs :
  nb_participant <$> nonBuilders_of prs
  = fst <$> filter (fun pr => isBuilder (snd pr) <> true) prs.
Proof. unfold nonBuilders_of. rewrite <- list_fmap_compose. done. Qed.

End VerifyFacts.

Section VerifyClaims.

Lemma labelled_builders (prs : list (Participant * Activity)) :
  fst <$> filter (fun pr => isBuilder (snd pr) = true) prs
    = labelled true ((fun pr => isBuilder (snd pr)) <$> prs) (fst <$> prs)
  /\ fst <$> filter (fun pr => isBuilder (snd pr) <> true) prs
    = labelled false ((fun pr => isBuilder (snd pr)) <$> prs) (fst <$> prs).
Proof.
  unfold labelled. induction prs as [|[p r] prs [IH1 IH2]]; [done |].
  rewrite !fmap_cons. cbn [zip zip_with fst snd].
  destruct (isBuilder r) eqn:Hr.
  - rewrite (filter_cons_True _ (p, r)) by done.
    rewrite (filter_cons_False _ (p, r)) by (cbn; congruence).
    rewrite (filter_cons_True _ (true, p)) by done.
    rewrite (filter_cons_False _ (true, p)) by done.
    rewrite !fmap_cons. cbn [fst snd]. by rewrite IH1, IH2.
  - rewrite (filter_cons_False _ (p, r)) by (cbn; congruence).
    rewrite (filter_cons_True _ (p, r)) by (cbn; congruence).
    rewrite (filter_cons_False _ (false, p)) by done.
    rewrite (filter_cons_True _ (false, p)) by done.
    rewrite !fmap_cons. cbn [fst snd]. by rewrite IH1, IH2.
Qed.

(** C10: verifyAllParticipants partitions its input.  Some labelling of
    the input positions sends the records labelled [true] to [builders] and
    those labelled [false] to [nonBuilders], each in input order; hence
    both outputs are sublists of the input, together they are a
    rearrangement of it, and their lengths add up to its length. *)
Theorem verifyAllParticipants_partitions (connection : Connection)
    (participants : list Participant) (startDate endDate : Z)
    (onProgress : bool) (tr : list Event) :
  let out := fst (verifyAllParticipants connection participants startDate
                    endDate onProgress tr) in
  (exists labels : list bool,
      length labels = length participants
      /\ b_participant <$> builders out = labelled true labels participants
      /\ nb_participant <$> nonBuilders out = labelled false labels participants)
  /\ (b_participant <$> builders out) `sublist_of` participants
  /\ (nb_participant <$> nonBuilders out) `sublist_of` participants
  /\ (b_participant <$> builders out) ++ (nb_participant <$> nonBuilders out)
       ≡ₚ participants
  /\ (length (builders out) + length (nonBuilders out) = length participants)%nat.
Proof.
  cbv zeta.
  destruct (verifyAllParticipants_spec connection startDate endDate onProgress
              participants tr) as (prs & <- & _ & ->).
  cbn [builders nonBuilders].
  rewrite builders_of_participants, nonBuilders_of_participants.
  destruct (labelled_builders prs) as [Hb Hn].
  assert (Hperm :
    (fst <$> filter (fun pr => isBuilder (snd pr) = true) prs)
    ++ (fst <$> filter (fun pr => isBuilder (snd pr) <> true) prs)
    ≡ₚ fst <$> prs).
  { rewrite <- fmap_app. apply fmap_Permutation.
    apply (filter_app_complement (fun pr => isBuilder (snd pr) = true)). }
  repeat split.
  - exists ((fun pr => isBuilder (snd pr)) <$> prs).
    by rewrite !length_fmap.
  - apply fmap_sublist, sublist_filter.
  - apply fmap_sublist, sublist_filter.
  - exact Hperm.
  - apply Permutation_length in Hperm.
    rewrite length_app, !length_fmap in Hperm.
    unfold builders_of, nonBuilders_of. by rewrite !length_fmap.
Qed.

(** One turn of the loop, with the trace written out. *)
Lemma verify_loop_cons connection startDate endDate onProgress total i p rest
    acc tr :
  verify_loop connection startDate endDate onProgress total i (p :: rest) acc tr
  = let res := checkWalletActivity connection (to_val (wallet p)) startDate
                 endDate tr in
    let acc' :=
      if isBuilder (fst res) then
        mkVerified
          (builders acc ++
             [mkBuilder p (transactionCount (fst res)) (firstTx (fst res))])
          (nonBuilders acc)
      else
        mkVerified (builders acc)
          (nonBuilders acc ++
             [mkNonBuilder p (error_or_null (act_error (fst res)))]) in
    verify_loop connection startDate endDate onProgress total (S i) rest acc'
      ((snd res
          ++ (if onProgress
              then [EvProgress (i + 1) total (isBuilder (fst res))] else []))
         ++ (if (i <? total - 1)%nat then [EvDelay 200] else [])).
Proof.
  cbn [verify_loop]. unfold bind, emit, ret. cbv zeta.
  destruct (checkWalletActivity connection (to_val (wallet p)) startDate
              endDate tr) as [result tr1].
  cbn [fst snd].
  destruct onProgress, (i <? total - 1)%nat; by rewrite ?app_nil_r.
Qed.

Lemma verify_loop_app connection startDate endDate onProgress total pre :
  forall rest i acc tr,
    verify_loop connection startDate endDate onProgress total i (pre ++ rest)
      acc tr
    = verify_loop connection startDate endDate onProgress total
        (i + length pre) rest
        (fst (verify_loop connection startDate endDate onProgress total i pre
                acc tr))
        (snd (verify_loop connection startDate endDate onProgress total i pre
                acc tr)).
Proof.
  induction pre as [|q pre IH]; intros rest i acc tr.
  - cbn [app verify_loop length]. unfold ret. cbn [fst snd].
    by rewrite Nat.add_0_r.
  - cbn [app length]. rewrite !verify_loop_cons. cbv zeta. rewrite IH.
    by replace (S i + length pre)%nat with (i + S (length pre))%nat by lia.
Qed.

Lemma classified_perm (prs : list (Participant * Activity)) :
  (b_participant <$> builders_of prs) ++ (nb_participant <$> nonBuilders_of prs)
    ≡ₚ fst <$> prs.
Proof.
  rewrite builders_of_participants, nonBuilders_of_participants.
  rewrite <- fmap_app. f_equiv.
  apply (filter_app_complement
           (fun pr : Participant * Activity => isBuilder (snd pr) = true)).
Qed.

Lemma checkWalletActivity_fails connection startDate endDate p tr tag :
  fails_with connection p tr tag ->
  exists error,
    fst (checkWalletActivity connection (to_val (wallet p)) startDate endDate tr)
    = mkActivity false 0 None error
    /\ error_or_null error = tag.
Proof.
  intros [[Hv ->]|(Hv & message & Hm & ->)].
  - rewrite checkWalletActivity_invalid by done. by eexists.
  - rewrite checkWalletActivity_query by done. exists (Some message).
    by destruct Hm as [-> | ->].
Qed.

(** C8: an address that fails the format check gives isBuilder=false,
    transactionCount=0 and the tag Invalid address, and the trace is left
    as it was, so the ledger is not queried; a lookup that throws is caught
    and gives isBuilder=false, transactionCount=0 and the thrown message as
    tag, whether the query throws after it was sent or the key cannot be
    built and nothing is sent; and in a batch, a participant whose lookup
    fails in one of these ways at the moment its turn comes goes to
    nonBuilders with that tag, right after the records of the participants
    before it, while the participants before and after it are all
    classified. *)
Theorem classifier_failure_semantics (connection : Connection)
    (startDate endDate : Z) :
  (forall v tr,
      isValidSolanaAddress v = false ->
      checkWalletActivity connection v startDate endDate tr
      = (mkActivity false 0 None (Some ("Invalid address" : jsstring)), tr))
  /\ (forall v tr message,
        isValidSolanaAddress v = true ->
        connection tr (string_of v) = Throws message ->
        checkWalletActivity connection v startDate endDate tr
        = (mkActivity false 0 None (Some message),
           tr ++ [EvQuery (string_of v) 100]))
  /\ (forall v tr message,
        isValidSolanaAddress v = true ->
        connection tr (string_of v) = KeyThrows message ->
        checkWalletActivity connection v startDate endDate tr
        = (mkActivity false 0 None (Some message), tr))
  /\ (forall pre p post onProgress tr tag,
        let before :=
          verify_loop connection startDate endDate onProgress
            (length (pre ++ p :: post)) 0 pre (mkVerified [] []) tr in
        fails_with connection p (snd before) tag ->
        exists later_b later_nb,
          fst (verifyAllParticipants connection (pre ++ p :: post) startDate
                 endDate onProgress tr)
          = mkVerified (builders (fst before) ++ later_b)
              (nonBuilders (fst before) ++ mkNonBuilder p tag :: later_nb)
          /\ (b_participant <$> builders (fst before))
               ++ (nb_participant <$> nonBuilders (fst before)) ≡ₚ pre
          /\ (b_participant <$> later_b) ++ (nb_participant <$> later_nb)
               ≡ₚ post).
Proof.
  split; [| split; [| split]].
  - intros v tr Hv. by apply checkWalletActivity_invalid.
  - intros v tr message Hv Hm. by rewrite checkWalletActivity_query, Hm.
  - intros v tr message Hv Hm. by rewrite checkWalletActivity_query, Hm.
  - intros pre p post onProgress tr tag. cbv zeta.
    set (total := length (pre ++ p :: post)).
    intros Hfail.
    destruct (verify_loop_spec connection startDate endDate onProgress total
                pre 0%nat (mkVerified [] []) tr) as (prs1 & Hfst1 & _ & Hout1).
    unfold verifyAllParticipants, bind. fold total.
    rewrite verify_loop_app.
    destruct (verify_loop connection startDate endDate onProgress total 0 pre
                (mkVerified [] []) tr) as [acc1 tr1] eqn:Hpre.
    cbn [fst snd] in *. rewrite verify_loop_cons. cbv zeta.
    destruct (checkWalletActivity_fails connection startDate endDate p tr1 tag
                Hfail) as (error & Hres & Htag).
    rewrite Hres. cbn [isBuilder act_error].
    match goal with
    | |- context [verify_loop _ _ _ _ _ ?i post ?a ?t] =>
        destruct (verify_loop_spec connection startDate endDate onProgress
                    total post i a t) as (prs2 & Hfst2 & _ & Hout2);
        destruct (verify_loop connection startDate endDate onProgress total
                    i post a t) as [out tr5]
    end.
    cbn [fst snd builders nonBuilders] in *.
    exists (builders_of prs2), (nonBuilders_of prs2).
    rewrite Hout2, Htag, Hout1. cbn [builders nonBuilders app].
    rewrite <- app_assoc. cbn [app].
    split; [done |]. split.
    + rewrite <- Hfst1. apply classified_perm.
    + rewrite <- Hfst2. apply classified_perm.
Qed.

(** C7 as amended: when the address is well formed and the ledger answers
    with a non-empty list, the entries that count are those whose block
    time is present, non-zero and within the closed window; isBuilder says
    whether there is one, transactionCount is their number and firstTx is
    the signature of the last of them in the newest-first list.  A single
    entry with a non-zero block time strictly inside the window gives
    isBuilder=true and transactionCount=1. *)
Theorem checkWalletActivity_window (connection : Connection)
    (walletAddress : jsstring) (startDate endDate : Z) (tr : list Event)
    (signatures : list SigInfo) :
  isValidSolanaAddress (VStr walletAddress) = true ->
  connection tr walletAddress = Signatures signatures ->
  signatures <> [] ->
  let relevant := filter (counts startDate endDate) signatures in
  let result := fst (checkWalletActivity connection (VStr walletAddress)
                       startDate endDate tr) in
  result = mkActivity (bool_decide (0 < length relevant)%nat) (length relevant)
             (signature <$> last relevant) None
  /\ (forall sig t,
        signatures = [sig] -> blockTime sig = Some t -> t <> 0 ->
        startDate < t * 1000 < endDate ->
        isBuilder result = true /\ transactionCount result = 1%nat
        /\ firstTx result = Some (signature sig)).
Proof.
  intros Hv Hc Hne. cbv zeta.
  rewrite checkWalletActivity_query by done. cbn [string_of fst]. rewrite Hc.
  destruct signatures as [|sig0 sigs]; [done |].
  cbv zeta. split.
  - f_equal. apply eq_true_iff_eq.
    by rewrite Nat.ltb_lt, bool_decide_eq_true.
  - intros sig t [= <- ->] Ht Hnz Hwin.
    rewrite filter_cons_True.
    2:{ unfold counts. rewrite Ht. split; [done | lia]. }
    done.
Qed.

End VerifyClaims.

(** ** Scenarios of the classifier *)

Section VerifyScenarios.

Lemma checkWalletActivity_window_witness :
  isValidSolanaAddress (VStr sample_address) = true
  /\ one_transaction mid_june [] sample_address
     = Signatures [mkSig sample_signature (Some mid_june)]
  /\ fst (checkWalletActivity (one_transaction mid_june) (VStr sample_address)
            tour_start tour_end [])
     = mkActivity true 1 (Some sample_signature) None.
Proof.
  split; [vm_compute; reflexivity |]. split; [reflexivity |].
  refine (eq_trans
            (proj1 (checkWalletActivity_window (one_transaction mid_june)
                      sample_address tour_start tour_end []
                      [mkSig sample_signature (Some mid_june)] _ _ _)) _).
  - vm_compute; reflexivity.
  - reflexivity.
  - discriminate.
  - vm_compute; reflexivity.
Defined.

(** A transaction stamped with the epoch lies in the window from one
    second before it to one second after it, and is not counted. *)
Lemma checkWalletActivity_skips_epoch :
  in_closed_window (-1000) 1000 (mkSig sample_signature (Some 0))
  /\ fst (checkWalletActivity (one_transaction 0) (VStr sample_address)
            (-1000) 1000 [])
     = mkActivity false 0 None None
  /\ fst (checkWalletActivity (one_transaction 0) (VStr sample_address)
            (-1000) 1000 [])
     <> mkActivity true 1 (Some sample_signature) None.
Proof.
  split; [unfold in_closed_window; cbn; lia |].
  split; [vm_compute; reflexivity | vm_compute; discriminate].
Qed.

Lemma classifier_failure_batch :
  let out := fst (verifyAllParticipants always_throws [alice; bob]
                    tour_start tour_end false []) in
  builders out = []
  /\ nonBuilders out
     = [mkNonBuilder alice (Some ("Invalid address" : jsstring));
        mkNonBuilder bob (Some ("429 Too Many Requests" : jsstring))]
  /\ snd (verifyAllParticipants always_throws [alice; bob]
            tour_start tour_end false [])
     = [EvDelay 200; EvQuery sample_address 100; EvSaveBuilders []].
Proof. vm_compute. done. Qed.

(** A lookup that fails only when the turn of the wallet comes: the first
    query throws and the later one is answered, so the first participant
    is a non-builder with the thrown message and the one after it is
    classified as a builder. *)
Lemma classifier_failure_transient :
  let res := verifyAllParticipants throws_once [alice; bob; carol]
               tour_start tour_end false [] in
  fails_with throws_once bob [EvDelay 200]
    (Some ("429 Too Many Requests" : jsstring))
  /\ ~ fails_with throws_once carol
        [EvDelay 200; EvQuery sample_address 100; EvDelay 200]
        (Some ("429 Too Many Requests" : jsstring))
  /\ builders (fst res) = [mkBuilder carol 1 (Some sample_signature)]
  /\ nonBuilders (fst res)
     = [mkNonBuilder alice (Some ("Invalid address" : jsstring));
        mkNonBuilder bob (Some ("429 Too Many Requests" : jsstring))]
  /\ omap query_of (snd res) = [query_for bob; query_for carol].
Proof.
  cbv zeta. split.
  { right. split; [vm_compute; reflexivity |].
    exists "429 Too Many Requests". split; [right |]; vm_compute; reflexivity. }
  split.
  { intros [[H _]|(_ & message & [H|H] & _)]; vm_compute in H; discriminate. }
  vm_compute. done.
Qed.

(** An address the pattern accepts and the key constructor refuses: the
    participant is a non-builder with the constructor's message, no query
    is sent for it, and the batch goes on. *)
Lemma classifier_failure_key :
  let res := verifyAllParticipants refuses_key [zed; bob]
               tour_start tour_end false [] in
  accepted (wallet zed)
  /\ fails_with refuses_key zed [] (Some ("Invalid public key input" : jsstring))
  /\ builders (fst res) = [mkBuilder bob 1 (Some sample_signature)]
  /\ nonBuilders (fst res)
     = [mkNonBuilder zed (Some ("Invalid public key input" : jsstring))]
  /\ omap query_of (snd res) = [query_for bob].
Proof.
  cbv zeta. split; [vm_compute; reflexivity |]. split.
  { right. split; [vm_compute; reflexivity |].
    exists "Invalid public key input". split; [left |]; vm_compute; reflexivity. }
  vm_compute. done.
Qed.

End VerifyScenarios.

(** ** The validation report *)

Section ValidationFacts.

Lemma validateParticipant_errors_wallet_only p index :
  errors (validateParticipant p index)
  = errors (validateParticipant (without_email p) index)
  /\ v_valid (validateParticipant p index)
     = v_valid (validateParticipant (without_email p) index).
Proof. done. Qed.

Lemma validateParticipant_valid_wallet p index :
  v_valid (validateParticipant p index)
  = valid (validateWalletAddress (to_val (wallet p))).
Proof.
  unfold validateParticipant. cbn [v_valid].
  destruct (wallet p) as [[|c w]|]; try done.
  cbn [truthy negb or_empty to_val].
  by destruct (valid (validateWalletAddress (VStr (c :: w)))).
Qed.

Lemma validateEmail_ill_formed (e : jsstring) :
  trim e <> [] -> test emailRegex (trim e) = false ->
  validateEmail (Some e) = fail "Invalid email format".
Proof.
  intros Hne Hre. unfold validateEmail.
  assert (truthy (Some e) = true) as -> by (by destruct e).
  cbn [negb orb or_empty].
  apply str_eqb_neq in Hne. by rewrite Hne, Hre.
Qed.

Lemma validateParticipant_email_warning p index (e : jsstring) :
  email p = Some e -> trim e <> [] -> test emailRegex (trim e) = false ->
  email_warning (index + 1) e ∈ warnings (validateParticipant p index).
Proof.
  intros He Hne Hre. unfold validateParticipant. cbn [warnings].
  apply elem_of_app. left. rewrite He.
  assert (truthy (Some e) = true) as -> by (by destruct e).
  rewrite (validateEmail_ill_formed e Hne Hre).
  cbn [valid fail negb error or_empty]. apply elem_of_cons. by left.
Qed.

Lemma report_step_warnings ips :
  forall r m,
    (m ∈ rep_warnings r
     \/ exists ip, ip ∈ ips /\ m ∈ warnings (validateParticipant (snd ip) (fst ip))) ->
    m ∈ rep_warnings (fold_left report_step ips r).
Proof.
  induction ips as [|ip ips IH]; intros r m H.
  - destruct H as [H|(ip & Hin & _)]; [done | by apply elem_of_nil in Hin].
  - cbn [fold_left]. apply IH.
    destruct H as [H|(ip' & [->|Hin]%elem_of_cons & Hm)].
    + left. cbn [report_step rep_warnings]. apply elem_of_app. by left.
    + left. cbn [report_step rep_warnings]. apply elem_of_app. by right.
    + right. eauto.
Qed.

Lemma report_step_errors ps :
  forall (f : nat -> nat) r r',
    same_errors r r' ->
    same_errors
      (fold_left report_step (imap (fun i p => (f i, p)) ps) r)
      (fold_left report_step (imap (fun i p => (f i, without_email p)) ps) r').
Proof.
  induction ps as [|p ps IH]; intros f r r' Hr; [done |].
  rewrite !imap_cons. cbn [fold_left].
  apply (IH (f ∘ S)).
  destruct Hr as (He & Hv & Hi). unfold same_errors, report_step.
  cbn [fst snd rep_errors rep_valid rep_invalid].
  destruct (validateParticipant_errors_wallet_only p (f 0%nat)) as [<- <-].
  rewrite He, Hv, Hi. done.
Qed.

Lemma validateAllParticipants_errors_wallet_only participants :
  same_errors (validateAllParticipants participants)
    (validateAllParticipants (without_email <$> participants)).
Proof.
  destruct participants as [|p ps]; [done |].
  unfold validateAllParticipants. rewrite fmap_cons, <- (fmap_cons without_email).
  rewrite imap_fmap, length_fmap.
  pose proof (report_step_errors (p :: ps) (fun i => i)
                (mkReport (length (p :: ps)) 0 0 [] [] [] 0 0 None)
                (mkReport (length (p :: ps)) 0 0 [] [] [] 0 0 None)) as H.
  destruct H as (He & Hv & Hi); [done |].
  unfold same_errors. cbn [rep_errors rep_valid rep_invalid].
  split; [exact He | split; [exact Hv | exact Hi]].
Qed.

(** C2 as amended: an email that is non-empty once trimmed and does not
    match the pattern fails validateEmail with Invalid email format; the
    message goes to the warnings of the record and of the report; the
    errors of the record, its validity and the report's error list and
    counts are what they would be without the email, and the record is
    valid exactly when its wallet is. *)
Theorem invalid_email_is_a_warning (participants : list Participant)
    (index : nat) (p : Participant) (e : jsstring) :
  participants !! index = Some p ->
  email p = Some e ->
  trim e <> [] ->
  test emailRegex (trim e) = false ->
  validateEmail (Some e) = fail "Invalid email format"
  /\ email_warning (index + 1) e ∈ warnings (validateParticipant p index)
  /\ errors (validateParticipant p index)
     = errors (validateParticipant (without_email p) index)
  /\ v_valid (validateParticipant p index)
     = valid (validateWalletAddress (to_val (wallet p)))
  /\ email_warning (index + 1) e
       ∈ rep_warnings (validateAllParticipants participants)
  /\ rep_errors (validateAllParticipants participants)
     = rep_errors (validateAllParticipants (without_email <$> participants))
  /\ rep_invalid (validateAllParticipants participants)
     = rep_invalid (validateAllParticipants (without_email <$> participants)).
Proof.
  intros Hp He Hne Hre.
  destruct (validateAllParticipants_errors_wallet_only participants)
    as (Herr & _ & Hinv).
  repeat split.
  - by apply validateEmail_ill_formed.
  - by apply validateParticipant_email_warning.
  - apply validateParticipant_valid_wallet.
  - destruct participants as [|q qs]; [done |].
    unfold validateAllParticipants. cbn [rep_warnings].
    apply report_step_warnings. right. exists (index, p). split.
    + apply elem_of_lookup_imap. eauto.
    + by apply validateParticipant_email_warning.
  - exact Herr.
  - exact Hinv.
Qed.

Lemma invalid_email_is_a_warning_witness :
  [carol] !! 0%nat = Some carol
  /\ email carol = Some ("carol-at-example" : jsstring)
  /\ trim ("carol-at-example" : jsstring) <> []
  /\ test emailRegex (trim ("carol-at-example" : jsstring)) = false
  /\ email_warning 1 "carol-at-example"
       ∈ rep_warnings (validateAllParticipants [carol]).
Proof.
  split; [reflexivity |]. split; [reflexivity |].
  split; [vm_compute; discriminate |]. split; [vm_compute; reflexivity |].
  refine (proj1 (proj2 (proj2 (proj2 (proj2
            (invalid_email_is_a_warning [carol] 0 carol "carol-at-example"
               _ _ _ _)))))).
  - reflexivity.
  - reflexivity.
  - vm_compute; discriminate.
  - vm_compute; reflexivity.
Defined.

(** A record with a well-formed wallet and an ill-formed email has no
    error and counts as valid; an email of whitespace only raises no
    message at all. *)
Lemma invalid_email_keeps_record_valid :
  test emailRegex (trim ("carol-at-example" : jsstring)) = false
  /\ errors (validateParticipant carol 0) = []
  /\ v_valid (validateParticipant carol 0) = true
  /\ rep_errors (validateAllParticipants [carol]) = []
  /\ rep_invalid (validateAllParticipants [carol]) = 0%nat
  /\ rep_valid (validateAllParticipants [carol]) = 1%nat
  /\ warnings (validateParticipant
                 (mkParticipant (Some ("Carol" : jsstring)) (Some sample_address)
                    (Some (" " : jsstring)) None) 0) = [].
Proof. vm_compute. done. Qed.

End ValidationFacts.

(** ** The identity matcher *)

Section MatcherFacts.

Local Open Scope Q_scope.

Variable byName : list (jsstring * WalletEntry).
Variable used : gset (list ascii).
Variable target : jsstring.

Lemma Qgt_bool_true a b : Qgt_bool a b = true <-> b < a.
Proof.
  unfold Qgt_bool. rewrite negb_true_iff, <- not_true_iff_false, Qle_bool_iff.
  split; [apply Qnot_le_lt | apply Qlt_not_le].
Qed.

Lemma Qge_bool_true a b : Qge_bool a b = true <-> b <= a.
Proof. apply Qle_bool_iff. Qed.

Lemma scan_wallet_cases best ne :
  (scan_wallet used target best ne = best
   /\ (unconsumed used ne -> similarity target (fst ne) <= snd best))
  \/ (scan_wallet used target best ne = (Some (snd ne), similarity target (fst ne))
      /\ unconsumed used ne /\ snd best < similarity target (fst ne)).
Proof.
  unfold scan_wallet, unconsumed. case_bool_decide as Hu.
  - left. split; [done | tauto].
  - destruct (Qgt_bool (similarity target (fst ne)) (snd best)) eqn:Hgt.
    + right. by apply Qgt_bool_true in Hgt.
    + left. split; [done |]. intros _.
      apply Qnot_lt_le. intros Hlt. apply Qgt_bool_true in Hlt. congruence.
Qed.

(** What the inner loop returns from a starting pair [best]: a score that
    bounds the starting score and every unconsumed wallet's score, and that
    is either the starting pair untouched or the score of an unconsumed
    wallet of the table, returned with it. *)
Lemma best_match_fold l :
  forall best,
    let out := fold_left (scan_wallet used target) l best in
    snd best <= snd out
    /\ (forall ne, ne ∈ l -> unconsumed used ne -> similarity target (fst ne) <= snd out)
    /\ (out = best
        \/ exists ne, ne ∈ l /\ unconsumed used ne
                      /\ out = (Some (snd ne), similarity target (fst ne))).
Proof.
  induction l as [|ne l IH]; intros best; cbv zeta.
  - split; [apply Qle_refl |]. split; [| by left].
    by intros ne ?%elem_of_nil.
  - cbn [fold_left].
    destruct (IH (scan_wallet used target best ne)) as (Hle & Hall & Hout).
    destruct (scan_wallet_cases best ne) as [[Heq Hne]|(Heq & Hu & Hlt)];
      rewrite Heq in *.
    + split; [done |]. split.
      * intros ne' [->|Hin]%elem_of_cons Hu'; [| by apply Hall].
        eapply Qle_trans; [by apply Hne | done].
      * destruct Hout as [->|(ne' & Hin & Hu' & ->)]; [by left |].
        right. exists ne'. split; [by apply elem_of_cons; right | done].
    + cbn [snd] in Hle. split.
      { eapply Qle_trans; [apply Qlt_le_weak, Hlt | done]. }
      split.
      * intros ne' [->|Hin]%elem_of_cons Hu'; [done | by apply Hall].
      * right. destruct Hout as [->|(ne' & Hin & Hu' & ->)].
        -- exists ne. split; [by apply elem_of_cons; left | done].
        -- exists ne'. split; [by apply elem_of_cons; right | done].
Qed.

(** The fuzzy scan never proposes a consumed wallet. *)
Lemma best_match_unused entry score :
  best_match byName used target = (Some entry, score) -> w_wallet entry ∉ used.
Proof.
  unfold best_match. intros H.
  destruct (best_match_fold byName (None, 0)) as (_ & _ & [Hout|Hout]).
  - rewrite H in Hout. discriminate.
  - destruct Hout as (ne & _ & Hu & Hout). rewrite H in Hout.
    by injection Hout as -> _.
Qed.

(** When some unconsumed wallet attains the best score over the
    unconsumed wallets and that score is positive, the scan returns an
    unconsumed wallet of the table with exactly that score. *)
Lemma best_match_attained ne :
  ne ∈ byName -> unconsumed used ne ->
  (forall ne', ne' ∈ byName -> unconsumed used ne' ->
               similarity target (fst ne') <= similarity target (fst ne)) ->
  0 < similarity target (fst ne) ->
  exists ne',
    ne' ∈ byName /\ unconsumed used ne'
    /\ similarity target (fst ne') == similarity target (fst ne)
    /\ best_match byName used target
       = (Some (snd ne'), similarity target (fst ne')).
Proof.
  intros Hin Hu Hmax Hpos. unfold best_match.
  destruct (best_match_fold byName (None, 0)) as (_ & Hall & [Hout|Hout]).
  - specialize (Hall ne Hin Hu). rewrite Hout in Hall. cbn [snd] in Hall.
    exfalso. by apply (Qlt_not_le _ _ Hpos).
  - destruct Hout as (ne' & Hin' & Hu' & Hout).
    exists ne'. split; [done |]. split; [done |]. split; [| done].
    apply Qle_antisym; [by apply Hmax |].
    specialize (Hall ne Hin Hu). by rewrite Hout in Hall.
Qed.

End MatcherFacts.

Section MatcherClaims.

Local Open Scope Q_scope.

(** The step of the matching loop in the review band. *)
Lemma match_registration_review
    (byName : list (jsstring * WalletEntry)) (st : MatchState)
    (email : jsstring) (reg : Registration) (ne : jsstring * WalletEntry) :
  map_get byName (r_normalizedName reg) = None ->
  ne ∈ byName ->
  unconsumed (usedWallets st) ne ->
  (forall ne', ne' ∈ byName -> unconsumed (usedWallets st) ne' ->
     similarity (r_normalizedName reg) (fst ne')
     <= similarity (r_normalizedName reg) (fst ne)) ->
  REVIEW_THRESHOLD <= similarity (r_normalizedName reg) (fst ne) ->
  similarity (r_normalizedName reg) (fst ne) < FUZZY_THRESHOLD ->
  exists (entry : WalletEntry) (score : Q),
    score == similarity (r_normalizedName reg) (fst ne)
    /\ ~ (w_wallet entry ∈ usedWallets st)
    /\ (exists n, (n, entry) ∈ byName
                  /\ score = similarity (r_normalizedName reg) n)
    /\ reviewNeeded (match_registration byName st (email, reg))
       = reviewNeeded st ++
           [mkReview (r_name reg) email (w_name entry) (w_wallet entry) score
              (join_campuses (r_campuses reg))]
    /\ matched (match_registration byName st (email, reg)) = matched st
    /\ missingWallets (match_registration byName st (email, reg))
       = missingWallets st
    /\ usedWallets (match_registration byName st (email, reg)) = usedWallets st.
Proof.
  intros Hexact Hin Hu Hmax Hlo Hhi.
  assert (Hpos : 0 < similarity (r_normalizedName reg) (fst ne)).
  { eapply Qlt_le_trans; [| exact Hlo]. reflexivity. }
  destruct (best_match_attained byName (usedWallets st) (r_normalizedName reg)
              ne Hin Hu Hmax Hpos) as ([n entry] & Hin' & Hu' & Heq & Hbest).
  cbn [fst snd] in *.
  exists entry, (similarity (r_normalizedName reg) n).
  unfold match_registration. cbn [fst snd]. rewrite Hexact, Hbest.
  assert (Qge_bool (similarity (r_normalizedName reg) n) FUZZY_THRESHOLD = false)
    as ->.
  { apply not_true_iff_false. rewrite Qge_bool_true, Heq. by apply Qlt_not_le. }
  assert (Qge_bool (similarity (r_normalizedName reg) n) REVIEW_THRESHOLD = true)
    as ->.
  { by rewrite Qge_bool_true, Heq. }
  repeat split; eauto.
Qed.

(** C6 as amended: a registration without an exact match whose best score
    over the unconsumed entries of the by-name wallet table (the table the
    loop scans: it files the first wallet row of each canonical name) is at
    least 0.70 and below 0.85 gets a ReviewCandidate, for an unconsumed
    entry of that table with that score; the matched list, the missing
    list and the consumed set stay as they were. *)
Theorem review_band_emits_candidate
    (byName : list (jsstring * WalletEntry)) (st : MatchState)
    (email : jsstring) (reg : Registration) (ne : jsstring * WalletEntry) :
  map_get byName (r_normalizedName reg) = None ->
  ne ∈ byName ->
  unconsumed (usedWallets st) ne ->
  (forall ne', ne' ∈ byName -> unconsumed (usedWallets st) ne' ->
     similarity (r_normalizedName reg) (fst ne')
     <= similarity (r_normalizedName reg) (fst ne)) ->
  REVIEW_THRESHOLD <= similarity (r_normalizedName reg) (fst ne) ->
  similarity (r_normalizedName reg) (fst ne) < FUZZY_THRESHOLD ->
  exists (entry : WalletEntry) (score : Q),
    score == similarity (r_normalizedName reg) (fst ne)
    /\ ~ (w_wallet entry ∈ usedWallets st)
    /\ (exists n, (n, entry) ∈ byName
                  /\ score = similarity (r_normalizedName reg) n)
    /\ reviewNeeded (match_registration byName st (email, reg))
       = reviewNeeded st ++
           [mkReview (r_name reg) email (w_name entry) (w_wallet entry) score
              (join_campuses (r_campuses reg))]
    /\ matched (match_registration byName st (email, reg)) = matched st
    /\ missingWallets (match_registration byName st (email, reg))
       = missingWallets st
    /\ usedWallets (match_registration byName st (email, reg)) = usedWallets st.
Proof. apply match_registration_review. Qed.

(** What a step adds to the matched list carries the step's email. *)
Lemma match_registration_matched
    (byName : list (jsstring * WalletEntry)) (st : MatchState)
    (er : jsstring * Registration) (m : Matched) :
  m ∈ matched (match_registration byName st er) ->
  m ∈ matched st \/ m_email m = fst er.
Proof.
  unfold match_registration.
  destruct (map_get byName (r_normalizedName (snd er))) as [w|].
  { cbn [push_matched matched]. intros [H|H]%elem_of_app; [by left |].
    apply list_elem_of_singleton in H. subst m. by right. }
  destruct (best_match byName (usedWallets st) (r_normalizedName (snd er)))
    as [[entry|] score]; [| by left].
  destruct (Qge_bool score FUZZY_THRESHOLD).
  { cbn [push_matched matched]. intros [H|H]%elem_of_app; [by left |].
    apply list_elem_of_singleton in H. subst m. by right. }
  destruct (Qge_bool score REVIEW_THRESHOLD); by left.
Qed.

Lemma matched_emails (byName : list (jsstring * WalletEntry))
    (regs : list (jsstring * Registration)) :
  forall (st : MatchState) (m : Matched),
    m ∈ matched (fold_left (match_registration byName) regs st) ->
    m ∈ matched st \/ m_email m ∈ fst <$> regs.
Proof.
  induction regs as [|er regs IH]; intros st m Hm; [by left |].
  cbn [fold_left] in Hm. apply IH in Hm as [Hm|Hm].
  - apply match_registration_matched in Hm as [Hm|Hm]; [by left |].
    right. rewrite fmap_cons, Hm. apply elem_of_cons. by left.
  - right. rewrite fmap_cons. apply elem_of_cons. by right.
Qed.

(** Over a whole run: a registration that meets the review band when its
    turn comes is in no Participant of the final matched list. *)
Lemma review_candidate_never_matched
    (byName : list (jsstring * WalletEntry))
    (pre post : list (jsstring * Registration))
    (email : jsstring) (reg : Registration) (ne : jsstring * WalletEntry) :
  NoDup (fst <$> (pre ++ (email, reg) :: post)) ->
  map_get byName (r_normalizedName reg) = None ->
  ne ∈ byName ->
  unconsumed (usedWallets (matchRegistrations byName pre)) ne ->
  (forall ne', ne' ∈ byName ->
     unconsumed (usedWallets (matchRegistrations byName pre)) ne' ->
     similarity (r_normalizedName reg) (fst ne')
     <= similarity (r_normalizedName reg) (fst ne)) ->
  REVIEW_THRESHOLD <= similarity (r_normalizedName reg) (fst ne) ->
  similarity (r_normalizedName reg) (fst ne) < FUZZY_THRESHOLD ->
  forall m,
    m ∈ matched (matchRegistrations byName (pre ++ (email, reg) :: post)) ->
    m_email m <> email.
Proof.
  intros Hnd Hexact Hin Hu Hmax Hlo Hhi m Hm Hemail.
  rewrite fmap_app, fmap_cons in Hnd. cbn [fst] in Hnd.
  apply NoDup_app in Hnd as (_ & Hpre & Hpost).
  apply NoDup_cons in Hpost as [Hpost _].
  unfold matchRegistrations in Hm. rewrite fold_left_app in Hm.
  cbn [fold_left] in Hm. apply matched_emails in Hm as [Hm|Hm].
  - destruct (match_registration_review byName _ email reg ne
                Hexact Hin Hu Hmax Hlo Hhi)
      as (entry & score & _ & _ & _ & _ & Hmatched & _).
    unfold matchRegistrations in Hmatched. rewrite Hmatched in Hm.
    apply matched_emails in Hm as [Hm|Hm]; [by apply elem_of_nil in Hm |].
    apply (Hpre (m_email m)); [done |]. rewrite Hemail. apply elem_of_cons. by left.
  - apply Hpost. by rewrite <- Hemail.
Qed.

Lemma review_band_emits_candidate_witness :
  map_get smith_table (r_normalizedName jon_smyth) = None
  /\ REVIEW_THRESHOLD <= similarity (r_normalizedName jon_smyth) "john smith"
  /\ similarity (r_normalizedName jon_smyth) "john smith" < FUZZY_THRESHOLD
  /\ exists (entry : WalletEntry) (score : Q),
       score == similarity (r_normalizedName jon_smyth) "john smith"
       /\ reviewNeeded
            (match_registration smith_table fresh_state
               ("jon@example.com" : jsstring, jon_smyth))
          = [mkReview (r_name jon_smyth) "jon@example.com" (w_name entry)
               (w_wallet entry) score (join_campuses (r_campuses jon_smyth))]
       /\ matched
            (match_registration smith_table fresh_state
               ("jon@example.com" : jsstring, jon_smyth))
          = [].
Proof.
  split; [vm_compute; reflexivity |].
  split; [vm_compute; discriminate |].
  split; [vm_compute; reflexivity |].
  destruct (review_band_emits_candidate smith_table fresh_state
              "jon@example.com" jon_smyth
              (w_normalizedName john_smith, john_smith))
    as (entry & score & Hs & _ & _ & Hr & Hm & _).
  - vm_compute; reflexivity.
  - apply list_elem_of_singleton. reflexivity.
  - unfold unconsumed. apply not_elem_of_empty.
  - intros ne' Hin _. apply list_elem_of_singleton in Hin. subst ne'.
    apply Qle_refl.
  - vm_compute; discriminate.
  - vm_compute; reflexivity.
  - exists entry, score. split; [exact Hs |]. split; [exact Hr | exact Hm].
Defined.

(** The scenario of the specification: the two names normalise to strings
    of 9 and 10 characters at edit distance 2, so the score is 1 - 2/10,
    which is 4/5 and not 1 - 2/9; it lies in the review band.  And the
    best score is taken over the by-name table, not over every wallet: of
    two wallet rows named John Smith the table files the first; once the
    registration John Smith has consumed it, the second row is unconsumed
    and scores 4/5 against Jon Smyth, yet the loop passes it by: Jon Smyth
    gets no ReviewCandidate and is reported as missing a wallet, and the
    second row ends among the wallets without a registration. *)
Lemma jon_smyth_scores_four_fifths :
  length (r_normalizedName jon_smyth) = 9%nat
  /\ length (w_normalizedName john_smith) = 10%nat
  /\ levenshtein (r_normalizedName jon_smyth) (w_normalizedName john_smith) = 2%nat
  /\ similarity (r_normalizedName jon_smyth) (w_normalizedName john_smith) == 4 # 5
  /\ ~ similarity (r_normalizedName jon_smyth) (w_normalizedName john_smith)
       == 1 - (2 # 9)
  /\ let before :=
       matchRegistrations (walletsByName smith_wallets)
         (take 1 smith_registrations) in
     let st :=
       matchRegistrations (walletsByName smith_wallets) smith_registrations in
     w_wallet <$> walletData smith_wallets = [sample_address; second_address]
     /\ (fun ne => w_wallet (snd ne)) <$> walletsByName smith_wallets
        = [sample_address]
     /\ (fun er => (r_name (snd er), r_normalizedName (snd er)))
          <$> (smith_registrations !! 1%nat)
        = Some (r_name jon_smyth, r_normalizedName jon_smyth)
     /\ map_get (walletsByName smith_wallets) (r_normalizedName jon_smyth) = None
     /\ (exists entry,
           walletData smith_wallets !! 1%nat = Some entry
           /\ w_wallet entry = second_address
           /\ (w_wallet entry ∉ usedWallets before)
           /\ similarity (r_normalizedName jon_smyth) (w_normalizedName entry)
              == 4 # 5)
     /\ m_email <$> matched st = ["john@example.com" : jsstring]
     /\ reviewNeeded st = []
     /\ mw_email <$> missingWallets st = ["jon@example.com" : jsstring]
     /\ ne_wallet <$> findNoEmail (walletData smith_wallets) (usedWallets st)
        = [second_address].
Proof.
  split; [vm_compute; reflexivity |]. split; [vm_compute; reflexivity |].
  split; [vm_compute; reflexivity |]. split; [vm_compute; reflexivity |].
  split; [vm_compute; discriminate |].
  cbv zeta.
  split; [vm_compute; reflexivity |]. split; [vm_compute; reflexivity |].
  split; [vm_compute; reflexivity |]. split; [vm_compute; reflexivity |].
  split.
  { eexists. split; [vm_compute; reflexivity |].
    split; [vm_compute; reflexivity |].
    split; [| vm_compute; reflexivity].
    apply (bool_decide_unpack _). vm_compute. reflexivity. }
  split; [vm_compute; reflexivity |]. split; [vm_compute; reflexivity |].
  split; [vm_compute; reflexivity |]. vm_compute. reflexivity.
Qed.

Lemma jon_smyth_is_a_review_candidate :
  let st := matchRegistrations smith_table
              [("jon@example.com" : jsstring, jon_smyth)] in
  matched st = []
  /\ usedWallets st = ∅
  /\ reviewNeeded st
     = [mkReview "Jon Smyth" "jon@example.com" "John Smith" sample_address
          (8 # 10) "UNILAG"].
Proof. vm_compute. done. Qed.

(** C1: the exact-lookup path does not consult the consumed set.  Two
    registrations with the same canonical name both take the one wallet of
    that name, and two Participants share its address. *)
Theorem exact_match_reuses_consumed_wallet :
  let st := matchRegistrations (walletsByName jane_wallets) jane_registrations in
  map m_email (matched st)
    = ["jane@example.com" : jsstring; "jdoe@example.org" : jsstring]
  /\ map m_matchMethod (matched st) = [exact; exact]
  /\ map m_wallet (matched st) = [sample_address; sample_address]
  /\ map wallet (consolidate jane_wallets jane_registrations)
     = [Some sample_address; Some sample_address].
Proof. vm_compute. done. Qed.

End MatcherClaims.

(** ** CSV: writing and reading back *)

Section TrimFacts.

Lemma trimStart_suffix (s : jsstring) : exists pre, s = pre ++ trimStart s.
Proof.
  induction s as [|c s [pre IH]]; [by exists [] |]. simpl.
  destruct (is_ws c).
  - exists (c :: pre). simpl. by f_equal.
  - by exists [].
Qed.

Lemma trimStart_length (s : jsstring) : (length (trimStart s) <= length s)%nat.
Proof.
  destruct (trimStart_suffix s) as [pre H].
  rewrite H at 2. rewrite length_app. lia.
Qed.

Lemma trimStart_fix (s : jsstring) : trimStart s = s <-> starts_clean s.
Proof.
  destruct s as [|c s]; [done |]. simpl. destruct (is_ws c) eqn:Hc.
  - split; [| done]. intros H.
    pose proof (trimStart_length s) as Hlen. rewrite H in Hlen.
    simpl in Hlen. lia.
  - done.
Qed.

Lemma trim_fix (s : jsstring) : trim s = s <-> starts_clean s /\ ends_clean s.
Proof.
  unfold trim, trimEnd, ends_clean. split.
  - intros H.
    assert (Hs : trimStart s = s).
    { destruct (trimStart_suffix s) as [pre Hpre].
      destruct pre as [|c pre]; [done |].
      apply (f_equal length) in H, Hpre.
      pose proof (trimStart_length (rev (trimStart s))) as Hlen.
      rewrite length_rev in H. rewrite length_rev in Hlen.
      rewrite length_app in Hpre. simpl in Hpre. lia. }
    split; [by apply trimStart_fix |].
    rewrite Hs in H. apply trimStart_fix.
    rewrite <- H at 2. by rewrite rev_involutive.
  - intros [H1 H2]. apply trimStart_fix in H1, H2.
    rewrite H1, H2. apply rev_involutive.
Qed.

Lemma starts_clean_app (s t : jsstring) :
  s <> [] -> starts_clean s -> starts_clean (s ++ t).
Proof. by destruct s. Qed.

Lemma ends_clean_app (s t : jsstring) :
  t <> [] -> ends_clean t -> ends_clean (s ++ t).
Proof.
  unfold ends_clean. intros Hne H. rewrite rev_app_distr.
  apply starts_clean_app; [| done].
  intros Hr. apply Hne. by rewrite <- (rev_involutive t), Hr.
Qed.

Lemma ends_clean_snoc (s : jsstring) c : is_ws c = false -> ends_clean (s ++ [c]).
Proof. intros H. by apply ends_clean_app. Qed.

End TrimFacts.

Section SplitJoinFacts.

Lemma join_cons_cons (sep p q : jsstring) (rest : list jsstring) :
  join sep (p :: q :: rest) = p ++ sep ++ join sep (q :: rest).
Proof. done. Qed.

Lemma join_snoc (sep l : jsstring) (ls : list jsstring) :
  ls <> [] -> join sep (ls ++ [l]) = join sep ls ++ sep ++ l.
Proof.
  induction ls as [|p ls IH]; [done |]. intros _.
  destruct ls as [|q ls]; [done |].
  rewrite <- !app_comm_cons, join_cons_cons.
  rewrite app_comm_cons, IH by done. rewrite join_cons_cons.
  by rewrite <- !app_assoc.
Qed.

Lemma split_acc_plain c (l cur : jsstring) :
  c ∉ l -> split_acc c cur l = [rev cur ++ l].
Proof.
  revert cur. induction l as [|x l IH]; intros cur Hc.
  - simpl. by rewrite app_nil_r.
  - simpl. apply not_elem_of_cons in Hc as [Hx Hl].
    destruct (Ascii.eqb_spec x c) as [->|_]; [done |].
    rewrite IH by done. simpl. by rewrite <- app_assoc.
Qed.

Lemma split_acc_sep c (l cur rest : jsstring) :
  c ∉ l ->
  split_acc c cur (l ++ c :: rest) = (rev cur ++ l) :: split_acc c [] rest.
Proof.
  revert cur. induction l as [|x l IH]; intros cur Hc.
  - simpl. rewrite Ascii.eqb_refl. by rewrite app_nil_r.
  - simpl. apply not_elem_of_cons in Hc as [Hx Hl].
    destruct (Ascii.eqb_spec x c) as [->|_]; [done |].
    rewrite IH by done. simpl. by rewrite <- app_assoc.
Qed.

(** Splitting at a separator that no line contains undoes the join. *)
Lemma split_join c (lines : list jsstring) :
  lines <> [] -> Forall (fun l => c ∉ l) lines ->
  split c (join [c] lines) = lines.
Proof.
  unfold split. induction lines as [|l lines IH]; [done |].
  intros _ Hall. apply Forall_cons in Hall as [Hl Hall].
  destruct lines as [|l' lines].
  - simpl. by rewrite split_acc_plain.
  - rewrite join_cons_cons. cbn [app].
    rewrite split_acc_sep by done. cbn [rev app]. f_equal. by apply IH.
Qed.

Lemma join_not_elem c (sep : jsstring) (parts : list jsstring) :
  c ∉ sep -> Forall (fun p => c ∉ p) parts -> c ∉ join sep parts.
Proof.
  intros Hsep. induction parts as [|p parts IH]; intros Hall.
  - simpl. apply not_elem_of_nil.
  - apply Forall_cons in Hall as [Hp Hall].
    destruct parts as [|q parts]; [done |].
    rewrite join_cons_cons, !elem_of_app. specialize (IH Hall). tauto.
Qed.

End SplitJoinFacts.

Section CsvLineFacts.

Lemma quote_not_comma : quote <> comma.
Proof. discriminate. Qed.

Lemma includes_char_spec c (s : jsstring) : includes_char c s = true <-> c ∈ s.
Proof.
  unfold includes_char. rewrite existsb_exists. split.
  - intros (x & Hin & ->%Ascii.eqb_eq). by apply list_elem_of_In.
  - intros Hin. exists c. split; [by apply list_elem_of_In | apply Ascii.eqb_refl].
Qed.

Lemma includes_char_false c (s : jsstring) : includes_char c s = false <-> c ∉ s.
Proof. by rewrite <- not_true_iff_false, includes_char_spec. Qed.

Lemma double_quotes_plain (v : jsstring) : quote ∉ v -> double_quotes v = v.
Proof.
  unfold double_quotes. induction v as [|c v IH]; [done |].
  intros [Hc Hv]%not_elem_of_cons. simpl.
  destruct (Ascii.eqb_spec c quote) as [->|_]; [done |].
  simpl. f_equal. by apply IH.
Qed.

(** Characters other than the quote are appended to [current], commas
    included while inside quotes. *)
Lemma scan_plain (v : jsstring) res cur q :
  quote ∉ v -> (q = true \/ comma ∉ v) ->
  fold_left scan_char v (mkScan res cur q) = mkScan res (cur ++ v) q.
Proof.
  revert cur. induction v as [|c v IH]; intros cur Hq Hc.
  - simpl. by rewrite app_nil_r.
  - apply not_elem_of_cons in Hq as [Hcq Hq]. cbn [fold_left].
    assert (scan_char (mkScan res cur q) c = mkScan res (cur ++ [c]) q) as ->.
    { unfold scan_char. cbn [result current inQuotes].
      destruct (Ascii.eqb_spec c quote) as [->|_]; [done |].
      destruct (Ascii.eqb_spec c comma) as [->|_]; [| done].
      destruct Hc as [->|Hc]; [done |].
      exfalso. apply Hc. apply elem_of_cons. by left. }
    rewrite IH; [by rewrite <- app_assoc | done |].
    destruct Hc as [Hc|Hc]; [by left | right].
    by apply not_elem_of_cons in Hc as [_ Hc].
Qed.

(** Scanning a written field outside quotes appends the value it was
    written from and ends outside quotes. *)
Lemma scan_field (v : jsstring) res cur :
  quote ∉ v ->
  fold_left scan_char (csv_field v) (mkScan res cur false)
  = mkScan res (cur ++ v) false.
Proof.
  intros Hq. unfold csv_field.
  destruct (includes_char comma v || includes_char quote v) eqn:Hinc.
  - rewrite double_quotes_plain by done. cbn [fold_left].
    assert (scan_char (mkScan res cur false) quote = mkScan res cur true) as ->.
    { unfold scan_char. by rewrite Ascii.eqb_refl. }
    rewrite fold_left_app, scan_plain by auto. cbn [fold_left].
    unfold scan_char. by rewrite Ascii.eqb_refl.
  - apply orb_false_iff in Hinc as [Hc _].
    apply includes_char_false in Hc. by apply scan_plain; auto.
Qed.

Lemma scan_comma res cur :
  scan_char (mkScan res cur false) comma = mkScan (res ++ [cur]) [] false.
Proof. unfold scan_char. cbn. done. Qed.

Lemma scan_line (vals : list jsstring) :
  forall res,
    vals <> [] -> Forall (fun v => quote ∉ v) vals ->
    let st := fold_left scan_char (join [comma] (csv_field <$> vals))
                (mkScan res [] false) in
    result st ++ [current st] = res ++ vals.
Proof.
  induction vals as [|v vals IH]; [done |]. intros res _ Hall. cbv zeta.
  apply Forall_cons in Hall as [Hv Hall].
  destruct vals as [|v' vals].
  - cbn [fmap list_fmap join]. by rewrite scan_field.
  - rewrite !fmap_cons, join_cons_cons, fold_left_app, scan_field by done.
    cbn [app fold_left]. rewrite scan_comma. cbn [app].
    rewrite <- fmap_cons. rewrite IH by done.
    by rewrite <- app_assoc.
Qed.

Lemma strip_quotes_plain (v : jsstring) : quote ∉ v -> strip_quotes v = v.
Proof.
  intros Hq.
  assert (Htail : forall s : jsstring, quote ∉ s -> strip_trailing_quote s = s).
  { intros s Hs. unfold strip_trailing_quote.
    destruct (rev s) as [|c r] eqn:Hr; [done |].
    destruct (Ascii.eqb_spec c quote) as [->|_]; [| done].
    exfalso. apply Hs. apply list_elem_of_In, in_rev. rewrite Hr. by left. }
  destruct v as [|c v]; [done |]. unfold strip_quotes.
  destruct (Ascii.eqb_spec c quote) as [->|_]; [| by apply Htail].
  exfalso. apply Hq. apply elem_of_cons. by left.
Qed.

(** Reading a written line gives back the values it was written from. *)
Lemma parseCSVLine_fields (vals : list jsstring) :
  vals <> [] -> Forall clean_value vals ->
  parseCSVLine (join [comma] (csv_field <$> vals)) = vals.
Proof.
  intros Hne Hall. unfold parseCSVLine.
  assert (Hq : Forall (fun v : jsstring => quote ∉ v) vals).
  { eapply Forall_impl; [exact Hall |]. by intros v (H & _). }
  pose proof (scan_line vals [] Hne Hq) as H. cbv zeta in H. rewrite H.
  cbn [app]. clear H Hne Hq.
  induction Hall as [|v vals (Hq & _ & Ht) _ IH]; [done |].
  cbn [map]. by rewrite strip_quotes_plain, Ht, IH.
Qed.

Lemma csv_field_column (c : jsstring) : clean_column c -> csv_field c = c.
Proof.
  intros (Hc & Hq & _). unfold csv_field.
  apply includes_char_false in Hc, Hq. by rewrite Hc, Hq.
Qed.

Lemma parseCSVLine_header (columns : list jsstring) :
  columns <> [] -> Forall clean_column columns ->
  parseCSVLine (join [comma] columns) = columns.
Proof.
  intros Hne Hall.
  assert (csv_field <$> columns = columns) as Hf.
  { clear Hne. induction Hall as [|c cs Hc _ IH]; [done |].
    by rewrite fmap_cons, csv_field_column, IH. }
  rewrite <- Hf at 1. apply parseCSVLine_fields; [done |].
  eapply Forall_impl; [exact Hall |]. by intros c [_ H].
Qed.

Lemma csv_field_no_newline (v : jsstring) : clean_value v -> newline ∉ csv_field v.
Proof.
  intros (Hq & Hn & _). unfold csv_field.
  destruct (includes_char comma v || includes_char quote v); [| done].
  rewrite double_quotes_plain by done.
  rewrite not_elem_of_cons, elem_of_app, list_elem_of_singleton.
  split; [discriminate |]. intros [H|H]; [done | discriminate].
Qed.

Lemma csv_field_ends_clean (v : jsstring) :
  clean_value v -> ends_clean (csv_field v).
Proof.
  intros (_ & _ & Ht). unfold csv_field.
  destruct (includes_char comma v || includes_char quote v).
  - rewrite app_comm_cons. by apply ends_clean_snoc.
  - by apply trim_fix in Ht as [_ H].
Qed.

End CsvLineFacts.

Section CsvRoundTrip.

Variable columns : list jsstring.

Lemma csv_line_fields (r : row) :
  csv_line columns r = join [comma] (csv_field <$> row_values columns r).
Proof.
  unfold csv_line, row_values. f_equal.
  rewrite <- list_fmap_compose. done.
Qed.

Lemma row_values_clean (r : row) : clean_row columns r -> Forall clean_value (row_values columns r).
Proof. unfold clean_row, row_values. by rewrite Forall_fmap. Qed.

Lemma imap_keys {A : Type} (f : nat -> nat) (l : list A) :
  snd <$> imap (fun i k => (f i, k)) l = l.
Proof.
  revert f. induction l as [|x l IH]; intros f; [done |].
  rewrite imap_cons, fmap_cons. cbn [snd]. f_equal. apply (IH (f ∘ S)).
Qed.

Lemma build_row_fold (values : list jsstring) (g : jsstring -> jsstring)
    (l : list (nat * jsstring)) :
  forall acc : row,
    Forall (fun ik => trim (snd ik) = snd ik /\ snd ik <> proto_key
                      /\ or_empty (trim <$> (values !! fst ik)) = g (snd ik)) l ->
    forall col,
      fold_left
        (fun (r : row) (ik : nat * jsstring) =>
           assign r (trim (snd ik)) (or_empty (trim <$> (values !! fst ik))))
        l acc !! col
      = if decide (col ∈ snd <$> l) then Some (g col) else acc !! col.
Proof.
  induction l as [|ik l IH]; intros acc Hall col.
  - cbn [fold_left]. rewrite decide_False; [done | apply not_elem_of_nil].
  - apply Forall_cons in Hall as [(Hk & Hp & Hv) Hall].
    cbn [fold_left]. rewrite IH by done. rewrite Hk, Hv, fmap_cons.
    unfold assign. apply str_eqb_neq in Hp. rewrite Hp.
    destruct (decide (col ∈ snd <$> l)) as [Hin|Hnin].
    + rewrite decide_True; [done | by apply elem_of_cons; right].
    + destruct (decide (snd ik = col)) as [<-|Hne].
      * rewrite lookup_insert_eq.
        rewrite decide_True; [done | by apply elem_of_cons; left].
      * rewrite lookup_insert_ne by done.
        rewrite decide_False; [done |].
        rewrite not_elem_of_cons. split; [congruence | done].
Qed.

(** The record parseCSV builds from a header and a line of values that
    were written for the same columns. *)
Lemma build_row_lookup (r : row) col :
  Forall clean_column columns -> (proto_key ∉ columns) ->
  clean_row columns r -> col ∈ columns ->
  build_row columns (row_values columns r) !! col = Some (field r col).
Proof.
  intros Hcols Hproto Hrow Hin. unfold build_row.
  rewrite (build_row_fold (row_values columns r) (field r)).
  - rewrite (imap_keys (fun i => i)). by rewrite decide_True.
  - apply Forall_forall. intros [i key] Hik.
    apply elem_of_lookup_imap in Hik as (i' & key' & [= -> ->] & Hlook).
    cbn [fst snd].
    assert (key' ∈ columns) as Hkey by (by eapply list_elem_of_lookup_2).
    unfold clean_row in Hrow.
    rewrite Forall_forall in Hcols. rewrite Forall_forall in Hrow.
    destruct (Hcols _ Hkey) as (_ & _ & _ & Htk).
    destruct (Hrow _ Hkey) as (_ & _ & Htv).
    split; [done |]. split; [by intros -> |].
    unfold row_values. rewrite list_lookup_fmap, Hlook. cbn. done.
Qed.

Lemma parse_rows (data : list row) :
  columns <> [] -> Forall (clean_row columns) data ->
  flat_map
    (fun line =>
       match parseCSVLine line with
       | [] => []
       | _ => [build_row columns (parseCSVLine line)]
       end)
    (map (csv_line columns) data)
  = (fun r => build_row columns (row_values columns r)) <$> data.
Proof.
  intros Hne Hall. induction Hall as [|r data Hr _ IH]; [done |].
  cbn [map flat_map]. rewrite IH, fmap_cons.
  rewrite csv_line_fields, parseCSVLine_fields.
  - unfold row_values at 1. by destruct columns.
  - unfold row_values. by destruct columns.
  - by apply row_values_clean.
Qed.

Lemma header_no_newline :
  Forall clean_column columns -> newline ∉ join [comma] columns.
Proof.
  intros Hcols. apply join_not_elem.
  - rewrite list_elem_of_singleton. discriminate.
  - eapply Forall_impl; [exact Hcols |]. by intros c (_ & _ & H & _).
Qed.

Lemma csv_line_no_newline (r : row) : clean_row columns r -> newline ∉ csv_line columns r.
Proof.
  intros Hr. rewrite csv_line_fields. apply join_not_elem.
  - rewrite list_elem_of_singleton. discriminate.
  - rewrite Forall_fmap. eapply Forall_impl; [apply row_values_clean, Hr |].
    intros v Hv. by apply csv_field_no_newline.
Qed.

Lemma header_starts_clean :
  Forall clean_column columns -> starts_clean (join [comma] columns).
Proof.
  intros Hcols. destruct columns as [|c cs]; [done |].
  apply Forall_cons in Hcols as [(_ & _ & _ & Ht) _].
  apply trim_fix in Ht as [Hs _].
  destruct cs as [|c' cs]; [done |]. rewrite join_cons_cons.
  destruct c as [|x c]; [done | done].
Qed.

Lemma csv_line_ends_clean (r : row) : clean_row columns r -> ends_clean (csv_line columns r).
Proof.
  intros Hr. rewrite csv_line_fields.
  pose proof (row_values_clean r Hr) as Hv.
  destruct (row_values columns r) as [|v vs] eqn:Hvals; [done |].
  destruct (exists_last (l := v :: vs)) as (init & vlast & Heq); [done |].
  rewrite Heq in *. clear Heq.
  apply Forall_app in Hv as [_ Hlast]. apply Forall_cons in Hlast as [Hlast _].
  rewrite fmap_app. cbn [fmap list_fmap].
  destruct (decide (init = [])) as [->|Hinit].
  - cbn. by apply csv_field_ends_clean.
  - rewrite join_snoc by (by destruct init).
    destruct (csv_field vlast) as [|x f] eqn:Hf.
    + rewrite app_nil_r. by apply ends_clean_snoc.
    + rewrite app_assoc. apply ends_clean_app; [done |].
      rewrite <- Hf. by apply csv_field_ends_clean.
Qed.

(** The written text has no whitespace at either end as soon as its
    first and last lines are not empty, so [content.trim()] leaves it. *)
Lemma toCSV_trim (data : list row) :
  data <> [] -> Forall clean_column columns -> Forall (clean_row columns) data ->
  join [comma] columns <> [] ->
  (forall r, last data = Some r -> csv_line columns r <> []) ->
  trim (toCSV data columns) = toCSV data columns.
Proof.
  intros Hdata Hcols Hrows Hheader Hlast. apply trim_fix.
  destruct (exists_last Hdata) as (init & rlast & ->).
  assert (toCSV (init ++ [rlast]) columns
          = join [newline] ((join [comma] columns :: map (csv_line columns) init)
                            ++ [csv_line columns rlast])) as ->.
  { unfold toCSV. destruct (init ++ [rlast]) eqn:E; [by destruct init |].
    rewrite <- E. by rewrite map_app. }
  rewrite join_snoc by done.
  specialize (Hlast rlast (last_snoc _ _)).
  apply Forall_app in Hrows as [_ Hr]. apply Forall_cons in Hr as [Hr _].
  split.
  - destruct (map (csv_line columns) init) as [|l ls].
    + cbn [join]. apply starts_clean_app; [done | by apply header_starts_clean].
    + rewrite join_cons_cons, <- !app_assoc.
      apply starts_clean_app; [done | by apply header_starts_clean].
  - rewrite app_assoc. apply ends_clean_app; [done |].
    by apply csv_line_ends_clean.
Qed.

End CsvRoundTrip.

Section CsvClaims.

Lemma parseCSV_toCSV (data : list row) (columns : list jsstring) :
  data <> [] ->
  Forall clean_column columns ->
  Forall (clean_row columns) data ->
  join [comma] columns <> [] ->
  (forall r, last data = Some r -> csv_line columns r <> []) ->
  parseCSV (toCSV data columns)
  = (fun r => build_row columns (row_values columns r)) <$> data.
Proof.
  intros Hdata Hcols Hrows Hheader Hlast.
  assert (Hne : columns <> []) by (by intros ->).
  unfold parseCSV. rewrite toCSV_trim by done.
  assert (toCSV data columns
          = join [newline] (join [comma] columns :: map (csv_line columns) data))
    as -> by (by destruct data).
  rewrite split_join.
  - destruct data as [|r data]; [done |]. cbn [map length Nat.ltb Nat.leb hd tl].
    rewrite parseCSVLine_header by done.
    by rewrite <- (parse_rows columns (r :: data)).
  - done.
  - constructor; [by apply header_no_newline |].
    clear Hdata Hlast. induction Hrows as [|r data Hr _ IH]; [constructor |].
    cbn [map]. constructor; [by apply csv_line_no_newline | done].
Qed.

(** C3 as amended: for a non-empty list of records and columns whose
    names have no comma, quote or newline, equal their trim and are not
    __proto__, when every written value has no quote and no newline and
    equals its trim, and the header line and the last data line are not
    empty, parseCSV of toCSV gives one record per input record, in order,
    holding as an own property under every column the value that was
    written; values with commas are included.  The written value is the
    record's own value, the empty string when it has none, or the text of
    the Object.prototype member when the column names one the record does
    not own. *)
Theorem csv_round_trip (data : list row) (columns : list jsstring) :
  data <> [] ->
  Forall clean_column columns ->
  (proto_key ∉ columns) ->
  Forall (clean_row columns) data ->
  join [comma] columns <> [] ->
  (forall r, last data = Some r -> csv_line columns r <> []) ->
  Forall2
    (fun r parsed : row =>
       forall col, col ∈ columns -> parsed !! col = Some (field r col))
    data (parseCSV (toCSV data columns)).
Proof.
  intros Hdata Hcols Hproto Hrows Hheader Hlast.
  rewrite parseCSV_toCSV by done. clear Hdata Hlast.
  induction Hrows as [|r data Hr _ IH]; [constructor |].
  rewrite fmap_cons. constructor; [| done].
  intros col Hin. by apply build_row_lookup.
Qed.

Lemma csv_round_trip_witness :
  two_records <> []
  /\ Forall clean_column [name_col; wallet_col]
  /\ (proto_key ∉ [name_col; wallet_col])
  /\ Forall (clean_row [name_col; wallet_col]) two_records
  /\ Forall2
       (fun r parsed : row =>
          forall col, col ∈ [name_col; wallet_col] ->
                      parsed !! col = Some (field r col))
       two_records (parseCSV (toCSV two_records [name_col; wallet_col])).
Proof.
  assert (H1 : Forall clean_column [name_col; wallet_col])
    by (apply (bool_decide_unpack _); vm_compute; exact I).
  assert (H2 : Forall (clean_row [name_col; wallet_col]) two_records)
    by (apply (bool_decide_unpack _); vm_compute; exact I).
  assert (H3 : proto_key ∉ [name_col; wallet_col])
    by (apply (bool_decide_unpack _); vm_compute; exact I).
  split; [discriminate |]. split; [exact H1 |]. split; [exact H3 |].
  split; [exact H2 |].
  apply csv_round_trip.
  - discriminate.
  - exact H1.
  - exact H3.
  - exact H2.
  - vm_compute; discriminate.
  - intros r [= <-]. vm_compute; discriminate.
Defined.

(** What the round trip loses: a quote character inside a value, the
    whitespace around a value, a line break inside a value, a last record
    whose line is empty, and a value under the column __proto__, which the
    parsed record neither owns nor reads back. *)
Lemma csv_round_trip_loses :
  names_of (parseCSV (toCSV [record quoted_name []] [name_col]))
    = [Some ("Jane JD Doe" : jsstring)]
  /\ names_of (parseCSV (toCSV [record quoted_name []] [name_col]))
     <> [Some quoted_name]
  /\ names_of (parseCSV (toCSV [record " Jane" []] [name_col]))
     = [Some ("Jane" : jsstring)]
  /\ names_of (parseCSV (toCSV [record ("Jane" ++ newline :: "Doe") []] [name_col]))
     = [Some ("Jane" : jsstring); Some ("Doe" : jsstring)]
  /\ names_of (parseCSV (toCSV [record "Jane" []; record [] []] [name_col]))
     = [Some ("Jane" : jsstring)]
  /\ toCSV [proto_record "x"] [proto_key]
     = proto_key ++ newline :: ("x" : jsstring)
  /\ (fun parsed : row => (parsed !! proto_key, field parsed proto_key))
       <$> parseCSV (toCSV [proto_record "x"] [proto_key])
     = [(None, "[object Object]" : jsstring)].
Proof.
  split; [vm_compute; reflexivity |]. split; [vm_compute; discriminate |].
  split; [vm_compute; reflexivity |]. split; [vm_compute; reflexivity |].
  split; [vm_compute; reflexivity |]. split; vm_compute; reflexivity.
Qed.

End CsvClaims.

(* ================================================================== *)
(** * Part III: further properties of the code                         *)
(* ================================================================== *)

(** ** The similarity scorer *)

Section EditDistance.

Lemma edit_distance_nil_l (b : jsstring) : edit_distance [] b = length b.
Proof. by destruct b. Qed.

Lemma edit_distance_nil_r (a : jsstring) : edit_distance a [] = length a.
Proof. by destruct a. Qed.

Lemma edit_distance_cons x y (a b : jsstring) :
  edit_distance (x :: a) (y :: b)
  = Nat.min (Nat.min (edit_distance a (y :: b) + 1) (edit_distance (x :: a) b + 1))
      (edit_distance a b + (if Ascii.eqb x y then 0 else 1)).
Proof. done. Qed.

Lemma edit_distance_sym (a b : jsstring) : edit_distance a b = edit_distance b a.
Proof.
  revert b. induction a as [|x a IHa]; intros b.
  - by rewrite edit_distance_nil_l, edit_distance_nil_r.
  - induction b as [|y b IHb].
    + by rewrite edit_distance_nil_l, edit_distance_nil_r.
    + rewrite !edit_distance_cons, IHb, (IHa (y :: b)), (IHa b).
      replace (Ascii.eqb y x) with (Ascii.eqb x y) by apply Ascii.eqb_sym.
      lia.
Qed.

Lemma edit_distance_upper (a b : jsstring) :
  (edit_distance a b <= Nat.max (length a) (length b))%nat.
Proof.
  revert b. induction a as [|x a IHa]; intros b.
  - rewrite edit_distance_nil_l. lia.
  - destruct b as [|y b].
    + rewrite edit_distance_nil_r. lia.
    + rewrite edit_distance_cons. specialize (IHa b). cbn [length].
      destruct (Ascii.eqb x y); lia.
Qed.

Lemma edit_distance_zero (a b : jsstring) : edit_distance a b = 0%nat <-> a = b.
Proof.
  revert b. induction a as [|x a IHa]; intros b.
  - rewrite edit_distance_nil_l. destruct b; [done |]. split; discriminate.
  - destruct b as [|y b].
    + rewrite edit_distance_nil_r. split; discriminate.
    + rewrite edit_distance_cons. specialize (IHa b).
      destruct (Ascii.eqb_spec x y) as [->|Hne]; split.
      * intros H. f_equal. apply IHa. lia.
      * intros [= ->]. assert (edit_distance b b = 0%nat) by (by apply IHa). lia.
      * lia.
      * intros [= -> ->]. done.
Qed.

(** The recurrence on the last characters, which is the one the matrix
    is filled by. *)
Lemma edit_distance_snoc (a b : jsstring) x y :
  edit_distance (a ++ [x]) (b ++ [y])
  = Nat.min (Nat.min (edit_distance a (b ++ [y]) + 1) (edit_distance (a ++ [x]) b + 1))
      (edit_distance a b + (if Ascii.eqb x y then 0 else 1)).
Proof.
  remember (length a + length b)%nat as n eqn:Hn.
  revert a b Hn. induction n as [n IH] using lt_wf_ind. intros a b Hn.
  assert (Hlen_snoc : forall (l : jsstring) c, length (l ++ [c]) = S (length l)).
  { intros l c. rewrite length_app. simpl. lia. }
  destruct a as [|a0 a], b as [|b0 b].
  - cbn. destruct (Ascii.eqb x y); lia.
  - cbn [app]. rewrite !edit_distance_cons.
    assert (H1 := IH (length b) ltac:(cbn in Hn; lia) [] b ltac:(done)).
    cbn [app] in H1. rewrite H1.
    rewrite ?edit_distance_nil_l, ?Hlen_snoc. cbn [length].
    rewrite ?Hlen_snoc.
    destruct (Ascii.eqb x y), (Ascii.eqb x b0); lia.
  - cbn [app]. rewrite !edit_distance_cons.
    assert (H1 := IH (length a) ltac:(cbn in Hn; lia) a [] ltac:(cbn; lia)).
    cbn [app] in H1. rewrite H1.
    rewrite ?edit_distance_nil_r, ?Hlen_snoc. cbn [length].
    rewrite ?Hlen_snoc.
    destruct (Ascii.eqb x y), (Ascii.eqb a0 y); lia.
  - cbn [app]. rewrite !edit_distance_cons.
    cbn [length] in Hn.
    assert (H1 := IH (length a + length (b0 :: b))%nat ltac:(cbn; lia)
                    a (b0 :: b) ltac:(done)).
    assert (H2 := IH (length (a0 :: a) + length b)%nat ltac:(cbn; lia)
                    (a0 :: a) b ltac:(done)).
    assert (H3 := IH (length a + length b)%nat ltac:(lia) a b ltac:(done)).
    cbn [app] in H1, H2.
    rewrite H1, H2, H3. clear.
    repeat match goal with
           | |- context [edit_distance ?u ?v] =>
               generalize (edit_distance u v); intro
           end.
    generalize (if Ascii.eqb x y then 0%nat else 1%nat).
    generalize (if Ascii.eqb a0 b0 then 0%nat else 1%nat). intros.
    rewrite <- !Nat.add_min_distr_r.
    apply Nat.le_antisymm; repeat apply Nat.min_glb; lia.
Qed.

Lemma prefixes_from_head (q rest : jsstring) :
  exists tail, prefixes_from q rest = q :: tail.
Proof. destruct rest; simpl; eauto. Qed.

Lemma prefixes_from_last (q rest : jsstring) (d : jsstring) :
  List.last (prefixes_from q rest) d = q ++ rest.
Proof.
  revert q. induction rest as [|c rest IH]; intros q.
  - simpl. by rewrite app_nil_r.
  - cbn [prefixes_from]. destruct (prefixes_from_head (q ++ [c]) rest) as [tail Ht].
    specialize (IH (q ++ [c])). rewrite Ht in *.
    change (List.last (q :: (q ++ [c]) :: tail) d)
      with (List.last ((q ++ [c]) :: tail) d).
    rewrite IH. by rewrite <- app_assoc.
Qed.

Lemma first_row (q rest : jsstring) :
  seq (length q) (S (length rest)) = map (edit_distance []) (prefixes_from q rest).
Proof.
  revert q. induction rest as [|d rest IH]; intros q.
  - simpl. by rewrite edit_distance_nil_l.
  - cbn [prefixes_from map length]. rewrite <- cons_seq.
    rewrite edit_distance_nil_l. f_equal.
    specialize (IH (q ++ [d])). rewrite length_app in IH. cbn [length] in IH.
    rewrite <- IH. f_equal. lia.
Qed.

(** One row of the matrix from the row above. *)
Lemma fill_row_spec c (p : jsstring) (rest : jsstring) :
  forall q : jsstring,
    fill_row c rest (map (edit_distance p) (prefixes_from q rest))
      (edit_distance (p ++ [c]) q)
    = map (edit_distance (p ++ [c])) (tl (prefixes_from q rest)).
Proof.
  induction rest as [|d rest IH]; intros q; [done |].
  cbn [prefixes_from map tl].
  destruct (prefixes_from_head (q ++ [d]) rest) as [tail Ht].
  specialize (IH (q ++ [d])). rewrite Ht in *. cbn [map tl] in *.
  cbn [fill_row]. rewrite <- edit_distance_snoc. f_equal. exact IH.
Qed.

Lemma fill_matrix_spec (s2 : jsstring) (s1 : jsstring) :
  forall p : jsstring,
    fill_matrix s1 s2 (length p) (map (edit_distance p) (prefixes_from [] s2))
    = map (edit_distance (p ++ s1)) (prefixes_from [] s2).
Proof.
  induction s1 as [|c s1 IH]; intros p.
  - simpl. by rewrite app_nil_r.
  - cbn [fill_matrix].
    destruct (prefixes_from_head [] s2) as [tail Ht].
    pose proof (fill_row_spec c p s2 []) as Hrow.
    rewrite edit_distance_nil_r, length_app in Hrow. cbn [length] in Hrow.
    replace (length p + 1)%nat with (S (length p)) in Hrow by lia.
    rewrite Hrow.
    specialize (IH (p ++ [c])). rewrite length_app in IH. cbn [length] in IH.
    replace (length p + 1)%nat with (S (length p)) in IH by lia.
    rewrite Ht in *. cbn [map tl] in *.
    rewrite edit_distance_nil_r, length_app in IH. cbn [length] in IH.
    replace (length p + 1)%nat with (S (length p)) in IH by lia.
    rewrite IH. by rewrite <- app_assoc.
Qed.

Lemma last_map_default {A B : Type} (f : A -> B) (l : list A) (d : A) :
  List.last (map f l) (f d) = f (List.last l d).
Proof.
  induction l as [|x l IH]; [done |]. destruct l as [|y l]; [done |].
  exact IH.
Qed.

Lemma levenshtein_edit_distance (s1 s2 : jsstring) :
  levenshtein s1 s2 = edit_distance s1 s2.
Proof.
  unfold levenshtein.
  pose proof (first_row [] s2) as Hfirst. cbn [length] in Hfirst.
  rewrite Hfirst.
  pose proof (fill_matrix_spec s2 s1 []) as H. cbn [length app] in H.
  rewrite H.
  assert (edit_distance s1 s1 = 0%nat) as Hz by (by apply edit_distance_zero).
  rewrite <- Hz at 1. rewrite last_map_default.
  by rewrite prefixes_from_last.
Qed.

End EditDistance.

Section SimilarityFacts.

Local Open Scope Q_scope.

Lemma similarity_unfold (str1 str2 : jsstring) :
  similarity str1 str2
  = if str_eqb (canonical str1) (canonical str2) then 1
    else if (length (canonical str1) =? 0)%nat || (length (canonical str2) =? 0)%nat
         then 0
         else 1 - (Z.of_nat (edit_distance (canonical str1) (canonical str2))
                   # Pos.of_nat (Nat.max (length (canonical str1))
                                         (length (canonical str2)))).
Proof. unfold similarity, canonical. by rewrite levenshtein_edit_distance. Qed.

Lemma score_den (m : nat) : (1 <= m)%nat -> Z.pos (Pos.of_nat m) = Z.of_nat m.
Proof.
  intros H. destruct m as [|m]; [lia |].
  rewrite <- Pos.of_nat_succ, Zpos_P_of_succ_nat. lia.
Qed.

Lemma score_bounds (d m : nat) :
  (1 <= m)%nat -> (d <= m)%nat ->
  0 <= 1 - (Z.of_nat d # Pos.of_nat m) /\ 1 - (Z.of_nat d # Pos.of_nat m) <= 1.
Proof.
  intros Hm Hd. unfold Qle, Qminus, Qplus, Qopp. cbn [Qnum Qden].
  rewrite !Pos2Z.inj_mul, score_den by done. split; nia.
Qed.

Lemma score_below_one (d m : nat) :
  (1 <= m)%nat -> (1 <= d)%nat -> ~ 1 - (Z.of_nat d # Pos.of_nat m) == 1.
Proof.
  intros Hm Hd. unfold Qeq, Qminus, Qplus, Qopp. cbn [Qnum Qden].
  rewrite !Pos2Z.inj_mul, score_den by done. nia.
Qed.

Lemma similarity_sym (str1 str2 : jsstring) :
  similarity str1 str2 = similarity str2 str1.
Proof.
  rewrite !similarity_unfold.
  rewrite (edit_distance_sym (canonical str2)), (Nat.max_comm (length (canonical str2))).
  rewrite (orb_comm (length (canonical str2) =? 0)%nat).
  unfold str_eqb. by rewrite (bool_decide_ext _ _ (symmetry_iff (=) _ _)).
Qed.

Lemma similarity_cases (str1 str2 : jsstring) :
  (canonical str1 = canonical str2 /\ similarity str1 str2 = 1)
  \/ (canonical str1 <> canonical str2
      /\ (canonical str1 = [] \/ canonical str2 = [])
      /\ similarity str1 str2 = 0)
  \/ (canonical str1 <> canonical str2
      /\ canonical str1 <> [] /\ canonical str2 <> []
      /\ similarity str1 str2
         = 1 - (Z.of_nat (edit_distance (canonical str1) (canonical str2))
                # Pos.of_nat (Nat.max (length (canonical str1))
                                      (length (canonical str2))))).
Proof.
  rewrite similarity_unfold.
  destruct (str_eqb (canonical str1) (canonical str2)) eqn:He.
  { left. by apply str_eqb_eq in He. }
  apply str_eqb_neq in He. right.
  destruct ((length (canonical str1) =? 0)%nat || (length (canonical str2) =? 0)%nat)
    eqn:Hz.
  - left. split; [done |]. split; [| done].
    apply orb_true_iff in Hz as [Hz|Hz]; apply Nat.eqb_eq in Hz;
      [left | right]; by apply length_zero_iff_nil.
  - right. apply orb_false_iff in Hz as [H1 H2].
    apply Nat.eqb_neq in H1, H2.
    split; [done |]. split; [by intros E; rewrite E in H1 |].
    split; [by intros E; rewrite E in H2 | done].
Qed.

End SimilarityFacts.

Section SimilarityClaims.

Local Open Scope Q_scope.

(** X1: the matrix that similarity fills holds the edit distance: its
    last cell is the least number of single-character insertions,
    deletions and substitutions, as the usual recurrence defines it. *)
Theorem levenshtein_is_edit_distance (s1 s2 : jsstring) :
  levenshtein s1 s2 = edit_distance s1 s2.
Proof. apply levenshtein_edit_distance. Qed.

(** X2: similarity does not depend on the order of its arguments. *)
Theorem similarity_symmetric (str1 str2 : jsstring) :
  similarity str1 str2 = similarity str2 str1.
Proof. apply similarity_sym. Qed.

(** X3: a score lies between 0 and 1. *)
Theorem similarity_in_unit_interval (str1 str2 : jsstring) :
  0 <= similarity str1 str2 /\ similarity str1 str2 <= 1.
Proof.
  destruct (similarity_cases str1 str2)
    as [[_ ->]|[(_ & _ & ->)|(Hne & H1 & H2 & ->)]]; [done | done |].
  apply score_bounds.
  - destruct (canonical str1); [done | cbn [length]; lia].
  - apply edit_distance_upper.
Qed.

(** X4: the score is 1 exactly when the two strings agree once
    lower-cased and trimmed, and it is 0 when exactly one of them is then
    empty. *)
Theorem similarity_one_iff (str1 str2 : jsstring) :
  (similarity str1 str2 == 1 <-> canonical str1 = canonical str2)
  /\ (canonical str1 <> canonical str2 ->
      canonical str1 = [] \/ canonical str2 = [] ->
      similarity str1 str2 = 0).
Proof.
  destruct (similarity_cases str1 str2)
    as [[He ->]|[(Hne & Hz & ->)|(Hne & H1 & H2 & ->)]].
  - split; [done | by intros []].
  - split; [| done]. split; [discriminate | done].
  - split; [| by intros _ [E|E]].
    split; [| done]. intros Hd. exfalso. revert Hd. apply score_below_one.
    + destruct (canonical str1); [done | cbn [length]; lia].
    + destruct (edit_distance (canonical str1) (canonical str2)) eqn:Hd0; [| lia].
      by apply edit_distance_zero in Hd0.
Qed.

End SimilarityClaims.

(** ** Trimming and the name normalizer *)

Section TrimMore.

Lemma trimStart_starts_clean (s : jsstring) : starts_clean (trimStart s).
Proof.
  induction s as [|c s IH]; [done |]. simpl.
  destruct (is_ws c) eqn:Hc; [done | by simpl].
Qed.

Lemma trimEnd_prefix (s : jsstring) : exists suf, s = trimEnd s ++ suf.
Proof.
  unfold trimEnd. destruct (trimStart_suffix (rev s)) as [pre H].
  exists (rev pre). rewrite <- rev_app_distr, <- H. by rewrite rev_involutive.
Qed.

Lemma trim_clean (s : jsstring) : starts_clean (trim s) /\ ends_clean (trim s).
Proof.
  unfold trim. split.
  - pose proof (trimStart_starts_clean s) as Hs.
    destruct (trimEnd_prefix (trimStart s)) as [suf H].
    destruct (trimEnd (trimStart s)) as [|c t]; [done |].
    rewrite H in Hs. exact Hs.
  - unfold ends_clean, trimEnd. rewrite rev_involutive.
    apply trimStart_starts_clean.
Qed.

Lemma trim_idem (s : jsstring) : trim (trim s) = trim s.
Proof. apply trim_fix, trim_clean. Qed.

Lemma elem_of_trimStart c (s : jsstring) : c ∈ trimStart s -> c ∈ s.
Proof.
  destruct (trimStart_suffix s) as [pre H]. intros Hc.
  rewrite H. apply elem_of_app. by right.
Qed.

Lemma elem_of_trim c (s : jsstring) : c ∈ trim s -> c ∈ s.
Proof.
  unfold trim. intros Hc. apply elem_of_trimStart.
  destruct (trimEnd_prefix (trimStart s)) as [suf H].
  rewrite H. apply elem_of_app. by left.
Qed.

Lemma trim_nil_of_blank (s : jsstring) :
  Forall (fun c => is_ws c = true) s -> trim s = [].
Proof.
  intros H. unfold trim.
  assert (trimStart s = []) as ->; [| done].
  induction H as [|c s Hc _ IH]; [done |]. simpl. by rewrite Hc.
Qed.

End TrimMore.

Section NormalizeMore.

Lemma collapse_ws_spaced in_run (s : jsstring) : spaced in_run (collapse_ws in_run s).
Proof.
  revert in_run. induction s as [|c s IH]; intros in_run; [done |].
  cbn [collapse_ws]. destruct (is_ws c) eqn:Hc.
  - destruct in_run; [apply IH |].
    cbn [spaced]. split; [done |]. apply (IH true).
  - cbn [spaced]. rewrite Hc. split; [done | apply IH].
Qed.

Lemma spaced_lookup (s : jsstring) :
  forall prev i c d,
    spaced prev s -> s !! i = Some c -> is_ws c = true -> s !! S i = Some d ->
    is_ws d = false.
Proof.
  induction s as [|x s IH]; intros prev i c d Hs Hi Hc Hd; [done |].
  destruct Hs as [_ Hs]. destruct i as [|i].
  - injection Hi as ->. destruct s as [|y s]; [done |].
    injection Hd as ->. destruct Hs as [Hy _]. by apply Hy.
  - by apply (IH (is_ws x) i c d).
Qed.

Lemma collapse_ws_starts_clean (s : jsstring) :
  starts_clean s -> starts_clean (collapse_ws false s).
Proof.
  destruct s as [|c s]; [done |]. simpl. intros Hc. by rewrite Hc.
Qed.

Lemma collapse_ws_snoc in_run (s : jsstring) c :
  is_ws c = false -> collapse_ws in_run (s ++ [c]) = collapse_ws in_run s ++ [c].
Proof.
  intros Hc. revert in_run. induction s as [|x s IH]; intros in_run.
  - cbn. by rewrite Hc.
  - cbn [app collapse_ws]. destruct (is_ws x); [destruct in_run |];
      by rewrite IH.
Qed.

Lemma collapse_ws_ends_clean (s : jsstring) :
  ends_clean s -> ends_clean (collapse_ws false s).
Proof.
  destruct (decide (s = [])) as [->|Hne]; [done |].
  destruct (exists_last Hne) as (l & c & ->).
  unfold ends_clean at 1. rewrite rev_app_distr. cbn [rev app starts_clean].
  intros Hc. rewrite collapse_ws_snoc by done. by apply ends_clean_snoc.
Qed.

Lemma elem_of_collapse_ws in_run (s : jsstring) c :
  c ∈ collapse_ws in_run s -> c = " "%char \/ (c ∈ s /\ is_ws c = false).
Proof.
  revert in_run. induction s as [|x s IH]; intros in_run.
  - by intros ?%elem_of_nil.
  - cbn [collapse_ws]. destruct (is_ws x) eqn:Hx.
    + destruct in_run.
      * intros H. destruct (IH _ H) as [?|[? ?]]; [by left |].
        right. split; [by apply elem_of_cons; right | done].
      * intros [->|H]%elem_of_cons; [by left |].
        destruct (IH _ H) as [?|[? ?]]; [by left |].
        right. split; [by apply elem_of_cons; right | done].
    + intros [->|H]%elem_of_cons.
      * right. split; [by apply elem_of_cons; left | done].
      * destruct (IH _ H) as [?|[? ?]]; [by left |].
        right. split; [by apply elem_of_cons; right | done].
Qed.

Lemma letter_lowered c :
  is_ascii_letter c || is_ws c = true ->
  is_lower_az (lower_char c) || is_ws (lower_char c) = true.
Proof. destruct c as [[] [] [] [] [] [] [] []]; vm_compute; congruence. Qed.

Lemma filter_all {A : Type} (P : A -> Prop) `{!forall x, Decision (P x)}
    (l : list A) :
  Forall P l -> filter P l = l.
Proof.
  induction 1 as [|x l Hx _ IH]; [done |].
  by rewrite filter_cons_True, IH.
Qed.

Lemma normalizeName_of_letters (s : jsstring) :
  Forall (fun c => is_ascii_letter c || is_ws c = true) s ->
  normalizeName (Some s) = collapse_ws false (canonical s).
Proof.
  intros Hall. unfold normalizeName, canonical.
  destruct s as [|c0 s0]; [done |]. set (s := c0 :: s0) in *.
  cbn [truthy negb or_empty]. unfold remove_non_alpha. apply filter_all.
  apply Forall_forall. intros c Hc. apply Is_true_true.
  apply elem_of_collapse_ws in Hc as [->|[Hc _]]; [done |].
  apply elem_of_trim in Hc. unfold toLowerCase in Hc.
  apply list_elem_of_In, in_map_iff in Hc as (x & <- & Hx).
  apply letter_lowered. rewrite Forall_forall in Hall.
  apply Hall. by apply list_elem_of_In.
Qed.

(** X5: on a name made of the letters A-Z, a-z and whitespace only,
    normalizeName gives the lower-cased, trimmed name with every run of
    whitespace collapsed: no space at either end and no two spaces in a
    row. *)
Theorem normalizeName_letters_single_spaced (s : jsstring) :
  Forall (fun c => is_ascii_letter c || is_ws c = true) s ->
  normalizeName (Some s) = collapse_ws false (canonical s)
  /\ starts_clean (normalizeName (Some s))
  /\ ends_clean (normalizeName (Some s))
  /\ single_spaced (normalizeName (Some s)).
Proof.
  intros Hall. rewrite (normalizeName_of_letters s Hall).
  destruct (trim_clean (toLowerCase s)) as [Hs He].
  split; [done |]. split; [by apply collapse_ws_starts_clean |].
  split; [by apply collapse_ws_ends_clean |].
  intros i Hi Hsi.
  pose proof (spaced_lookup _ false i " "%char " "%char
                (collapse_ws_spaced false (canonical s)) Hi eq_refl Hsi).
  discriminate.
Qed.

Lemma normalizeName_letters_single_spaced_witness :
  Forall (fun c => is_ascii_letter c || is_ws c = true)
    ("  Ada   LOVELACE " : jsstring)
  /\ normalizeName (Some ("  Ada   LOVELACE " : jsstring))
     = ("ada lovelace" : jsstring)
  /\ single_spaced (normalizeName (Some ("  Ada   LOVELACE " : jsstring))).
Proof.
  assert (H : Forall (fun c => is_ascii_letter c || is_ws c = true)
                ("  Ada   LOVELACE " : jsstring))
    by (apply (bool_decide_unpack _); vm_compute; exact I).
  split; [exact H |]. split; [vm_compute; reflexivity |].
  exact (proj2 (proj2 (proj2
           (normalizeName_letters_single_spaced "  Ada   LOVELACE " H)))).
Defined.

End NormalizeMore.

(** ** The CSV reader on arbitrary input *)

Section CsvReader.

Lemma scan_char_quote_free st c :
  scan_quote_free st -> scan_quote_free (scan_char st c).
Proof.
  intros [Hres Hcur]. unfold scan_char.
  destruct (Ascii.eqb_spec c quote) as [->|Hq]; [done |].
  destruct (Ascii.eqb c comma && negb (inQuotes st)); split; cbn.
  - apply Forall_app. split; [done |]. by apply Forall_singleton.
  - apply not_elem_of_nil.
  - done.
  - rewrite elem_of_app, list_elem_of_singleton. intros [?|?]; [done |].
    by apply Hq.
Qed.

Lemma scan_quote_free_fold (line : jsstring) st :
  scan_quote_free st -> scan_quote_free (fold_left scan_char line st).
Proof.
  revert st. induction line as [|c line IH]; intros st H; [done |].
  cbn [fold_left]. by apply IH, scan_char_quote_free.
Qed.

Lemma scan_result_length (line : jsstring) st :
  (length (result st) <= length (result (fold_left scan_char line st))
   <= length (result st) + length (filter (fun c => c = comma) line))%nat.
Proof.
  revert st. induction line as [|c line IH]; intros st; [cbn; lia |].
  cbn [fold_left]. specialize (IH (scan_char st c)).
  assert (Hstep : (length (result st) <= length (result (scan_char st c))
                   <= length (result st)
                      + length (filter (fun c => c = comma) [c]))%nat).
  { unfold scan_char. destruct (Ascii.eqb_spec c quote) as [->|Hq].
    - cbn [result]. lia.
    - destruct (Ascii.eqb_spec c comma) as [->|Hc]; cbn [andb].
      + assert (length (filter (fun c => c = comma) [comma]) = 1%nat) as ->
          by (vm_compute; reflexivity).
        destruct (negb (inQuotes st)); cbn [result];
          rewrite ?length_app; cbn [length]; lia.
      + cbn [result]. lia. }
  change (c :: line) with ([c] ++ line). rewrite filter_app, length_app. lia.
Qed.

Lemma parseCSVLine_clean (line : jsstring) :
  (1 <= length (parseCSVLine line)
   <= S (length (filter (fun c => c = comma) line)))%nat
  /\ forall f, f ∈ parseCSVLine line -> (quote ∉ f) /\ trim f = f.
Proof.
  unfold parseCSVLine. split.
  - rewrite length_map, length_app. cbn [length].
    pose proof (scan_result_length line (mkScan [] [] false)) as H.
    cbn [result length] in H. lia.
  - intros f Hf. apply list_elem_of_In, in_map_iff in Hf as (s & <- & Hs).
    assert (quote ∉ s) as Hq.
    { destruct (scan_quote_free_fold line (mkScan [] [] false)) as [Hres Hcur].
      { split; [constructor | apply not_elem_of_nil]. }
      apply in_app_or in Hs as [Hs|[<-|[]]]; [| done].
      rewrite Forall_forall in Hres. by apply Hres, list_elem_of_In. }
    rewrite strip_quotes_plain by done. split; [| apply trim_idem].
    intros H. by apply Hq, elem_of_trim.
Qed.

Lemma parseCSVLine_nonempty (line : jsstring) : parseCSVLine line <> [].
Proof.
  destruct (parseCSVLine_clean line) as [[H _] _].
  destruct (parseCSVLine line); [cbn in H; lia | done].
Qed.

Lemma parseCSVLine_trimmed (line : jsstring) :
  trim <$> parseCSVLine line = parseCSVLine line.
Proof.
  destruct (parseCSVLine_clean line) as [_ H].
  induction (parseCSVLine line) as [|f l IH]; [done |].
  rewrite fmap_cons. f_equal.
  - apply H. by apply elem_of_cons; left.
  - apply IH. intros g Hg. apply H. by apply elem_of_cons; right.
Qed.

(** Scanning the doubled value inside quotes appends it with its quote
    characters gone; no comma of it separates. *)
Lemma scan_doubled (v : jsstring) res cur :
  fold_left scan_char (double_quotes v) (mkScan res cur true)
  = mkScan res (cur ++ unquote v) true.
Proof.
  revert cur. induction v as [|c v IH]; intros cur.
  - cbn. by rewrite app_nil_r.
  - unfold double_quotes. cbn [flat_map]. rewrite fold_left_app.
    fold (double_quotes v). unfold unquote.
    destruct (Ascii.eqb_spec c quote) as [->|Hq].
    + rewrite filter_cons_False by (intros H; by apply H).
      assert (fold_left scan_char [quote; quote] (mkScan res cur true)
              = mkScan res cur true) as -> by done.
      apply IH.
    + rewrite filter_cons_True by done.
      assert (fold_left scan_char [c] (mkScan res cur true)
              = mkScan res (cur ++ [c]) true) as ->.
      { cbn [fold_left]. unfold scan_char. cbn [result current inQuotes negb].
        destruct (Ascii.eqb_spec c quote) as [?|_]; [done |].
        by rewrite andb_false_r. }
      rewrite IH. unfold unquote. by rewrite <- app_assoc.
Qed.

Lemma unquote_plain (v : jsstring) : quote ∉ v -> unquote v = v.
Proof.
  intros H. apply filter_all. apply Forall_forall. intros c Hc ->. by apply H.
Qed.

Lemma scan_field_any (v : jsstring) res cur :
  fold_left scan_char (csv_field v) (mkScan res cur false)
  = mkScan res (cur ++ unquote v) false.
Proof.
  unfold csv_field.
  destruct (includes_char comma v || includes_char quote v) eqn:Hinc.
  - cbn [fold_left].
    assert (scan_char (mkScan res cur false) quote = mkScan res cur true) as ->.
    { unfold scan_char. by rewrite Ascii.eqb_refl. }
    rewrite fold_left_app, scan_doubled. cbn [fold_left].
    unfold scan_char. by rewrite Ascii.eqb_refl.
  - apply orb_false_iff in Hinc as [Hc Hq].
    apply includes_char_false in Hc, Hq.
    rewrite unquote_plain by done. by apply scan_plain; auto.
Qed.

Lemma scan_line_any (vals : list jsstring) :
  forall res,
    vals <> [] ->
    let st := fold_left scan_char (join [comma] (csv_field <$> vals))
                (mkScan res [] false) in
    result st ++ [current st] = res ++ (unquote <$> vals).
Proof.
  induction vals as [|v vals IH]; [done |]. intros res _. cbv zeta.
  destruct vals as [|v' vals].
  - cbn [fmap list_fmap join]. by rewrite scan_field_any.
  - rewrite !fmap_cons, join_cons_cons, fold_left_app, scan_field_any.
    cbn [app fold_left]. rewrite scan_comma. cbn [app].
    rewrite <- !fmap_cons. rewrite IH by done.
    by rewrite <- app_assoc.
Qed.

Lemma unquote_no_quote (v : jsstring) : quote ∉ unquote v.
Proof. unfold unquote. intros H. by apply list_elem_of_filter in H as [H _]. Qed.

Lemma parseCSVLine_written (vals : list jsstring) :
  vals <> [] ->
  parseCSVLine (join [comma] (csv_field <$> vals))
  = (fun v => trim (unquote v)) <$> vals.
Proof.
  intros Hne. unfold parseCSVLine.
  pose proof (scan_line_any vals [] Hne) as H. cbv zeta in H. rewrite H.
  cbn [app]. clear H Hne.
  induction vals as [|v vals IH]; [done |].
  rewrite !fmap_cons. cbn [map]. f_equal; [| exact IH].
  by rewrite strip_quotes_plain by apply unquote_no_quote.
Qed.

End CsvReader.

Section CsvRows.

Lemma build_row_set_cell (header values : list jsstring) :
  build_row header values
  = fold_left (set_cell values) (imap (fun index key => (index, key)) header) ∅.
Proof. reflexivity. Qed.

Lemma set_cell_preserve values (l : list (nat * jsstring)) :
  forall (acc : row) k,
    k ∉ ((fun ik => trim (snd ik)) <$> l) ->
    fold_left (set_cell values) l acc !! k = acc !! k.
Proof.
  induction l as [|[i key] l IH]; intros acc k Hk; [done |].
  rewrite fmap_cons, not_elem_of_cons in Hk. destruct Hk as [Hne Hk].
  cbn [fold_left]. rewrite IH by done. unfold set_cell, assign. cbn [fst snd] in *.
  destruct (str_eqb (trim key) proto_key); [done |].
  by rewrite lookup_insert_ne.
Qed.

Lemma set_cell_lookup values (l : list (nat * jsstring)) :
  forall (acc : row) j i key,
    l !! j = Some (i, key) ->
    trim key <> proto_key ->
    trim key ∉ ((fun ik => trim (snd ik)) <$> drop (S j) l) ->
    fold_left (set_cell values) l acc !! trim key
    = Some (or_empty (trim <$> (values !! i))).
Proof.
  induction l as [|[i0 key0] l IH]; intros acc j i key Hj Hp Hlast; [done |].
  destruct j as [|j]; cbn [fold_left].
  - injection Hj as -> ->. cbn [drop] in Hlast.
    rewrite set_cell_preserve by done. unfold set_cell, assign. cbn [fst snd].
    apply str_eqb_neq in Hp. rewrite Hp. by rewrite lookup_insert_eq.
  - by apply (IH _ j).
Qed.

Lemma set_cell_dom values (l : list (nat * jsstring)) :
  forall acc : row,
    dom (fold_left (set_cell values) l acc)
    =@{gset jsstring}
    dom acc ∪ list_to_set (filter (fun k => k <> proto_key)
                             ((fun ik => trim (snd ik)) <$> l)).
Proof.
  induction l as [|[i key] l IH]; intros acc.
  - cbn. set_solver.
  - cbn [fold_left]. rewrite IH, fmap_cons. unfold set_cell at 1, assign.
    cbn [fst snd].
    destruct (decide (trim key = proto_key)) as [Heq|Hne].
    + rewrite Heq, str_eqb_refl. rewrite filter_cons_False by (by intros ?).
      done.
    + apply str_eqb_neq in Hne as Hb. rewrite Hb.
      rewrite filter_cons_True by done.
      rewrite dom_insert_L. cbn [list_to_set]. set_solver.
Qed.

Lemma imap_pairs_keys (header : list jsstring) :
  (fun ik : nat * jsstring => trim (snd ik))
    <$> imap (fun index key => (index, key)) header
  = trim <$> header.
Proof.
  rewrite <- (imap_keys (fun i => i) header) at 2.
  by rewrite <- list_fmap_compose.
Qed.

Lemma build_row_dom (header values : list jsstring) :
  dom (build_row header values)
  =@{gset jsstring}
  list_to_set (filter (fun k => k <> proto_key) (trim <$> header)).
Proof.
  rewrite build_row_set_cell, set_cell_dom, imap_pairs_keys, dom_empty_L.
  set_solver.
Qed.

Lemma build_row_proto (header values : list jsstring) :
  build_row header values !! proto_key = None.
Proof.
  apply not_elem_of_dom. rewrite build_row_dom, elem_of_list_to_set.
  intros [H _]%list_elem_of_filter. by apply H.
Qed.

Lemma build_row_cell (header values : list jsstring) j key :
  header !! j = Some key ->
  trim key <> proto_key ->
  trim key ∉ (trim <$> drop (S j) header) ->
  build_row header values !! trim key = Some (or_empty (trim <$> (values !! j))).
Proof.
  intros Hj Hp Hlast. rewrite build_row_set_cell.
  apply (set_cell_lookup values _ ∅ j j key).
  - by rewrite list_lookup_imap, Hj.
  - done.
  - rewrite fmap_drop, imap_pairs_keys, <- fmap_drop. exact Hlast.
Qed.

Lemma parseCSV_rows (content : jsstring) :
  parseCSV content
  = if (length (csv_lines content) <? 2)%nat then []
    else (fun line =>
            build_row (parseCSVLine (hd [] (csv_lines content)))
                      (parseCSVLine line))
         <$> tl (csv_lines content).
Proof.
  unfold parseCSV, csv_lines.
  destruct (length (split newline (trim content)) <? 2)%nat; [done |].
  induction (tl (split newline (trim content))) as [|line l IH]; [done |].
  cbn [flat_map]. rewrite fmap_cons, IH.
  pose proof (parseCSVLine_nonempty line) as Hne.
  by destruct (parseCSVLine line).
Qed.

(** X6: parseCSVLine never returns an empty list (so the guard of parseCSV
    on an empty list of values never fires), returns at most one field more
    than the line has commas, and every field it returns is trimmed and
    holds no quote character. *)
Theorem parseCSVLine_fields_trimmed_quote_free (line : jsstring) :
  (1 <= length (parseCSVLine line)
   <= S (length (filter (fun c => c = comma) line)))%nat
  /\ forall f, f ∈ parseCSVLine line -> (quote ∉ f) /\ trim f = f.
Proof. apply parseCSVLine_clean. Qed.

(** X7: parseCSV returns one row for every line after the first, also for
    blank lines, and the properties a row owns are exactly the fields of
    the header line other than __proto__, which no row owns. *)
Theorem parseCSV_one_row_per_line (content : jsstring) :
  length (parseCSV content) = (length (csv_lines content) - 1)%nat
  /\ forall r, r ∈ parseCSV content ->
       dom r =@{gset jsstring}
       list_to_set (filter (fun k => k <> proto_key)
                      (parseCSVLine (hd [] (csv_lines content)))).
Proof.
  rewrite parseCSV_rows.
  destruct (length (csv_lines content) <? 2)%nat eqn:Hlen.
  - apply Nat.ltb_lt in Hlen. split; [cbn; lia |].
    by intros r ?%elem_of_nil.
  - split.
    + rewrite length_fmap. destruct (csv_lines content); cbn [tl length]; lia.
    + intros r (line & -> & _)%list_elem_of_fmap.
      by rewrite build_row_dom, parseCSVLine_trimmed.
Qed.

(** X8: the row parseCSV builds for line i+1 owns, under the header field
    at position j, the field of the line at position j, and the empty
    string when the line has no such field; when the header repeats a name
    its last occurrence decides; under a header field __proto__ the row
    owns nothing. *)
Theorem parseCSV_cell_by_position (content line key : jsstring) (i j : nat) :
  csv_lines content !! S i = Some line ->
  parseCSVLine (hd [] (csv_lines content)) !! j = Some key ->
  key ∉ drop (S j) (parseCSVLine (hd [] (csv_lines content))) ->
  exists r, parseCSV content !! i = Some r
            /\ r !! key
               = if decide (key = proto_key) then None
                 else Some (or_empty (parseCSVLine line !! j)).
Proof.
  intros Hline Hkey Hlast. rewrite parseCSV_rows.
  assert ((length (csv_lines content) <? 2)%nat = false) as ->.
  { apply Nat.ltb_ge. apply lookup_lt_Some in Hline. lia. }
  eexists. split.
  - rewrite list_lookup_fmap.
    assert (tl (csv_lines content) !! i = Some line) as ->; [| reflexivity].
    by destruct (csv_lines content).
  - destruct (decide (key = proto_key)) as [->|Hp]; [apply build_row_proto |].
    assert (Hk : trim key = key).
    { eapply parseCSVLine_clean, list_elem_of_lookup_2, Hkey. }
    rewrite <- Hk at 1. rewrite build_row_cell with (j := j).
    + by rewrite <- list_lookup_fmap, parseCSVLine_trimmed.
    + done.
    + by rewrite Hk.
    + rewrite Hk, fmap_drop, parseCSVLine_trimmed. exact Hlast.
Qed.

Lemma parseCSV_cell_by_position_witness :
  exists r, parseCSV roster_csv !! 1%nat = Some r
            /\ r !! wallet_col = Some [].
Proof.
  apply (parseCSV_cell_by_position roster_csv "Bob" wallet_col 1 1).
  - vm_compute. reflexivity.
  - vm_compute. reflexivity.
  - apply (bool_decide_unpack _). vm_compute. exact I.
Defined.

(** X9: reading back a line toCSV wrote gives, column by column, the
    written value with every quote character removed (a doubled quote is
    not read back as one) and then trimmed; commas inside a value survive
    and the number of fields is the number of columns.  The written value
    is the record's own value, the empty string when it has none, or the
    text of the Object.prototype member the column names. *)
Theorem parseCSVLine_of_written_line (columns : list jsstring) (r : row) :
  columns <> [] ->
  parseCSVLine (csv_line columns r)
  = (fun col => trim (unquote (field r col))) <$> columns.
Proof.
  intros Hne. unfold csv_line.
  assert (map (fun col => csv_field (cell_text r col)) columns
          = csv_field <$> (field r <$> columns)) as ->.
  { clear Hne. induction columns as [|c cs IH]; [done |].
    cbn [map]. by rewrite IH. }
  rewrite parseCSVLine_written by (by destruct columns).
  by rewrite <- list_fmap_compose.
Qed.

Lemma parseCSVLine_of_written_line_witness :
  parseCSVLine (csv_line [name_col; wallet_col] (record quoted_name " W1, W2 "))
  = [("Jane JD Doe" : jsstring); ("W1, W2" : jsstring)].
Proof.
  rewrite (parseCSVLine_of_written_line [name_col; wallet_col]
             (record quoted_name " W1, W2 ")) by discriminate.
  vm_compute. reflexivity.
Defined.

End CsvRows.

(** ** The validation report *)

Section ReportFacts.

Lemma map_is_fmap {A B : Type} (f : A -> B) (l : list A) : map f l = f <$> l.
Proof. induction l as [|x l IH]; [done |]. cbn [map]. by rewrite IH. Qed.

Lemma filter_snd_length {A : Type} (P : A -> Prop) (Q : nat * A -> Prop)
    `{!forall x, Decision (P x)} `{!forall ip, Decision (Q ip)}
    (l : list (nat * A)) :
  (forall ip, Q ip <-> P (snd ip)) ->
  length (filter Q l) = length (filter P (snd <$> l)).
Proof.
  intros HQ. induction l as [|[i x] l IH]; [done |]. rewrite fmap_cons. cbn [snd].
  destruct (decide (P x)) as [HP|HP].
  - rewrite !filter_cons_True by (done || by apply HQ). cbn [length]. by rewrite IH.
  - rewrite !filter_cons_False; [done | done |]. by rewrite HQ.
Qed.

Lemma filter_snd_fmap {A : Type} (P : A -> Prop) (Q : nat * A -> Prop)
    `{!forall x, Decision (P x)} `{!forall ip, Decision (Q ip)}
    (l : list (nat * A)) :
  (forall ip, Q ip <-> P (snd ip)) ->
  snd <$> filter Q l = filter P (snd <$> l).
Proof.
  intros HQ. induction l as [|[i x] l IH]; [done |]. rewrite fmap_cons. cbn [snd].
  destruct (decide (P x)) as [HP|HP].
  - rewrite !filter_cons_True by (done || by apply HQ). by rewrite fmap_cons, IH.
  - rewrite !filter_cons_False; [done | done |]. by rewrite HQ.
Qed.

Lemma v_valid_wallet_ok p index :
  v_valid (validateParticipant p index) = true <-> wallet_ok p.
Proof. unfold wallet_ok. by rewrite validateParticipant_valid_wallet. Qed.

Lemma validateParticipant_error_count p index :
  length (errors (validateParticipant p index))
  = if v_valid (validateParticipant p index) then 0%nat else 1%nat.
Proof.
  unfold validateParticipant. cbn [errors v_valid].
  destruct (negb (truthy (wallet p))); [done |].
  by destruct (negb (valid (validateWalletAddress (VStr (or_empty (wallet p)))))).
Qed.

Lemma has_email_test p :
  truthy (email p) && negb (str_eqb (trim (or_empty (email p))) []) = true
  <-> has_email p.
Proof.
  unfold has_email. rewrite andb_true_iff, negb_true_iff.
  split; intros [H1 H2]; (split; [done |]).
  - intros Heq. by rewrite Heq, str_eqb_refl in H2.
  - by apply str_eqb_neq.
Qed.

Lemma filter_cons_length {A : Type} (P : A -> Prop) `{!forall x, Decision (P x)}
    (x : A) (l : list A) :
  length (filter P (x :: l))
  = ((if decide (P x) then 1 else 0) + length (filter P l))%nat.
Proof.
  destruct (decide (P x)) as [HP|HP].
  - by rewrite filter_cons_True.
  - by rewrite filter_cons_False.
Qed.

Lemma report_step_fields r i p :
  total (report_step r (i, p)) = total r
  /\ rep_valid (report_step r (i, p))
     = (rep_valid r + if decide (wallet_ok p) then 1 else 0)%nat
  /\ rep_invalid (report_step r (i, p))
     = (rep_invalid r + if decide (wallet_ok p) then 0 else 1)%nat
  /\ length (rep_errors (report_step r (i, p)))
     = (length (rep_errors r) + if decide (wallet_ok p) then 0 else 1)%nat
  /\ withEmail (report_step r (i, p))
     = (withEmail r + if decide (has_email p) then 1 else 0)%nat
  /\ withoutEmail (report_step r (i, p))
     = (withoutEmail r + if decide (has_email p) then 0 else 1)%nat.
Proof.
  unfold report_step. cbn [fst snd total rep_valid rep_invalid rep_errors
                           withEmail withoutEmail].
  rewrite length_app, validateParticipant_error_count.
  pose proof (v_valid_wallet_ok p i) as Hv.
  pose proof (has_email_test p) as He.
  destruct (v_valid (validateParticipant p i));
    destruct (truthy (email p) && negb (str_eqb (trim (or_empty (email p))) []));
    destruct (decide (wallet_ok p)) as [Hw|Hw];
    destruct (decide (has_email p)) as [Hm|Hm];
    try (exfalso; apply Hv in Hw; discriminate);
    try (exfalso; apply Hw, Hv; reflexivity);
    try (exfalso; apply He in Hm; discriminate);
    try (exfalso; apply Hm, He; reflexivity);
    repeat split; lia.
Qed.

Lemma report_fold_counts (ips : list (nat * Participant)) :
  forall r,
    total (fold_left report_step ips r) = total r
    /\ rep_valid (fold_left report_step ips r)
       = (rep_valid r + length (filter (fun ip => wallet_ok (snd ip)) ips))%nat
    /\ (rep_valid (fold_left report_step ips r)
        + rep_invalid (fold_left report_step ips r)
        = rep_valid r + rep_invalid r + length ips)%nat
    /\ (length (rep_errors (fold_left report_step ips r))
        + rep_invalid r
        = length (rep_errors r) + rep_invalid (fold_left report_step ips r))%nat
    /\ withEmail (fold_left report_step ips r)
       = (withEmail r + length (filter (fun ip => has_email (snd ip)) ips))%nat
    /\ (withEmail (fold_left report_step ips r)
        + withoutEmail (fold_left report_step ips r)
        = withEmail r + withoutEmail r + length ips)%nat.
Proof.
  induction ips as [|[i p] ips IH]; intros r.
  - cbn [fold_left filter list_filter length]. repeat split; lia.
  - cbn [fold_left].
    destruct (IH (report_step r (i, p))) as (H1 & H2 & H3 & H4 & H5 & H6).
    destruct (report_step_fields r i p) as (S1 & S2 & S3 & S4 & S5 & S6).
    rewrite !filter_cons_length. cbn [snd length].
    destruct (decide (wallet_ok p)), (decide (has_email p));
      repeat split; lia.
Qed.

Lemma validateAllParticipants_tally (ps : list Participant) :
  total (validateAllParticipants ps) = length ps
  /\ rep_valid (validateAllParticipants ps) = length (filter wallet_ok ps)
  /\ (rep_valid (validateAllParticipants ps)
      + rep_invalid (validateAllParticipants ps) = length ps)%nat
  /\ withEmail (validateAllParticipants ps) = length (filter has_email ps)
  /\ (withEmail (validateAllParticipants ps)
      + withoutEmail (validateAllParticipants ps) = length ps)%nat
  /\ (ps <> [] ->
      length (rep_errors (validateAllParticipants ps))
      = rep_invalid (validateAllParticipants ps))
  /\ (ps = [] -> length (rep_errors (validateAllParticipants ps)) = 1%nat).
Proof.
  destruct ps as [|p0 ps0]; [cbn; repeat split; done |].
  set (ps := p0 :: ps0). unfold validateAllParticipants.
  change (match ps with [] => _ | _ :: _ => ?b end) with b.
  cbv zeta. cbn [total rep_valid rep_invalid rep_errors withEmail withoutEmail].
  destruct (report_fold_counts (imap (fun index p => (index, p)) ps)
              (mkReport (length ps) 0 0 [] [] [] 0 0 None))
    as (H1 & H2 & H3 & H4 & H5 & H6).
  cbn [total rep_valid rep_invalid rep_errors withEmail withoutEmail length] in *.
  rewrite length_imap in *.
  rewrite (filter_snd_length wallet_ok (fun ip => wallet_ok (snd ip))) in H2
    by done.
  rewrite (filter_snd_length has_email (fun ip => has_email (snd ip))) in H5
    by done.
  rewrite (imap_keys (fun i => i) ps) in H2, H5.
  repeat split; try lia; done.
Qed.

(** X10: the report of validateAllParticipants counts consistently: valid
    is the number of records whose wallet passes validateWalletAddress,
    valid and invalid add up to the total, as do withEmail and
    withoutEmail, withEmail is the number of records with a non-blank
    email, and on a non-empty list there is exactly one error message per
    invalid record (on the empty list, the single message that nothing was
    found). *)
Theorem validateAllParticipants_counts (ps : list Participant) :
  total (validateAllParticipants ps) = length ps
  /\ rep_valid (validateAllParticipants ps) = length (filter wallet_ok ps)
  /\ (rep_valid (validateAllParticipants ps)
      + rep_invalid (validateAllParticipants ps) = length ps)%nat
  /\ withEmail (validateAllParticipants ps) = length (filter has_email ps)
  /\ (withEmail (validateAllParticipants ps)
      + withoutEmail (validateAllParticipants ps) = length ps)%nat
  /\ (ps <> [] ->
      length (rep_errors (validateAllParticipants ps))
      = rep_invalid (validateAllParticipants ps))
  /\ (ps = [] -> length (rep_errors (validateAllParticipants ps)) = 1%nat).
Proof. apply validateAllParticipants_tally. Qed.

End ReportFacts.

(** ** Duplicate groups *)

Section DuplicateGroups.

Lemma fmap_keys_inj {Q K : Type} (f : Q -> K) (l : list Q) x y :
  NoDup (f <$> l) -> x ∈ l -> y ∈ l -> f x = f y -> x = y.
Proof.
  induction l as [|z l IH]; intros Hnd Hx Hy Hf; [by apply elem_of_nil in Hx |].
  rewrite fmap_cons in Hnd. apply NoDup_cons in Hnd as [Hz Hnd].
  apply elem_of_cons in Hx as [->|Hx]; apply elem_of_cons in Hy as [->|Hy].
  - done.
  - exfalso. apply Hz. rewrite Hf. by apply list_elem_of_fmap_2.
  - exfalso. apply Hz. rewrite <- Hf. by apply list_elem_of_fmap_2.
  - by apply IH.
Qed.

Lemma map_get_fmap {Q V : Type} (f : Q -> jsstring) (g : Q -> V) (qs : list Q) q :
  NoDup (f <$> qs) -> q ∈ qs ->
  map_get ((fun q => (f q, g q)) <$> qs) (f q) = Some (g q).
Proof.
  induction qs as [|q0 qs IH]; intros Hnd Hin; [by apply elem_of_nil in Hin |].
  rewrite fmap_cons in Hnd. apply NoDup_cons in Hnd as [Hq0 Hnd].
  rewrite fmap_cons. cbn [map_get].
  destruct (decide (f q0 = f q)) as [Heq|Hne].
  - rewrite Heq, str_eqb_refl.
    apply elem_of_cons in Hin as [->|Hin]; [done |].
    exfalso. apply Hq0. rewrite Heq. by apply list_elem_of_fmap_2.
  - apply str_eqb_neq in Hne as Hb. rewrite Hb. apply IH; [done |].
    apply elem_of_cons in Hin as [->|Hin]; [done | done].
Qed.

Lemma map_get_fmap_None {Q V : Type} (f : Q -> jsstring) (g : Q -> V)
    (qs : list Q) k :
  k ∉ f <$> qs -> map_get ((fun q => (f q, g q)) <$> qs) k = None.
Proof.
  induction qs as [|q0 qs IH]; intros Hk; [done |].
  rewrite fmap_cons in Hk. apply not_elem_of_cons in Hk as [Hne Hk].
  rewrite fmap_cons. cbn [map_get].
  assert (str_eqb (f q0) k = false) as -> by (apply str_eqb_neq; congruence).
  by apply IH.
Qed.

Lemma map_set_fmap_new {Q V : Type} (f : Q -> jsstring) (g : Q -> V)
    (qs : list Q) k v :
  k ∉ f <$> qs ->
  map_set ((fun q => (f q, g q)) <$> qs) k v
  = ((fun q => (f q, g q)) <$> qs) ++ [(k, v)].
Proof.
  induction qs as [|q0 qs IH]; intros Hk; [done |].
  rewrite fmap_cons in Hk. apply not_elem_of_cons in Hk as [Hne Hk].
  rewrite fmap_cons. cbn [map_set].
  assert (str_eqb (f q0) k = false) as -> by (apply str_eqb_neq; congruence).
  by rewrite IH.
Qed.

Lemma map_set_fmap {Q V : Type} (f : Q -> jsstring) (g : Q -> V)
    (qs : list Q) k v :
  NoDup (f <$> qs) -> k ∈ f <$> qs ->
  map_set ((fun q => (f q, g q)) <$> qs) k v
  = (fun q => (f q, if decide (f q = k) then v else g q)) <$> qs.
Proof.
  induction qs as [|q0 qs IH]; intros Hnd Hk; [by apply elem_of_nil in Hk |].
  rewrite fmap_cons in Hnd, Hk. apply NoDup_cons in Hnd as [Hq0 Hnd].
  rewrite !fmap_cons. cbn [map_set].
  destruct (decide (f q0 = k)) as [Heq|Hne].
  - rewrite Heq, str_eqb_refl. f_equal.
    apply Forall_fmap_ext_1, Forall_forall. intros q Hq.
    destruct (decide (f q = k)) as [Hqk|_]; [| done].
    exfalso. apply Hq0. rewrite Heq, <- Hqk. by apply list_elem_of_fmap_2.
  - apply str_eqb_neq in Hne as Hb. rewrite Hb. f_equal.
    apply IH; [done |]. apply elem_of_cons in Hk as [Hk|Hk]; [congruence | done].
Qed.

Lemma filter_none {A : Type} (P : A -> Prop) `{!forall x, Decision (P x)}
    (l : list A) :
  (forall x, x ∈ l -> ~ P x) -> filter P l = [].
Proof.
  induction l as [|x l IH]; intros Hall; [done |].
  rewrite filter_cons_False by (apply Hall, elem_of_cons; by left).
  apply IH. intros y Hy. apply Hall, elem_of_cons. by right.
Qed.

Lemma members_snoc k ps p :
  members k (ps ++ [p])
  = members k ps
    ++ (if decide (has_wallet p /\ key_of p = k) then [(length ps, p)] else []).
Proof.
  unfold members. rewrite imap_app, filter_app. f_equal.
  cbn [imap]. rewrite Nat.add_0_r.
  destruct (decide (has_wallet p /\ key_of p = k)) as [H|H].
  - by rewrite filter_cons_True.
  - by rewrite filter_cons_False.
Qed.

Lemma members_participants k ps :
  snd <$> members k ps = filter (fun p => has_wallet p /\ key_of p = k) ps.
Proof.
  unfold members.
  rewrite (filter_snd_fmap (fun p => has_wallet p /\ key_of p = k)
             (fun ip => has_wallet (snd ip) /\ key_of (snd ip) = k)) by done.
  by rewrite (imap_keys (fun i => i) ps).
Qed.

Lemma members_nil k ps : k ∉ keys_seen ps -> members k ps = [].
Proof.
  intros Hk. apply (fmap_nil_inv snd). rewrite members_participants.
  apply filter_none. intros p Hp [Hw Hkey]. apply Hk, elem_of_keys_seen.
  by exists p.
Qed.

Lemma group_of_snoc_other ps p q :
  ~ (has_wallet p /\ key_of p = key_of q) ->
  group_of (ps ++ [p]) q = group_of ps q.
Proof.
  intros H. unfold group_of. rewrite members_snoc.
  destruct (decide (has_wallet p /\ key_of p = key_of q)); [done |].
  by rewrite app_nil_r.
Qed.

Lemma group_of_snoc_same ps p q :
  has_wallet p -> key_of p = key_of q ->
  group_of (ps ++ [p]) q
  = mkGroup (or_empty (wallet q))
      (indices (group_of ps q) ++ [(length ps + 1)%nat])
      (names (group_of ps q) ++ [display_name p]).
Proof.
  intros Hw Hk. unfold group_of. rewrite members_snoc.
  destruct (decide (has_wallet p /\ key_of p = key_of q)) as [_|H];
    [| by destruct H].
  by rewrite !fmap_app.
Qed.

End DuplicateGroups.

Section DuplicateReport.

Lemma removeDuplicates_elem ps q :
  q ∈ removeDuplicates ps -> q ∈ ps /\ has_wallet q /\ key_of q ∈ keys_seen ps.
Proof.
  intros Hq.
  assert (q ∈ ps) as Hin.
  { eapply elem_of_sublist; [exact Hq | apply (remove_dups_sublist ∅ ps)]. }
  assert (has_wallet q) as Hw by (by eapply remove_dups_has_wallet).
  repeat split; [done | done |]. apply elem_of_keys_seen. by exists q.
Qed.

Lemma removeDuplicates_snoc ps p :
  removeDuplicates (ps ++ [p])
  = removeDuplicates ps
    ++ (if decide (has_wallet p /\ key_of p ∉ keys_seen ps) then [p] else []).
Proof.
  unfold removeDuplicates. rewrite remove_dups_app, remove_dups_cons.
  rewrite (right_id_L ∅ (∪)). cbn [remove_dups].
  by destruct (decide (has_wallet p /\ key_of p ∉ keys_seen ps)).
Qed.

Lemma wallet_groups_snoc ps p :
  wallet_groups (ps ++ [p]) = group_step (wallet_groups ps) (length ps, p).
Proof.
  unfold wallet_groups. rewrite imap_app, fold_left_app. cbn [imap fold_left].
  by rewrite Nat.add_0_r.
Qed.

Lemma group_step_no_wallet walletMap index p :
  ~ has_wallet p -> group_step walletMap (index, p) = walletMap.
Proof.
  unfold has_wallet, group_step. cbn [fst snd].
  by destruct (truthy (wallet p)).
Qed.

Lemma group_step_wallet walletMap index p :
  has_wallet p ->
  group_step walletMap (index, p)
  = map_set walletMap (key_of p)
      (let g := match map_get walletMap (key_of p) with
                | Some g => g
                | None => mkGroup (or_empty (wallet p)) [] []
                end in
       mkGroup (originalWallet g) (indices g ++ [(index + 1)%nat])
         (names g ++ [display_name p])).
Proof.
  unfold has_wallet, group_step. cbn [fst snd]. by intros ->.
Qed.

(** The walletMap holds one entry per record removeDuplicates keeps, in
    the same order, with the group of that record's address. *)
Lemma wallet_groups_spec ps :
  wallet_groups ps
  = (fun q => (key_of q, group_of ps q)) <$> removeDuplicates ps.
Proof.
  induction ps as [|p ps IH] using rev_ind; [done |].
  rewrite wallet_groups_snoc, IH, removeDuplicates_snoc.
  pose proof (remove_dups_NoDup ∅ ps) as Hnd. fold (removeDuplicates ps) in Hnd.
  destruct (decide (has_wallet p)) as [Hw|Hw].
  - rewrite group_step_wallet by done. cbv zeta.
    destruct (decide (key_of p ∈ keys_seen ps)) as [Hseen|Hnew].
    + rewrite decide_False by (intros [_ H]; by apply H).
      rewrite app_nil_r.
      assert (exists q0, q0 ∈ removeDuplicates ps /\ key_of q0 = key_of p)
        as (q0 & Hq0 & Hk0).
      { apply elem_of_keys_seen in Hseen as (q' & Hin & Hw' & Hk').
        destruct (remove_dups_covers ∅ ps q' Hin Hw') as [H|H];
          [by apply elem_of_empty in H |].
        apply list_elem_of_fmap in H as (q0 & Hk0 & Hq0).
        exists q0. split; [done | congruence]. }
      rewrite <- Hk0.
      rewrite (map_get_fmap key_of (group_of ps)) by done.
      rewrite (map_set_fmap key_of (group_of ps))
        by (done || by apply list_elem_of_fmap_2).
      apply Forall_fmap_ext_1, Forall_forall. intros q Hq. f_equal.
      destruct (decide (key_of q = key_of q0)) as [Hqk|Hqk].
      * assert (q = q0) as ->.
        { by apply (fmap_keys_inj key_of (removeDuplicates ps)). }
        by rewrite (group_of_snoc_same ps p q0 Hw (eq_sym Hk0)).
      * rewrite group_of_snoc_other; [done |]. intros [_ H].
        apply Hqk. congruence.
    + rewrite decide_True by done.
      assert (key_of p ∉ key_of <$> removeDuplicates ps) as Hfresh.
      { intros (q & Hk & Hq)%list_elem_of_fmap.
        apply removeDuplicates_elem in Hq as (_ & _ & Hq).
        apply Hnew. by rewrite Hk. }
      rewrite (map_get_fmap_None key_of (group_of ps)) by done.
      rewrite (map_set_fmap_new key_of (group_of ps)) by done.
      rewrite fmap_app. f_equal.
      * apply Forall_fmap_ext_1, Forall_forall. intros q Hq. f_equal.
        rewrite group_of_snoc_other; [done |]. intros [_ H].
        apply Hfresh. rewrite H. by apply list_elem_of_fmap_2.
      * cbn [fmap list_fmap]. do 2 f_equal.
        rewrite group_of_snoc_same by done.
        unfold group_of. by rewrite members_nil.
  - rewrite group_step_no_wallet by done.
    rewrite decide_False by (by intros [H _]).
    rewrite app_nil_r.
    apply Forall_fmap_ext_1, Forall_forall. intros q Hq. f_equal.
    rewrite group_of_snoc_other; [done |]. by intros [H _].
Qed.

Lemma findDuplicates_spec ps :
  findDuplicates ps
  = filter (fun g => (1 < length (indices g))%nat)
      (group_of ps <$> removeDuplicates ps).
Proof.
  unfold findDuplicates. cbv zeta. fold (wallet_groups ps).
  rewrite wallet_groups_spec, map_is_fmap, <- list_fmap_compose.
  reflexivity.
Qed.

Lemma group_size ps q :
  length (indices (group_of ps q))
  = length (filter (fun p => key_of p = key_of q) (filter has_wallet ps)).
Proof.
  unfold group_of. cbn [indices]. rewrite length_fmap.
  rewrite <- (length_fmap snd), members_participants.
  rewrite list_filter_filter. f_equal. apply list_filter_iff. tauto.
Qed.

Lemma NoDup_count {A K : Type} `{!EqDecision K} (f : A -> K) (l : list A) :
  NoDup (f <$> l)
  <-> forall k, (length (filter (fun x => f x = k) l) <= 1)%nat.
Proof.
  induction l as [|x l IH].
  - split; [intros _ k; cbn; lia | intros _; constructor].
  - rewrite fmap_cons, NoDup_cons, IH. split.
    + intros [Hx Hl] k. rewrite filter_cons_length.
      destruct (decide (f x = k)) as [<-|_]; [| apply Hl].
      rewrite filter_none; [cbn; lia |].
      intros y Hy Hf. apply Hx. rewrite <- Hf. by apply list_elem_of_fmap_2.
    + intros Hall. split.
      * intros (y & Hf & Hy)%list_elem_of_fmap.
        specialize (Hall (f x)). rewrite filter_cons_length in Hall.
        rewrite decide_True in Hall by done.
        assert (y ∈ filter (fun z => f z = f x) l) as Hin
          by (apply list_elem_of_filter; by split).
        destruct (filter (fun z => f z = f x) l);
          [by apply elem_of_nil in Hin | cbn in Hall; lia].
      * intros k. specialize (Hall k). rewrite filter_cons_length in Hall. lia.
Qed.

Lemma findDuplicates_nil ps :
  findDuplicates ps = [] <-> NoDup (key_of <$> filter has_wallet ps).
Proof.
  rewrite findDuplicates_spec, NoDup_count. split.
  - intros Hnil k.
    destruct (filter (fun x => key_of x = k) (filter has_wallet ps))
      as [|x rest] eqn:Hf; [cbn; lia |].
    assert (x ∈ filter (fun x => key_of x = k) (filter has_wallet ps)) as Hx
      by (rewrite Hf; apply elem_of_cons; by left).
    apply list_elem_of_filter in Hx as [Hk Hx].
    apply list_elem_of_filter in Hx as [Hw Hx].
    destruct (remove_dups_covers ∅ ps x Hx Hw) as [H|H];
      [by apply elem_of_empty in H |].
    apply list_elem_of_fmap in H as (q & Hkq & Hq).
    rewrite <- Hf, <- Hk, Hkq, <- group_size.
    apply Nat.le_ngt. intros Hbig.
    eapply (filter_nil_not_elem_of _ _ (group_of ps q)) in Hnil; [| exact Hbig].
    apply Hnil. by apply list_elem_of_fmap_2.
  - intros Hall. apply filter_none.
    intros g (q & -> & Hq)%list_elem_of_fmap. rewrite group_size.
    specialize (Hall (key_of q)). lia.
Qed.

Lemma remove_dups_id seen l :
  Forall has_wallet l -> NoDup (key_of <$> l) ->
  (forall p, p ∈ l -> key_of p ∉ seen) ->
  remove_dups seen l = l.
Proof.
  revert seen. induction l as [|p l IH]; intros seen Hw Hnd Hseen; [done |].
  apply Forall_cons in Hw as [Hp Hw].
  rewrite fmap_cons in Hnd. apply NoDup_cons in Hnd as [Hfresh Hnd].
  rewrite remove_dups_cons, decide_True.
  - f_equal. apply IH; [done | done |].
    intros q Hq. rewrite elem_of_union, elem_of_singleton. intros [Heq|Hin].
    + apply Hfresh. rewrite <- Heq. by apply list_elem_of_fmap_2.
    + eapply Hseen; [| exact Hin]. apply elem_of_cons. by right.
  - split; [done |]. apply Hseen, elem_of_cons. by left.
Qed.

Lemma removeDuplicates_id ps :
  removeDuplicates (removeDuplicates ps) = removeDuplicates ps.
Proof.
  apply remove_dups_id.
  - apply Forall_forall. intros p Hp. by eapply remove_dups_has_wallet.
  - apply remove_dups_NoDup.
  - intros p _. apply not_elem_of_empty.
Qed.

(** X11: findDuplicates reports one group for every record removeDuplicates
    keeps whose address occurs more than once, in the order
    removeDuplicates keeps them; the group carries the wallet as that first
    record writes it, and the one-based rows and the names (Unknown for a
    missing name) of all records with the same address after trimming and
    lower-casing. *)
Theorem findDuplicates_groups (ps : list Participant) :
  findDuplicates ps
  = filter (fun g => (1 < length (indices g))%nat)
      (group_of ps <$> removeDuplicates ps).
Proof. apply findDuplicates_spec. Qed.

(** X12: findDuplicates reports nothing exactly when no two records that
    carry a wallet have the same address after trimming and lower-casing. *)
Theorem findDuplicates_nil_iff (ps : list Participant) :
  findDuplicates ps = [] <-> NoDup (key_of <$> filter has_wallet ps).
Proof. apply findDuplicates_nil. Qed.

(** X13: removeDuplicates is idempotent, and findDuplicates finds nothing
    in its result. *)
Theorem removeDuplicates_leaves_no_duplicates (ps : list Participant) :
  removeDuplicates (removeDuplicates ps) = removeDuplicates ps
  /\ findDuplicates (removeDuplicates ps) = [].
Proof.
  split; [apply removeDuplicates_id |].
  apply findDuplicates_nil. rewrite filter_all.
  - apply remove_dups_NoDup.
  - apply Forall_forall. intros p Hp. by eapply remove_dups_has_wallet.
Qed.

End DuplicateReport.

(** ** Separating, cleaning and the email pattern *)

Section CleaningFacts.

Lemma separate_fold (ips : list (nat * Participant)) :
  forall acc,
    sep_valid (fold_left separate_step ips acc)
    = sep_valid acc ++ filter wallet_ok (snd <$> ips)
    /\ fst <$> sep_invalid (fold_left separate_step ips acc)
       = (fst <$> sep_invalid acc)
         ++ filter (fun p => ~ wallet_ok p) (snd <$> ips)
    /\ (Forall (fun pe => length (snd pe) = 1%nat) (sep_invalid acc) ->
        Forall (fun pe => length (snd pe) = 1%nat)
          (sep_invalid (fold_left separate_step ips acc))).
Proof.
  induction ips as [|[i p] ips IH]; intros acc.
  - cbn. by rewrite !app_nil_r.
  - cbn [fold_left]. destruct (IH (separate_step acc (i, p))) as (H1 & H2 & H3).
    rewrite H1, H2. clear H1 H2. rewrite fmap_cons. cbn [snd].
    pose proof (v_valid_wallet_ok p i) as Hv.
    pose proof (validateParticipant_error_count p i) as Hc.
    unfold separate_step in *. cbn [fst snd] in *.
    destruct (v_valid (validateParticipant p i)); cbn [sep_valid sep_invalid] in *.
    + assert (wallet_ok p) as Hw by (by apply Hv).
      rewrite filter_cons_True by done.
      rewrite filter_cons_False by (intros H; by apply H).
      rewrite <- app_assoc. split; [done | split; [done | exact H3]].
    + assert (~ wallet_ok p) as Hw by (intros H; by apply Hv in H).
      rewrite filter_cons_False by done.
      rewrite filter_cons_True by done.
      rewrite fmap_app, <- app_assoc. split; [done | split; [done |]].
      intros Hall. apply H3, Forall_app. split; [done |].
      apply Forall_singleton. cbn [snd]. by rewrite Hc.
Qed.

Lemma filter_complement_length {A : Type} (P : A -> Prop)
    `{!forall x, Decision (P x)} (l : list A) :
  (length (filter P l) + length (filter (fun x => ~ P x) l) = length l)%nat.
Proof.
  induction l as [|x l IH]; [done |]. rewrite !filter_cons_length. cbn [length].
  destruct (decide (P x)) as [HP|HP].
  - rewrite decide_False by (intros Hn; by apply Hn). lia.
  - rewrite decide_True by done. lia.
Qed.

(** X14: separateValidInvalid keeps, in their order, exactly the records
    whose wallet passes validateWalletAddress as valid and the others as
    invalid, each invalid record with exactly one error message; the sizes
    of the two lists are the valid and invalid counts of
    validateAllParticipants. *)
Theorem separateValidInvalid_partitions (ps : list Participant) :
  sep_valid (separateValidInvalid ps) = filter wallet_ok ps
  /\ fst <$> sep_invalid (separateValidInvalid ps)
     = filter (fun p => ~ wallet_ok p) ps
  /\ Forall (fun pe => length (snd pe) = 1%nat)
       (sep_invalid (separateValidInvalid ps))
  /\ length (sep_valid (separateValidInvalid ps))
     = rep_valid (validateAllParticipants ps)
  /\ length (sep_invalid (separateValidInvalid ps))
     = rep_invalid (validateAllParticipants ps).
Proof.
  unfold separateValidInvalid.
  destruct (separate_fold (imap (fun index p => (index, p)) ps)
              (mkSeparated [] [])) as (H1 & H2 & H3).
  rewrite (imap_keys (fun i => i) ps) in H1, H2. cbn [sep_valid sep_invalid] in *.
  cbn [fmap list_fmap app] in H2.
  destruct (validateAllParticipants_tally ps) as (_ & T2 & T3 & _).
  pose proof (filter_complement_length wallet_ok ps) as Hlen.
  repeat split; [done | done | by apply H3 | by rewrite H1, T2 |].
  rewrite <- (length_fmap fst), H2. lia.
Qed.

Lemma clean_field_idem v : clean_field (clean_field v) = clean_field v.
Proof.
  unfold clean_field.
  destruct v as [s|]; cbn [fmap option_fmap option_map or_empty];
    [by rewrite trim_idem | done].
Qed.

Lemma cleanParticipantData_fmap ps : cleanParticipantData ps = clean_record <$> ps.
Proof. unfold cleanParticipantData. by rewrite map_is_fmap. Qed.

Lemma clean_record_idem p : clean_record (clean_record p) = clean_record p.
Proof. unfold clean_record. cbn [name wallet email campus]. by rewrite !clean_field_idem. Qed.

Lemma clean_record_key p : key_of (clean_record p) = key_of p.
Proof.
  unfold key_of, clean_record, wallet_key, clean_field. cbn [wallet].
  destruct (wallet p) as [w|]; cbn [or_empty fmap option_fmap option_map];
    [by rewrite trim_idem | done].
Qed.

Lemma clean_record_no_whitespace_error p :
  error (validateWalletAddress (to_val (wallet (clean_record p))))
  <> Some whitespace_error.
Proof.
  unfold clean_record, clean_field. cbn [wallet to_val or_empty].
  set (t := or_empty (trim <$> wallet p)).
  assert (trim t = t) as Ht.
  { unfold t. destruct (wallet p) as [w|];
      cbn [fmap option_fmap option_map or_empty]; [apply trim_idem | done]. }
  destruct (decide (t = [])) as [->|Hne]; [cbn; discriminate |].
  rewrite validateWalletAddress_str by done.
  rewrite Ht, str_eqb_refl. cbn [negb].
  destruct ((length t <? 32)%nat || (44 <? length t)%nat); [cbn; discriminate |].
  destruct (negb (test base58Regex t)); cbn; discriminate.
Qed.

(** X15: cleanParticipantData is idempotent, keeps the address every record
    is compared by, and after it no wallet fails validateWalletAddress for
    leading or trailing whitespace. *)
Theorem cleanParticipantData_trims (ps : list Participant) :
  cleanParticipantData (cleanParticipantData ps) = cleanParticipantData ps
  /\ key_of <$> cleanParticipantData ps = key_of <$> ps
  /\ forall p, p ∈ cleanParticipantData ps ->
       error (validateWalletAddress (to_val (wallet p))) <> Some whitespace_error.
Proof.
  rewrite (cleanParticipantData_fmap (cleanParticipantData ps)).
  rewrite !(cleanParticipantData_fmap ps). split; [| split].
  - rewrite <- list_fmap_compose. apply Forall_fmap_ext_1, Forall_forall.
    intros p _. apply clean_record_idem.
  - rewrite <- list_fmap_compose. apply Forall_fmap_ext_1, Forall_forall.
    intros p _. apply clean_record_key.
  - intros p (q & -> & _)%list_elem_of_fmap. apply clean_record_no_whitespace_error.
Qed.

Lemma emailRegex_lang (e : jsstring) : lang emailRegex e <-> well_formed_email e.
Proof.
  unfold emailRegex, well_formed_email. split.
  - intros H. apply lang_seq_inv in H as (a & r1 & -> & Ha & H).
    apply lang_class_cons_inv in H as (x & r2 & -> & Hx & H).
    apply lang_seq_inv in H as (b & r3 & -> & Hb & H).
    apply lang_class_cons_inv in H as (y & c & -> & Hy & Hc).
    apply Ascii.eqb_eq in Hx as <-. apply Ascii.eqb_eq in Hy as <-.
    apply lang_plus_class in Ha as [Ha1 Ha2].
    apply lang_plus_class in Hb as [Hb1 Hb2].
    apply lang_plus_class in Hc as [Hc1 Hc2].
    exists a, b, c. repeat split; try done.
    rewrite !Forall_app. by repeat split.
  - intros (a & b & c & -> & Ha & Hb & Hc & Hall).
    rewrite !Forall_app in Hall. destruct Hall as (Ha2 & Hb2 & Hc2).
    apply lang_seq; [by apply lang_plus_class |].
    apply lang_class_cons; [apply Ascii.eqb_refl |].
    apply lang_seq; [by apply lang_plus_class |].
    apply lang_class_cons; [apply Ascii.eqb_refl |].
    by apply lang_plus_class.
Qed.

(** X16: validateEmail accepts a value exactly when it is missing, blank,
    or, once trimmed, a non-empty local part, an at sign, a non-empty
    domain, a dot and a non-empty ending, none of the parts holding
    whitespace or an at sign. *)
Theorem validateEmail_accepts (email : option jsstring) :
  valid (validateEmail email) = true
  <-> truthy email = false
      \/ trim (or_empty email) = []
      \/ well_formed_email (trim (or_empty email)).
Proof.
  unfold validateEmail.
  destruct (truthy email) eqn:Ht; cbn [negb orb]; [| by split; auto].
  destruct (decide (trim (or_empty email) = [])) as [Hb|Hb].
  - rewrite Hb, str_eqb_refl. by split; auto.
  - apply str_eqb_neq in Hb as Hf. rewrite Hf.
    rewrite <- emailRegex_lang, <- test_lang.
    destruct (test emailRegex (trim (or_empty email))); cbn [negb valid ok fail].
    + by split; auto.
    + split; [discriminate |]. intros [?|[?|?]]; congruence.
Qed.

(** X17: the address test of utils, isValidSolanaAddress, and
    validateWalletAddress give the same verdict on every value. *)
Theorem address_validators_agree (address : jsval) :
  isValidSolanaAddress address = valid (validateWalletAddress address).
Proof. apply address_checks_agree. Qed.

End CleaningFacts.

(** ** The gates of the scripts *)

Section GateFacts.

Lemma filter_length_all {A : Type} (P : A -> Prop) `{!forall x, Decision (P x)}
    (l : list A) :
  length (filter P l) = length l <-> Forall P l.
Proof.
  induction l as [|x l IH]; [by split |].
  rewrite filter_cons_length, Forall_cons, <- IH. cbn [length].
  pose proof (length_filter P l) as Hle.
  destruct (decide (P x)) as [HP|HP]; split.
  - intros Hlen. split; [done | lia].
  - intros [_ Hlen]. lia.
  - intros Hlen. lia.
  - by intros [? _].
Qed.

Lemma wallet_ok_has_wallet p : wallet_ok p -> has_wallet p.
Proof.
  unfold wallet_ok, has_wallet. intros H.
  apply validateWalletAddress_spec in H as (s & Hs & Hlen & _).
  destruct (wallet p) as [w|]; [| discriminate]. injection Hs as ->.
  destruct s; [cbn in Hlen; lia | done].
Qed.

Lemma validateAllParticipants_nonempty ps :
  ps <> [] ->
  duplicates (validateAllParticipants ps) = findDuplicates ps
  /\ exists sm, summary (validateAllParticipants ps) = Some sm
                /\ validEntries sm = rep_valid (validateAllParticipants ps).
Proof.
  destruct ps as [|p ps]; [done |]. intros _. unfold validateAllParticipants.
  cbv zeta. cbn [duplicates summary rep_valid]. split; [done |].
  eexists. split; reflexivity.
Qed.

Lemma validateAllParticipants_no_errors ps :
  ps <> [] ->
  (rep_errors (validateAllParticipants ps) = [] <-> Forall wallet_ok ps).
Proof.
  intros Hne.
  destruct (validateAllParticipants_tally ps) as (_ & T2 & T3 & _ & _ & T6 & _).
  specialize (T6 Hne). rewrite <- (filter_length_all wallet_ok ps).
  split.
  - intros Hnil. apply (f_equal length) in Hnil. cbn [length] in Hnil. lia.
  - intros Hall. apply length_zero_iff_nil. lia.
Qed.

Lemma mintable_no_duplicates ps :
  Forall wallet_ok ps ->
  (findDuplicates ps = [] <-> NoDup (key_of <$> ps)).
Proof.
  intros Hall. rewrite findDuplicates_nil, filter_all; [done |].
  eapply Forall_impl; [exact Hall |]. apply wallet_ok_has_wallet.
Qed.

Lemma mintGate_spec ps n :
  mintGate ps = Proceed n <-> mintable ps /\ n = length ps.
Proof.
  unfold mintGate, mintable.
  destruct (decide (ps = [])) as [->|Hne].
  { cbn. split; [discriminate | by intros [[? _] _]]. }
  assert ((length ps =? 0)%nat = false) as ->.
  { apply Nat.eqb_neq. by destruct ps. }
  destruct (validateAllParticipants_nonempty ps Hne) as (HD & sm & HS & Hsm).
  pose proof (validateAllParticipants_no_errors ps Hne) as HE.
  destruct (validateAllParticipants_tally ps) as (_ & T2 & _).
  rewrite HD, HS, Hsm, T2.
  destruct (rep_errors (validateAllParticipants ps)) as [|e es] eqn:Herr.
  - assert (Forall wallet_ok ps) as Hall by (by apply HE).
    cbn [length Nat.ltb Nat.leb].
    pose proof (mintable_no_duplicates ps Hall) as Hdup.
    destruct (findDuplicates ps) as [|g gs] eqn:Hf.
    + cbn [length Nat.ltb Nat.leb]. split.
      * intros [= <-]. split; [| by apply filter_length_all].
        repeat split; [done | done | by apply Hdup].
      * intros [_ ->]. f_equal. by apply filter_length_all.
    + cbn [length Nat.ltb Nat.leb]. split; [discriminate |].
      intros [(_ & _ & Hnd) _]. by apply Hdup in Hnd.
  - cbn [length Nat.ltb Nat.leb]. split; [discriminate |].
    intros [(_ & Hall & _) _]. by apply HE in Hall.
Qed.

Lemma validateData_exit shouldFix ps :
  exitCode (validateData shouldFix ps) = 0%nat
  <-> mintable (fixed_data shouldFix ps).
Proof.
  unfold validateData. cbv zeta. fold (fixed_data shouldFix ps).
  set (fd := fixed_data shouldFix ps). unfold mintable.
  destruct (decide (fd = [])) as [Hnil|Hne].
  { rewrite Hnil. cbn. split; [discriminate | by intros [? _]]. }
  destruct (validateAllParticipants_nonempty fd Hne) as (HD & sm & HS & _).
  pose proof (validateAllParticipants_no_errors fd Hne) as HE.
  rewrite HS, HD.
  destruct (rep_errors (validateAllParticipants fd)) as [|e es] eqn:Herr.
  - assert (Forall wallet_ok fd) as Hall by (by apply HE).
    pose proof (mintable_no_duplicates fd Hall) as Hdup.
    destruct (findDuplicates fd) as [|g gs] eqn:Hf; cbn.
    + split; [intros _ | done]. repeat split; [done | done | by apply Hdup].
    + split; [discriminate |]. intros (_ & _ & Hnd). by apply Hdup in Hnd.
  - cbn. split; [discriminate |]. intros (_ & Hall & _). by apply HE in Hall.
Qed.

(** X18: the mint scripts go on to minting exactly when there is at least
    one record, every wallet passes validateWalletAddress and no two
    records have the same address after trimming and lower-casing; the
    count they print is then the number of records. *)
Theorem mintGate_proceeds_iff (ps : list Participant) (n : nat) :
  mintGate ps = Proceed n <-> mintable ps /\ n = length ps.
Proof. apply mintGate_spec. Qed.

(** X19: the validation script exits with code 0 exactly when the mint
    scripts would go on with the data it worked on (the cleaned and
    deduplicated data with --fix); with --fix duplicates never fail the
    run; and the run ends in the unexpected-error handler exactly when that
    data is empty. *)
Theorem validateData_exit_code (shouldFix : bool) (ps : list Participant) :
  (exitCode (validateData shouldFix ps) = 0%nat
   <-> exists n, mintGate (fixed_data shouldFix ps) = Proceed n)
  /\ (exitCode (validateData true ps) = 0%nat
      <-> fixed_data true ps <> [] /\ Forall wallet_ok (fixed_data true ps))
  /\ (outcome (validateData shouldFix ps) = UnexpectedError
      <-> fixed_data shouldFix ps = []).
Proof.
  split; [| split].
  - rewrite validateData_exit. split.
    + intros H. exists (length (fixed_data shouldFix ps)).
      by apply mintGate_spec.
    + intros [n H]. by apply mintGate_spec in H as [H _].
  - rewrite validateData_exit. unfold mintable. split.
    + by intros (? & ? & _).
    + intros [Hne Hall]. repeat split; [done | done |].
      apply remove_dups_NoDup.
  - unfold validateData. cbv zeta. fold (fixed_data shouldFix ps).
    set (fd := fixed_data shouldFix ps).
    destruct (decide (fd = [])) as [Hnil|Hne].
    + rewrite Hnil. by cbn.
    + destruct (validateAllParticipants_nonempty fd Hne) as (_ & sm & HS & _).
      rewrite HS.
      destruct ((length (rep_errors (validateAllParticipants fd)) =? 0)%nat
                && (length (duplicates (validateAllParticipants fd)) =? 0)%nat);
        cbn [outcome]; by split.
Qed.

End GateFacts.

(** ** The trace of the verifier *)

Section VerifyTrace.

Variable connection : Connection.
Variables startDate endDate : Z.




Lemma outcome_builder p r :
  outcome_of connection startDate endDate (p, r) ->
  isBuilder r = true ->
  accepted (wallet p)
  /\ exists tr sigs,
       connection tr (string_of (to_val (wallet p))) = Signatures sigs
       /\ transactionCount r = length (filter (counts startDate endDate) sigs)
       /\ firstTx r = signature <$> last (filter (counts startDate endDate) sigs)
       /\ (1 <= transactionCount r)%nat.
Proof.
  intros [tr Hr] Hb. cbn [fst snd] in Hr. subst r. unfold accepted.
  destruct (isValidSolanaAddress (to_val (wallet p))) eqn:Hv.
  - split; [done |]. rewrite checkWalletActivity_query in * by done.
    cbn [fst] in *. exists tr.
    destruct (connection tr (string_of (to_val (wallet p))))
      as [msg|msg| |[|sig sigs]]; try discriminate.
    exists (sig :: sigs). cbv zeta in *. cbn [isBuilder transactionCount firstTx] in *.
    apply Nat.ltb_lt in Hb. repeat split; try done; lia.
  - by rewrite checkWalletActivity_invalid in Hb.
Qed.

(** X21: every builder verifyAllParticipants returns has a wallet that
    passes isValidSolanaAddress, a transaction count of at least one that
    is the number of entries of a ledger answer that count in the window,
    and as first transaction the signature of the last of these entries;
    every non-builder carries a non-empty message or none at all. *)
Theorem verifyAllParticipants_builders (participants : list Participant)
    (onProgress : bool) (tr : list Event) :
  Forall
    (fun b =>
       accepted (wallet (b_participant b))
       /\ exists tr' sigs,
            connection tr' (string_of (to_val (wallet (b_participant b))))
            = Signatures sigs
            /\ b_transactionCount b
               = length (filter (counts startDate endDate) sigs)
            /\ b_firstTx b
               = signature <$> last (filter (counts startDate endDate) sigs)
            /\ (1 <= b_transactionCount b)%nat)
    (builders (fst (verifyAllParticipants connection participants startDate
                      endDate onProgress tr)))
  /\ Forall (fun nb => nb_error nb = None \/ truthy (nb_error nb) = true)
       (nonBuilders (fst (verifyAllParticipants connection participants
                            startDate endDate onProgress tr))).
Proof.
  destruct (verifyAllParticipants_spec connection startDate endDate onProgress
              participants tr) as (prs & _ & Hall & ->).
  cbn [builders nonBuilders]. rewrite Forall_forall in Hall. split.
  - apply Forall_forall. intros b Hb. unfold builders_of in Hb.
    apply list_elem_of_fmap in Hb as ([p r] & -> & Hpr).
    apply list_elem_of_filter in Hpr as [Hb Hpr]. cbn [fst snd] in *.
    by apply outcome_builder; [apply Hall |].
  - apply Forall_forall. intros nb Hnb. unfold nonBuilders_of in Hnb.
    apply list_elem_of_fmap in Hnb as ([p r] & -> & _). cbn [nb_error fst snd].
    unfold error_or_null. destruct (truthy (act_error r)) eqn:Ht; auto.
Qed.

End VerifyTrace.

(** ** Minting *)

Section MintFacts.

Context {R : Type} (walletOf : R -> property).
Variable minter : Minter.
Variable clock : Clock.

Lemma mintCompressedNFT_rejects w tr :
  ~ accepted_value w ->
  mintCompressedNFT minter (prop_val w) tr = (inl (invalid_wallet_message w), tr).
Proof.
  unfold accepted_value, mintCompressedNFT. intros H.
  by destruct (isValidSolanaAddress (prop_val w)).
Qed.

Lemma mintCompressedNFT_mints w tr :
  accepted_value w ->
  mintCompressedNFT minter (prop_val w) tr
  = match minter tr (address_of w) with
    | BuildThrows message => (inl message, tr)
    | MintThrows message => (inl message, tr ++ [MvMint (address_of w)])
    | Minted signature => (inr signature, tr ++ [MvMint (address_of w)])
    end.
Proof.
  unfold accepted_value, mintCompressedNFT, address_of. by intros ->.
Qed.

(** One turn of the loop, with the trace written out. *)
Lemma mint_loop_cons onProgress total i r rest acc tr :
  mint_loop walletOf minter clock onProgress total i (r :: rest) acc tr
  = let res := mintCompressedNFT minter (prop_val (walletOf r)) tr in
    let acc' :=
      match fst res with
      | inr signature =>
          mkMintResult
            (successful acc ++ [mkSuccess r signature (clock (snd res))])
            (failed acc)
      | inl message =>
          mkMintResult (successful acc)
            (failed acc ++ [mkFailure r message (clock (snd res))])
      end in
    mint_loop walletOf minter clock onProgress total (S i) rest acc'
      ((snd res
          ++ (if onProgress
              then [MvProgress (i + 1) total
                      (match fst res with inr _ => true | inl _ => false end)]
              else []))
         ++ (if (i <? total - 1)%nat then [MvDelay 500] else [])).
Proof.
  cbn [mint_loop]. cbv zeta.
  destruct (mintCompressedNFT minter (prop_val (walletOf r)) tr)
    as [result tr1].
  cbn [fst snd].
  destruct onProgress, (i <? total - 1)%nat; by rewrite ?app_nil_r.
Qed.

(** What one call of mintCompressedNFT does for a recipient. *)
Lemma mint_step r tr :
  exists result q,
    mintCompressedNFT minter (prop_val (walletOf r)) tr = (result, tr ++ q)
    /\ omap mint_delay_of q = [] /\ omap mint_progress_of q = []
    /\ ((accepted_value (walletOf r)
         /\ (omap mint_of q = [address_of (walletOf r)]
             \/ (omap mint_of q = [] /\ ~ builds_every_transaction minter)))
        \/ (~ accepted_value (walletOf r) /\ omap mint_of q = []))
    /\ match result with
       | inr signature =>
           accepted_value (walletOf r)
           /\ exists tr', minter tr' (address_of (walletOf r)) = Minted signature
       | inl message =>
           (accepted_value (walletOf r)
            /\ exists tr',
                 minter tr' (address_of (walletOf r)) = BuildThrows message
                 \/ minter tr' (address_of (walletOf r)) = MintThrows message)
           \/ (~ accepted_value (walletOf r)
               /\ message = invalid_wallet_message (walletOf r))
       end.
Proof.
  destruct (decide (accepted_value (walletOf r))) as [Ha|Ha].
  - rewrite mintCompressedNFT_mints by done.
    destruct (minter tr (address_of (walletOf r))) as [m|m|sig] eqn:Hm.
    + exists (inl m), []. rewrite app_nil_r. repeat split; try done.
      * left. split; [done |]. right. split; [done |].
        intros Hall. by apply Hall in Hm.
      * left. split; [done |]. exists tr. by left.
    + eexists _, _. split; [reflexivity |]. repeat split; try done.
      * left. split; [done |]. by left.
      * left. split; [done |]. exists tr. by right.
    + eexists _, _. split; [reflexivity |]. repeat split; try done.
      * left. split; [done |]. by left.
      * by exists tr.
  - rewrite mintCompressedNFT_rejects by done.
    exists (inl (invalid_wallet_message (walletOf r))), [].
    rewrite app_nil_r. repeat split; try done; by right.
Qed.

(** What the loop adds for the recipients it is given. *)
Lemma mint_loop_facts onProgress total rest :
  forall i acc tr,
  exists oks kos evs,
    mint_loop walletOf minter clock onProgress total i rest acc tr
    = (mkMintResult (successful acc ++ oks) (failed acc ++ kos), tr ++ evs)
    /\ (ok_recipient <$> oks) `sublist_of` rest
    /\ (ko_recipient <$> kos) `sublist_of` rest
    /\ (ok_recipient <$> oks) ++ (ko_recipient <$> kos) ≡ₚ rest
    /\ Forall (success_ok walletOf minter) oks
    /\ Forall (failure_ok walletOf minter) kos
    /\ omap mint_of evs
         `sublist_of`
         ((fun r => address_of (walletOf r))
            <$> filter (fun r => accepted_value (walletOf r)) rest)
    /\ (builds_every_transaction minter ->
        omap mint_of evs
        = (fun r => address_of (walletOf r))
            <$> filter (fun r => accepted_value (walletOf r)) rest)
    /\ ((i + length rest = total)%nat ->
        omap mint_delay_of evs = replicate (length rest - 1) 500%nat)
    /\ omap mint_progress_of evs
       = (if onProgress
          then (fun current => (current, total)) <$> seq (i + 1) (length rest)
          else []).
Proof.
  induction rest as [|r rest IH]; intros i acc tr.
  - exists [], [], []. cbn [mint_loop]. rewrite !app_nil_r.
    repeat split; try done; [by destruct acc | by destruct onProgress].
  - rewrite mint_loop_cons. cbv zeta.
    destruct (mint_step r tr) as (result & q & -> & Hqd & Hqp & Hcases & Hres).
    cbn [fst snd].
    set (pr := if onProgress
               then [MvProgress (i + 1) total
                       (match result with inr _ => true | inl _ => false end)]
               else []).
    set (d := if (i <? total - 1)%nat then [MvDelay 500] else []).
    match goal with
    | |- context [mint_loop _ _ _ _ _ _ _ ?a ?t] =>
        destruct (IH (S i) a t)
          as (oks & kos & evs & -> & Hs1 & Hs2 & Hperm & Hoks & Hkos
              & Hsub & Hm & Hd & Hp)
    end.
    assert (omap mint_of pr = [] /\ omap mint_of d = []
            /\ omap mint_delay_of pr = [] /\ omap mint_progress_of d = [])
      as (Hpr1 & Hd1 & Hpr2 & Hd2).
    { unfold pr, d. destruct onProgress, (i <? total - 1)%nat; by cbn. }
    assert (Hdelay :
      (i + length (r :: rest) = total)%nat ->
      omap mint_delay_of d ++ replicate (length rest - 1) 500%nat
      = replicate (length (r :: rest) - 1) 500%nat).
    { intros Htot. unfold d.
      destruct (Nat.ltb_spec i (total - 1)) as [Hlt|Hge].
      - replace (length (r :: rest) - 1)%nat with (S (length rest - 1))
          by (cbn [length] in *; lia).
        done.
      - destruct rest as [|r' rest']; [done | cbn [length] in *; lia]. }
    assert (Hprog :
      omap mint_progress_of pr
        ++ (if onProgress
            then (fun current => (current, total)) <$> seq (S i + 1) (length rest)
            else [])
      = (if onProgress
         then (fun current => (current, total)) <$> seq (i + 1) (length (r :: rest))
         else [])).
    { unfold pr. by destruct onProgress. }
    assert (Hsublist :
      omap mint_of q ++ omap mint_of evs
        `sublist_of`
        ((fun r => address_of (walletOf r))
           <$> filter (fun r => accepted_value (walletOf r)) (r :: rest))).
    { destruct Hcases as [[Ha [Hq1|[Hq1 _]]]|[Ha Hq1]]; rewrite Hq1; cbn [app].
      - rewrite filter_cons_True by done. rewrite fmap_cons.
        by apply sublist_skip.
      - rewrite filter_cons_True by done. rewrite fmap_cons.
        by apply sublist_cons.
      - by rewrite filter_cons_False by done. }
    assert (Hmint :
      builds_every_transaction minter ->
      omap mint_of q ++ omap mint_of evs
      = (fun r => address_of (walletOf r))
          <$> filter (fun r => accepted_value (walletOf r)) (r :: rest)).
    { intros Hall. rewrite Hm by done.
      destruct Hcases as [[Ha [Hq1|[_ Hq1]]]|[Ha Hq1]]; [| done |].
      - rewrite Hq1. by rewrite filter_cons_True by done.
      - rewrite Hq1. by rewrite filter_cons_False by done. }
    assert (Hevs :
      forall A (f : MintEvent -> option A),
        omap f (q ++ pr ++ d ++ evs)
        = omap f q ++ omap f pr ++ omap f d ++ omap f evs).
    { intros A f. by rewrite !omap_app. }
    destruct result as [message|signature]; cbn [successful failed].
    + exists oks, (mkFailure r message (clock (tr ++ q)) :: kos),
        (q ++ pr ++ d ++ evs).
      split; [by rewrite <- !app_assoc |].
      rewrite fmap_cons. cbn [ko_recipient].
      split; [by apply sublist_cons |]. split; [by apply sublist_skip |].
      split; [by rewrite <- Permutation_middle, Hperm |].
      split; [done |]. split; [by constructor |].
      rewrite !Hevs, Hp, Hqd, Hqp, Hpr1, Hd1, Hpr2, Hd2. cbn [app].
      split; [done |]. split; [done |]. split; [| done].
      intros Htot. rewrite Hd by (cbn [length] in Htot; lia). by apply Hdelay.
    + exists (mkSuccess r signature (clock (tr ++ q)) :: oks), kos,
        (q ++ pr ++ d ++ evs).
      split; [by rewrite <- !app_assoc |].
      rewrite fmap_cons. cbn [ok_recipient].
      split; [by apply sublist_skip |]. split; [by apply sublist_cons |].
      split; [cbn [app]; by rewrite Hperm |].
      split; [by constructor |]. split; [done |].
      rewrite !Hevs, Hp, Hqd, Hqp, Hpr1, Hd1, Hpr2, Hd2. cbn [app].
      split; [done |]. split; [done |]. split; [| done].
      intros Htot. rewrite Hd by (cbn [length] in Htot; lia). by apply Hdelay.
Qed.

End MintFacts.

Section MintClaims.

Context {R : Type} (walletOf : R -> property).
Variable minter : Minter.
Variable clock : Clock.

(** X22: mintToMany accounts for every recipient exactly once, in order:
    the successes and the failures are sublists of the recipients and
    together a rearrangement of them.  A success has an accepted wallet and
    the signature the chain answered; a failure has either an accepted
    wallet and the message that building or sending the transaction threw,
    or a wallet isValidSolanaAddress rejects and the invalid-wallet
    message, which ends in the wallet as a template literal prints it:
    undefined for an absent wallet, null for a null one. *)
Theorem mintToMany_outcomes (recipients : list R) (onProgress : bool)
    (tr : list MintEvent) :
  let out := fst (mintToMany walletOf minter clock recipients onProgress tr) in
  (ok_recipient <$> successful out) `sublist_of` recipients
  /\ (ko_recipient <$> failed out) `sublist_of` recipients
  /\ (ok_recipient <$> successful out) ++ (ko_recipient <$> failed out)
       ≡ₚ recipients
  /\ Forall (success_ok walletOf minter) (successful out)
  /\ Forall (failure_ok walletOf minter) (failed out)
  /\ invalid_wallet_message PUndefined
     = ("Invalid wallet address: undefined" : jsstring)
  /\ invalid_wallet_message PNull = ("Invalid wallet address: null" : jsstring).
Proof.
  cbv zeta. unfold mintToMany.
  destruct (mint_loop_facts walletOf minter clock onProgress (length recipients)
              recipients 0%nat (mkMintResult [] []) tr)
    as (oks & kos & evs & -> & H1 & H2 & H3 & H4 & H5 & _).
  cbn [fst successful failed app]. by repeat split.
Qed.


Lemma resumeMinting_remaining (recipients : list R)
    (previousSuccessful : list (Success R)) :
  filter (fun r => walletOf r ∉
            (list_to_set (map (fun p => walletOf (ok_recipient p))
                            previousSuccessful) : gset property))
    recipients
  = filter (fun r => ~ already_minted walletOf previousSuccessful r) recipients.
Proof.
  apply list_filter_iff. intros r. unfold already_minted.
  by rewrite elem_of_list_to_set, map_is_fmap.
Qed.

(** X24: resumeMinting keeps the earlier successes in front, logs how many
    there are and how many recipients remain, and attempts only the
    recipients whose wallet is not among the wallets of the earlier
    successes: each of these is accounted for once, as a new success or a
    failure; the mints it sends are for accepted wallets among them, in
    order and at most one for each, and no address of an earlier success
    is sent to the chain again. *)
Theorem resumeMinting_skips_minted (recipients : list R)
    (previousSuccessful : list (Success R)) (onProgress : bool)
    (tr : list MintEvent) :
  exists news kos evs,
    resumeMinting walletOf minter clock recipients previousSuccessful
      onProgress tr
    = (mkMintResult (previousSuccessful ++ news) kos,
       tr ++ MvLog (length previousSuccessful) (length news + length kos) :: evs)
    /\ (ok_recipient <$> news) ++ (ko_recipient <$> kos)
         ≡ₚ filter (fun r => ~ already_minted walletOf previousSuccessful r)
              recipients
    /\ omap mint_of evs
         `sublist_of`
         ((fun r => address_of (walletOf r))
            <$> filter (fun r => accepted_value (walletOf r))
                  (filter (fun r => ~ already_minted walletOf previousSuccessful r)
                     recipients))
    /\ (builds_every_transaction minter ->
        omap mint_of evs
        = (fun r => address_of (walletOf r))
            <$> filter (fun r => accepted_value (walletOf r))
                  (filter (fun r => ~ already_minted walletOf previousSuccessful r)
                     recipients))
    /\ forall a, a ∈ omap mint_of evs ->
         PString a ∉ (fun s => walletOf (ok_recipient s)) <$> previousSuccessful.
Proof.
  unfold resumeMinting. cbv zeta. rewrite resumeMinting_remaining.
  set (remaining := filter _ recipients). unfold mintToMany.
  destruct (mint_loop_facts walletOf minter clock onProgress (length remaining)
              remaining 0%nat (mkMintResult [] [])
              (tr ++ [MvLog (length previousSuccessful) (length remaining)]))
    as (oks & kos & evs & -> & _ & _ & Hperm & _ & _ & Hsub & Hm & _).
  cbn [successful failed app]. exists oks, kos, evs.
  assert (length remaining = (length oks + length kos)%nat) as Hlen.
  { rewrite <- Hperm, length_app, !length_fmap. done. }
  split; [by rewrite <- app_assoc, Hlen |]. split; [done |].
  split; [done |]. split; [done |].
  intros a Ha Hin.
  eapply elem_of_sublist in Ha; [| exact Hsub].
  apply list_elem_of_fmap in Ha as (r & -> & Hr).
  apply list_elem_of_filter in Hr as [Hacc Hr].
  apply list_elem_of_filter in Hr as [Hnot _]. apply Hnot.
  unfold already_minted. unfold accepted_value, address_of in *.
  destruct (walletOf r) as [| |w]; [discriminate | discriminate | exact Hin].
Qed.

End MintClaims.

Section MintAfterGate.

Context {R : Type} (walletOf : R -> property).
Variable minter : Minter.
Variable clock : Clock.

Lemma wallet_ok_accepted p : wallet_ok p <-> accepted (wallet p).
Proof. unfold wallet_ok, accepted. by rewrite address_checks_agree. Qed.

Lemma gate_recipients (recipients : list R) (ps : list Participant) :
  Forall2 (fun r p => wallet_reads (walletOf r) (wallet p)) recipients ps ->
  Forall wallet_ok ps ->
  Forall (fun r => accepted_value (walletOf r)) recipients
  /\ (fun r => address_of (walletOf r)) <$> recipients
     = (fun p => or_empty (wallet p)) <$> ps.
Proof.
  induction 1 as [|r p recipients ps Hr _ IH]; intros Hall; [done |].
  apply Forall_cons in Hall as [Hp Hall]. destruct (IH Hall) as [IH1 IH2].
  apply wallet_ok_accepted in Hp. unfold accepted in Hp.
  unfold wallet_reads in Hr.
  destruct (wallet p) as [w|] eqn:Hw; [| done].
  split.
  - constructor; [| done]. unfold accepted_value. by rewrite Hr.
  - by rewrite !fmap_cons, IH2, Hr, Hw.
Qed.

(** X25: on recipients that carry the wallets of records the mint scripts
    let through, mintToMany sends the chain only these wallets, in order
    and none twice, one for every record when building a transaction
    never throws; and every failure it reports is a throw of building or
    sending the transaction, never mintCompressedNFT's own rejection of
    the address. *)
Theorem mintToMany_after_gate (recipients : list R) (ps : list Participant)
    (onProgress : bool) (tr : list MintEvent) :
  Forall2 (fun r p => wallet_reads (walletOf r) (wallet p)) recipients ps ->
  mintable ps ->
  exists evs,
    snd (mintToMany walletOf minter clock recipients onProgress tr) = tr ++ evs
    /\ omap mint_of evs `sublist_of` ((fun p => or_empty (wallet p)) <$> ps)
    /\ (builds_every_transaction minter ->
        omap mint_of evs = (fun p => or_empty (wallet p)) <$> ps)
    /\ NoDup (omap mint_of evs)
    /\ Forall (fun f =>
                 exists tr',
                   minter tr' (address_of (walletOf (ko_recipient f)))
                   = BuildThrows (ko_error f)
                   \/ minter tr' (address_of (walletOf (ko_recipient f)))
                      = MintThrows (ko_error f))
         (failed (fst (mintToMany walletOf minter clock recipients
                         onProgress tr))).
Proof.
  intros Hreads (Hne & Hall & Hnd). unfold mintToMany.
  destruct (gate_recipients recipients ps Hreads Hall) as [Hacc Haddr].
  destruct (mint_loop_facts walletOf minter clock onProgress
              (length recipients) recipients 0%nat (mkMintResult [] []) tr)
    as (oks & kos & evs & -> & _ & H2 & _ & _ & H5 & Hsub & Hm & _).
  cbn [fst snd failed app]. exists evs.
  rewrite filter_all, Haddr in Hsub by done.
  rewrite filter_all, Haddr in Hm by done.
  split; [done |]. split; [done |]. split; [done |]. split.
  - eapply sublist_NoDup; [| exact Hsub].
    apply (NoDup_fmap_1 wallet_key). by rewrite <- list_fmap_compose.
  - rewrite Forall_forall in H5 |- *. intros f Hf.
    destruct (H5 f Hf) as [[_ Hthrow]|[Hrej _]]; [done |].
    exfalso. apply Hrej. rewrite Forall_forall in Hacc. apply Hacc.
    eapply elem_of_sublist; [| exact H2]. by apply list_elem_of_fmap_2.
Qed.

End MintAfterGate.

Lemma mintToMany_after_gate_witness :
  Forall2 (fun r p => wallet_reads (PString r) (wallet p)) [sample_address] [bob]
  /\ mintable [bob]
  /\ exists evs,
       snd (mintToMany PString always_mints still_clock [sample_address] true [])
       = [] ++ evs
       /\ omap mint_of evs = [sample_address].
Proof.
  assert (H0 : Forall2 (fun r p => wallet_reads (PString r) (wallet p))
                 [sample_address] [bob]).
  { constructor; [reflexivity | constructor]. }
  assert (H : mintable [bob]).
  { split; [discriminate |]. split.
    - apply Forall_singleton. vm_compute. reflexivity.
    - apply NoDup_singleton. }
  split; [exact H0 |]. split; [exact H |].
  destruct (mintToMany_after_gate PString always_mints still_clock
              [sample_address] [bob] true [] H0 H)
    as (evs & H1 & _ & H2 & _).
  exists evs. split; [exact H1 |]. apply H2. intros tr a m. discriminate.
Defined.

(** A wallet the validators accept and the key constructor refuses passes
    the checks of the mint scripts, is reported as failed with the
    constructor's message, and nothing is sent to the chain for it; a null
    wallet and an absent one are rejected by mintCompressedNFT itself. *)
Lemma mintToMany_unbuildable :
  let out :=
    mintToMany id refuses_recipient still_clock
      [PString unbuildable_address; PNull; PUndefined; PString sample_address]
      false [] in
  mintable [zed; bob]
  /\ (fun s => (ok_recipient s, ok_signature s)) <$> successful (fst out)
     = [(PString sample_address, sample_signature)]
  /\ (fun f => (ko_recipient f, ko_error f)) <$> failed (fst out)
     = [(PString unbuildable_address, "Invalid public key" : jsstring);
        (PNull, "Invalid wallet address: null" : jsstring);
        (PUndefined, "Invalid wallet address: undefined" : jsstring)]
  /\ omap mint_of (snd out) = [sample_address].
Proof.
  cbv zeta. split.
  - split; [discriminate |]. split.
    + apply (bool_decide_unpack _). vm_compute. exact I.
    + apply (bool_decide_unpack _). vm_compute. exact I.
  - vm_compute. done.
Qed.

(** ** The identity matcher as a whole *)

Section MatcherAccounts.

Local Open Scope Q_scope.

Variable byName : list (jsstring * WalletEntry).

Lemma similarity_range (str1 str2 : jsstring) :
  0 <= similarity str1 str2 /\ similarity str1 str2 <= 1.
Proof.
  destruct (similarity_cases str1 str2)
    as [[_ ->]|[(_ & _ & ->)|(Hne & H1 & H2 & ->)]]; [done | done |].
  apply score_bounds.
  - destruct (canonical str1); [done | cbn [length]; lia].
  - apply edit_distance_upper.
Qed.

Lemma best_match_score used target entry score :
  best_match byName used target = (Some entry, score) ->
  (w_wallet entry ∉ used)
  /\ exists n, (n, entry) ∈ byName /\ score = similarity target n.
Proof.
  unfold best_match. intros H.
  destruct (best_match_fold used target byName (None, 0))
    as (_ & _ & [Hout|Hout]).
  - rewrite H in Hout. discriminate.
  - destruct Hout as ([n e] & Hin & Hu & Hout). rewrite H in Hout.
    injection Hout as -> ->. split; [exact Hu |]. by exists n.
Qed.

(** The four ways the body of the matching loop can end. *)
Lemma match_registration_cases st email reg :
  (exists e,
      map_get byName (r_normalizedName reg) = Some e
      /\ match_registration byName st (email, reg)
         = push_matched st email reg e exact 1)
  \/ (exists e score,
        (w_wallet e ∉ usedWallets st)
        /\ FUZZY_THRESHOLD <= score /\ score <= 1
        /\ match_registration byName st (email, reg)
           = push_matched st email reg e fuzzy score)
  \/ (exists e score,
        (w_wallet e ∉ usedWallets st)
        /\ REVIEW_THRESHOLD <= score /\ score < FUZZY_THRESHOLD
        /\ match_registration byName st (email, reg)
           = push_review st email reg e score)
  \/ match_registration byName st (email, reg) = push_missing st email reg.
Proof.
  unfold match_registration. cbn [fst snd].
  destruct (map_get byName (r_normalizedName reg)) as [e|]; [left; eauto |].
  right.
  destruct (best_match byName (usedWallets st) (r_normalizedName reg))
    as [[e|] score] eqn:Hbest; [| by right; right].
  apply best_match_score in Hbest as (Hu & n & _ & ->).
  destruct (Qge_bool (similarity (r_normalizedName reg) n) FUZZY_THRESHOLD) eqn:Hf.
  - left. exists e, (similarity (r_normalizedName reg) n).
    apply Qge_bool_true in Hf. repeat split; try done.
    apply similarity_range.
  - right.
    assert (similarity (r_normalizedName reg) n < FUZZY_THRESHOLD) as Hlt.
    { apply Qnot_le_lt. intros Hle. apply Qge_bool_true in Hle. congruence. }
    destruct (Qge_bool (similarity (r_normalizedName reg) n) REVIEW_THRESHOLD) eqn:Hr.
    + left. exists e, (similarity (r_normalizedName reg) n).
      apply Qge_bool_true in Hr. by repeat split.
    + by right.
Qed.

Lemma matchRegistrations_snoc regs er :
  matchRegistrations byName (regs ++ [er])
  = match_registration byName (matchRegistrations byName regs) er.
Proof. unfold matchRegistrations. by rewrite fold_left_app. Qed.

Lemma matchRegistrations_accounting regs :
  (m_email <$> matched (matchRegistrations byName regs))
    ++ (rv_lumaEmail <$> reviewNeeded (matchRegistrations byName regs))
    ++ (mw_email <$> missingWallets (matchRegistrations byName regs))
    ≡ₚ fst <$> regs
  /\ (m_email <$> matched (matchRegistrations byName regs))
       `sublist_of` (fst <$> regs)
  /\ (rv_lumaEmail <$> reviewNeeded (matchRegistrations byName regs))
       `sublist_of` (fst <$> regs)
  /\ (mw_email <$> missingWallets (matchRegistrations byName regs))
       `sublist_of` (fst <$> regs)
  /\ usedWallets (matchRegistrations byName regs)
     = list_to_set (m_wallet <$> matched (matchRegistrations byName regs)).
Proof.
  induction regs as [|[email reg] regs (Hperm & Hs1 & Hs2 & Hs3 & Hused)]
    using rev_ind.
  { cbn. repeat split; done. }
  rewrite matchRegistrations_snoc, fmap_app. cbn [fmap list_fmap fst].
  set (st := matchRegistrations byName regs) in *.
  destruct (match_registration_cases st email reg)
    as [(e & _ & ->)|[(e & score & _ & _ & _ & ->)
        |[(e & score & _ & _ & _ & ->)| ->]]];
    unfold push_matched, push_review, push_missing;
    cbn [matched reviewNeeded missingWallets usedWallets];
    rewrite ?fmap_app; cbn [fmap list_fmap m_email m_wallet rv_lumaEmail mw_email].
  - repeat split.
    + rewrite <- Hperm, <- !app_assoc. f_equiv.
      rewrite (app_assoc _ _ [email]). apply Permutation_app_comm.
    + by apply sublist_app.
    + by apply sublist_inserts_r.
    + by apply sublist_inserts_r.
    + rewrite list_to_set_app_L, Hused. cbn. set_solver.
  - repeat split.
    + rewrite <- Hperm, <- !app_assoc. f_equiv.
      rewrite (app_assoc _ _ [email]). apply Permutation_app_comm.
    + by apply sublist_app.
    + by apply sublist_inserts_r.
    + by apply sublist_inserts_r.
    + rewrite list_to_set_app_L, Hused. cbn. set_solver.
  - repeat split.
    + rewrite <- Hperm, <- !app_assoc. do 2 f_equiv. apply Permutation_app_comm.
    + by apply sublist_inserts_r.
    + by apply sublist_app.
    + by apply sublist_inserts_r.
    + done.
  - repeat split.
    + by rewrite <- Hperm, <- !app_assoc.
    + by apply sublist_inserts_r.
    + by apply sublist_inserts_r.
    + by apply sublist_app.
    + done.
Qed.

Lemma matchRegistrations_bands regs :
  Forall confidence_ok (matched (matchRegistrations byName regs))
  /\ Forall review_band (reviewNeeded (matchRegistrations byName regs))
  /\ forall i m,
       matched (matchRegistrations byName regs) !! i = Some m ->
       m_matchMethod m = fuzzy ->
       m_wallet m ∉ m_wallet <$> take i (matched (matchRegistrations byName regs)).
Proof.
  induction regs as [|[email reg] regs (Hc & Hr & Hfresh)] using rev_ind.
  { cbn. repeat split; [constructor | constructor | done]. }
  destruct (matchRegistrations_accounting regs) as (_ & _ & _ & _ & Hused).
  rewrite matchRegistrations_snoc.
  set (st := matchRegistrations byName regs) in *.
  assert (Hold : forall m' i m,
             (matched st ++ [m']) !! i = Some m ->
             m_matchMethod m = fuzzy ->
             (m_matchMethod m' = fuzzy ->
              m_wallet m' ∉ m_wallet <$> matched st) ->
             m_wallet m ∉ m_wallet <$> take i (matched st ++ [m'])).
  { intros m' i m Hi Hm Hnew.
    destruct (decide (i < length (matched st))%nat) as [Hlt|Hge].
    - rewrite lookup_app_l in Hi by done.
      rewrite take_app_le by lia. by apply Hfresh.
    - apply lookup_lt_Some in Hi as Hlen. rewrite length_app in Hlen.
      cbn [length] in Hlen.
      assert (i = length (matched st)) as -> by lia.
      rewrite list_lookup_middle in Hi by done. injection Hi as <-.
      rewrite take_app_length. by apply Hnew. }
  destruct (match_registration_cases st email reg)
    as [(e & _ & ->)|[(e & score & Hu & Hf1 & Hf2 & ->)
        |[(e & score & _ & Hr1 & Hr2 & ->)| ->]]];
    unfold push_matched, push_review, push_missing;
    cbn [matched reviewNeeded missingWallets usedWallets].
  - split; [| split; [done |]].
    + apply Forall_app. split; [done |]. by apply Forall_singleton.
    + intros i m Hi Hm. apply (Hold _ i m Hi Hm). cbn. discriminate.
  - split; [| split; [done |]].
    + apply Forall_app. split; [done |]. by apply Forall_singleton.
    + intros i m Hi Hm. apply (Hold _ i m Hi Hm). cbn [m_wallet]. intros _.
      rewrite Hused in Hu. by rewrite elem_of_list_to_set in Hu.
  - split; [done |]. split; [| done].
    apply Forall_app. split; [done |]. by apply Forall_singleton.
  - by repeat split.
Qed.

(** X26: the matching loop accounts for every registration exactly once:
    the emails of the matched, review and missing records are each a
    sublist of the registrations' emails and together a rearrangement of
    them; and the consumed wallets are exactly the wallets of the matched
    records. *)
Theorem matchRegistrations_accounts (regs : list (jsstring * Registration)) :
  (m_email <$> matched (matchRegistrations byName regs))
    ++ (rv_lumaEmail <$> reviewNeeded (matchRegistrations byName regs))
    ++ (mw_email <$> missingWallets (matchRegistrations byName regs))
    ≡ₚ fst <$> regs
  /\ (m_email <$> matched (matchRegistrations byName regs))
       `sublist_of` (fst <$> regs)
  /\ (rv_lumaEmail <$> reviewNeeded (matchRegistrations byName regs))
       `sublist_of` (fst <$> regs)
  /\ (mw_email <$> missingWallets (matchRegistrations byName regs))
       `sublist_of` (fst <$> regs)
  /\ usedWallets (matchRegistrations byName regs)
     = list_to_set (m_wallet <$> matched (matchRegistrations byName regs)).
Proof. apply matchRegistrations_accounting. Qed.

(** X27: every exact match carries confidence 1 and every fuzzy match a
    confidence from the fuzzy threshold 0.85 up to 1; every review
    candidate carries a confidence from 0.7 up to, but not reaching, 0.85;
    and a fuzzy match never takes a wallet that an earlier match has
    taken. *)
Theorem matchRegistrations_confidence (regs : list (jsstring * Registration)) :
  Forall confidence_ok (matched (matchRegistrations byName regs))
  /\ Forall review_band (reviewNeeded (matchRegistrations byName regs))
  /\ forall i m,
       matched (matchRegistrations byName regs) !! i = Some m ->
       m_matchMethod m = fuzzy ->
       m_wallet m ∉ m_wallet <$> take i (matched (matchRegistrations byName regs)).
Proof. apply matchRegistrations_bands. Qed.

End MatcherAccounts.

Section ConsolidateFacts.

(** X28: consolidation loses no wallet: the address of every entry of the
    wallet sheet is the wallet of some participant written out, either of
    a matched record or of a walk-in. *)
Theorem consolidate_keeps_every_wallet (t : WalletTable)
    (regs : list (jsstring * Registration)) :
  Forall (fun e => Some (w_wallet e) ∈ wallet <$> consolidate t regs)
    (walletData t).
Proof.
  apply Forall_forall. intros e He. unfold consolidate, allParticipants.
  cbv zeta. rewrite fmap_app, elem_of_app.
  destruct (matchRegistrations_accounting (walletsByName t) regs)
    as (_ & _ & _ & _ & Hused).
  destruct (decide (w_wallet e ∈ usedWallets
                      (matchRegistrations (walletsByName t) regs))) as [Hin|Hout].
  - left. rewrite Hused, elem_of_list_to_set in Hin.
    apply list_elem_of_fmap in Hin as (m & Hw & Hm).
    apply list_elem_of_fmap.
    exists (mkParticipant (Some (m_name m)) (Some (m_wallet m))
              (Some (m_email m)) (m_campus m)).
    split; [cbn; by rewrite Hw |].
    apply list_elem_of_In, in_map_iff. exists m. split; [done |].
    by apply list_elem_of_In.
  - right. apply list_elem_of_fmap.
    exists (mkParticipant (Some (w_name e)) (Some (w_wallet e)) (Some [])
              (Some ("WALK-IN" : jsstring))).
    split; [done |]. unfold findNoEmail.
    apply list_elem_of_In. rewrite map_map. apply in_map_iff.
    exists e. split; [done |]. by apply list_elem_of_In, list_elem_of_filter.
Qed.

End ConsolidateFacts.

(** ** The loaders *)

Section LoaderFacts.

Lemma map_get_elem {V : Type} (m : list (jsstring * V)) k v :
  map_get m k = Some v -> (k, v) ∈ m.
Proof.
  induction m as [|[k' v'] m IH]; [done |]. cbn [map_get].
  destruct (str_eqb k' k) eqn:Hk.
  - apply str_eqb_eq in Hk as ->. intros [= ->]. apply elem_of_cons. by left.
  - intros H. apply elem_of_cons. right. by apply IH.
Qed.

Lemma map_get_None {V : Type} (m : list (jsstring * V)) k :
  map_get m k = None <-> k ∉ fst <$> m.
Proof.
  induction m as [|[k' v'] m IH]; [split; [intros _; apply not_elem_of_nil | done] |].
  cbn [map_get]. rewrite fmap_cons, not_elem_of_cons. cbn [fst].
  destruct (str_eqb k' k) eqn:Hk.
  - apply str_eqb_eq in Hk as ->. split; [discriminate | by intros [? _]].
  - apply str_eqb_neq in Hk. rewrite IH. split; [| by intros [_ ?]].
    intros H. split; [congruence | done].
Qed.

Lemma map_set_new {V : Type} (m : list (jsstring * V)) k v :
  map_get m k = None -> map_set m k v = m ++ [(k, v)].
Proof.
  induction m as [|[k' v'] m IH]; [done |]. cbn [map_get map_set].
  destruct (str_eqb k' k); [discriminate |]. intros H. by rewrite IH.
Qed.

Lemma map_set_old {V : Type} (m : list (jsstring * V)) k v old :
  map_get m k = Some old ->
  exists m1 m2, m = m1 ++ (k, old) :: m2 /\ map_set m k v = m1 ++ (k, v) :: m2.
Proof.
  induction m as [|[k' v'] m IH]; [done |]. cbn [map_get map_set].
  destruct (str_eqb k' k) eqn:Hk.
  - apply str_eqb_eq in Hk as ->. intros [= ->]. by exists [], m.
  - intros H. destruct (IH H) as (m1 & m2 & -> & ->).
    by exists ((k', v') :: m1), m2.
Qed.

Lemma map_get_set {V : Type} (m : list (jsstring * V)) k v k' :
  map_get (map_set m k v) k'
  = if decide (k' = k) then Some v else map_get m k'.
Proof.
  induction m as [|[k0 v0] m IH]; cbn [map_get map_set].
  - destruct (decide (k' = k)) as [->|Hne].
    + by rewrite str_eqb_refl.
    + assert (str_eqb k k' = false) as -> by (apply str_eqb_neq; congruence).
      done.
  - destruct (str_eqb k0 k) eqn:Hk; cbn [map_get].
    + apply str_eqb_eq in Hk as ->.
      destruct (decide (k' = k)) as [->|Hne].
      * by rewrite str_eqb_refl.
      * assert (str_eqb k k' = false) as -> by (apply str_eqb_neq; congruence).
        done.
    + rewrite IH. destruct (str_eqb k0 k') eqn:Hk'; [| done].
      apply str_eqb_eq in Hk' as ->. apply str_eqb_neq in Hk.
      by rewrite decide_False by congruence.
Qed.

Lemma head_filter_snoc {A : Type} (P : A -> Prop) `{!forall x, Decision (P x)}
    (l : list A) x :
  head (filter P (l ++ [x]))
  = match head (filter P l) with
    | Some y => Some y
    | None => if decide (P x) then Some x else None
    end.
Proof.
  rewrite filter_app. destruct (filter P l) as [|y l']; [| done]. cbn [app head].
  destruct (decide (P x)) as [HP|HP].
  - by rewrite filter_cons_True.
  - by rewrite filter_cons_False.
Qed.

Lemma load_wallet_row_cases t r :
  load_wallet_row t r = t
  \/ exists entry,
       load_wallet_row t r
       = mkWalletTable (walletData t ++ [entry])
           (if map_has (walletsByName t) (w_normalizedName entry)
            then walletsByName t
            else map_set (walletsByName t) (w_normalizedName entry) entry).
Proof.
  unfold load_wallet_row. cbv zeta.
  match goal with |- context [if ?c then t else _] => destruct c end;
    [by left | right].
  eexists (mkWalletEntry _ _ _ _ _). reflexivity.
Qed.

Lemma load_wallet_row_inv t r : wallets_inv t -> wallets_inv (load_wallet_row t r).
Proof.
  intros (Hnd & Hget & Hall).
  destruct (load_wallet_row_cases t r) as [->|[entry ->]]; [done |].
  unfold wallets_inv, map_has. cbn [walletData walletsByName].
  destruct (map_get (walletsByName t) (w_normalizedName entry)) as [old|] eqn:Hold.
  - split; [done |]. split.
    + intros k. rewrite head_filter_snoc, <- Hget.
      destruct (map_get (walletsByName t) k) eqn:Hk; [done |].
      destruct (decide (w_normalizedName entry = k)) as [<-|_]; [congruence | done].
    + eapply Forall_impl; [exact Hall |]. intros ne [? ?]. split; [done |].
      apply elem_of_app. by left.
  - rewrite map_set_new by done. split; [| split].
    + rewrite fmap_app. apply NoDup_app. split; [done |]. split.
      * intros k Hk Hin. apply list_elem_of_singleton in Hin as ->.
        by apply map_get_None in Hold.
      * apply NoDup_singleton.
    + intros k. rewrite head_filter_snoc, <- Hget, <- map_set_new by done.
      rewrite map_get_set.
      destruct (decide (k = w_normalizedName entry)) as [->|Hne].
      * rewrite Hold. by rewrite decide_True.
      * destruct (map_get (walletsByName t) k); [done |].
        by rewrite decide_False by congruence.
    + apply Forall_app. split.
      * eapply Forall_impl; [exact Hall |]. intros ne [? ?]. split; [done |].
        apply elem_of_app. by left.
      * apply Forall_singleton. split; [done |]. apply elem_of_app. right.
        by apply list_elem_of_singleton.
Qed.

Lemma loadWallets_inv rows : wallets_inv (loadWallets rows).
Proof.
  unfold loadWallets. induction rows as [|r rows IH] using rev_ind.
  - repeat split; [constructor | constructor].
  - rewrite fold_left_app. cbn [fold_left]. by apply load_wallet_row_inv.
Qed.

(** X29: in the wallet table every normalized name is filed once, and
    looking a name up gives the first entry of the wallet sheet with that
    normalized name: later entries with the same name stay in the sheet
    data but are not reachable by name. *)
Theorem loadWallets_first_wins (rows : list row) :
  NoDup (fst <$> walletsByName (loadWallets rows))
  /\ (forall k, map_get (walletsByName (loadWallets rows)) k
                = head (filter (fun e => w_normalizedName e = k)
                          (walletData (loadWallets rows))))
  /\ Forall (fun ne => w_normalizedName (snd ne) = fst ne
                       /\ snd ne ∈ walletData (loadWallets rows))
       (walletsByName (loadWallets rows)).
Proof. apply loadWallets_inv. Qed.

End LoaderFacts.

Section RegistrationFacts.

Lemma truthy_nonempty (s : jsstring) : truthy (Some s) = true <-> s <> [].
Proof. by destruct s. Qed.

Lemma existsb_str_eqb (c : jsstring) (cs : list jsstring) :
  existsb (str_eqb c) cs = true <-> c ∈ cs.
Proof.
  rewrite existsb_exists. split.
  - intros (x & Hx & Heq). apply str_eqb_eq in Heq as ->. by apply list_elem_of_In.
  - intros H. exists c. split; [by apply list_elem_of_In | apply str_eqb_refl].
Qed.

Lemma load_luma_row_inv campus regs r n :
  registrations_inv regs n ->
  registrations_inv (load_luma_row campus regs r)
    (n + if decide (luma_email r <> []) then 1 else 0).
Proof.
  intros (Hnd & Hall & Hsum). unfold load_luma_row. cbv zeta.
  fold (luma_email r).
  destruct (decide (luma_email r <> [])) as [Hne|He].
  - apply truthy_nonempty in Hne as Ht. rewrite Ht. cbn [negb].
    destruct (map_get regs (luma_email r)) as [existing|] eqn:Hget.
    + destruct (map_set_old regs (luma_email r)
                  (mkRegistration (r_name existing) (r_normalizedName existing)
                     (r_email existing)
                     (if existsb (str_eqb campus) (r_campuses existing)
                      then r_campuses existing
                      else r_campuses existing ++ [campus])
                     (S (r_daysAttended existing)) (r_attended existing))
                  existing Hget) as (m1 & m2 & Hregs & ->).
      rewrite Hregs in Hnd, Hall, Hsum.
      rewrite fmap_app, fmap_cons in Hnd.
      rewrite sum_list_with_app in Hsum. cbn [sum_list_with snd] in Hsum.
      apply Forall_app in Hall as [Hall1 Hall23].
      apply Forall_cons in Hall23 as [(Hem & Hk & Hd & Hc & Hcn) Hall2].
      cbn [fst snd] in *.
      split; [| split].
      * by rewrite fmap_app, fmap_cons.
      * apply Forall_app. split; [done |]. apply Forall_cons. split; [| done].
        unfold registration_ok. cbn [fst snd r_email r_daysAttended r_campuses].
        split; [done |]. split; [done |]. split; [lia |].
        destruct (existsb (str_eqb campus) (r_campuses existing)) eqn:Hex.
        -- by split.
        -- split; [by destruct (r_campuses existing) |].
           apply NoDup_app. split; [done |]. split; [| apply NoDup_singleton].
           intros c Hc1 Hc2. apply list_elem_of_singleton in Hc2 as ->.
           apply existsb_str_eqb in Hc1. congruence.
      * rewrite sum_list_with_app.
        cbn [sum_list_with snd r_daysAttended]. lia.
    + rewrite map_set_new by done. split; [| split].
      * rewrite fmap_app. apply NoDup_app. split; [done |]. split.
        -- intros k Hk Hin. apply list_elem_of_singleton in Hin as ->.
           by apply map_get_None in Hget.
        -- apply NoDup_singleton.
      * apply Forall_app. split; [done |]. apply Forall_singleton.
        unfold registration_ok. cbn [fst snd r_email r_daysAttended r_campuses].
        repeat split; [done | lia | done | apply NoDup_singleton].
      * rewrite sum_list_with_app.
        cbn [sum_list_with snd r_daysAttended]. lia.
  - assert (truthy (Some (luma_email r)) = false) as ->.
    { apply not_true_iff_false. intros H. by apply truthy_nonempty in H. }
    cbn [negb]. rewrite Nat.add_0_r. by repeat split.
Qed.

Lemma load_luma_rows_inv campus rows :
  forall regs n,
    registrations_inv regs n ->
    registrations_inv (fold_left (load_luma_row campus) rows regs)
      (n + length (filter (fun r => luma_email r <> []) rows)).
Proof.
  induction rows as [|r rows IH]; intros regs n Hinv.
  - cbn. by rewrite Nat.add_0_r.
  - cbn [fold_left]. rewrite filter_cons_length.
    apply (load_luma_row_inv campus regs r n) in Hinv. apply IH in Hinv.
    by replace (n + ((if decide (luma_email r <> []) then 1 else 0)
                     + length (filter (fun r => luma_email r <> []) rows)))%nat
      with (n + (if decide (luma_email r <> []) then 1 else 0)
            + length (filter (fun r => luma_email r <> []) rows))%nat by lia.
Qed.

Lemma load_luma_files_inv (files : list (jsstring * list row)) :
  forall regs n,
    registrations_inv regs n ->
    registrations_inv
      (fold_left
         (fun regs file => fold_left (load_luma_row (fst file)) (snd file) regs)
         files regs)
      (n + length (filter (fun r => luma_email r <> []) (concat (snd <$> files)))).
Proof.
  induction files as [|[campus rows] files IH]; intros regs n Hinv.
  - cbn. by rewrite Nat.add_0_r.
  - cbn [fold_left fst snd]. rewrite fmap_cons. cbn [concat snd].
    rewrite filter_app, length_app.
    apply (load_luma_rows_inv campus rows) in Hinv. apply IH in Hinv.
    by rewrite Nat.add_assoc.
Qed.

(** X30: in the registrations table every email is filed once, under
    itself, and is not empty; every registration has at least one campus,
    no campus twice, and a day count of at least one; and the day counts
    add up to the number of Luma rows that have an email, so a row that
    repeats an email adds a day even within one file. *)
Theorem loadRegistrations_counts_rows (lumaFiles : list (jsstring * list row)) :
  NoDup (fst <$> loadRegistrations lumaFiles)
  /\ Forall registration_ok (loadRegistrations lumaFiles)
  /\ sum_list_with (fun er => r_daysAttended (snd er))
       (loadRegistrations lumaFiles)
     = length (filter (fun r => luma_email r <> [])
                 (concat (snd <$> lumaFiles))).
Proof.
  apply (load_luma_files_inv lumaFiles [] 0%nat).
  repeat split; constructor.
Qed.

End RegistrationFacts.
